(** * Polaroid Christmas tree: per-frame animation core

    A shallow embedding of the animation code of the repository
    (utils.ts, Foliage.tsx, Ornaments.tsx, Star.tsx, PhotoFrame.tsx,
    PhotoGallery.tsx and the handlers of App.tsx) and the properties its
    specification states about it.

    Conventions of the embedding.
    - A JavaScript [number] is a real number: arithmetic is exact.
    - Every call of [Math.random()] is an explicit argument of the function
      that makes it, in call order; the caller supplies a value of [0,1).
    - A React ref is a field of the component's state record; a callback
      prop that the component invokes ([onFocus], [onBlur]) is an entry of
      the list of emissions a handler returns.
    - The guards [if (!ref.current) return] at the head of the per-frame
      callbacks are a boolean argument [attached].
    - Browser timers ([window.setTimeout], [window.clearTimeout]) are a
      finite map from timer handles to deadlines in milliseconds.
    - The functions of three.js that the code calls ([MathUtils],
      [Vector3], [Quaternion], [Matrix4.lookAt]) are modelled after the
      definitions of the library. *)

From stdpp Require Import base strings pretty gmap list.
From Stdlib Require Import Reals Lra Lia QArith.
From Stdlib Require Lqa.

Local Open Scope R_scope.

(** ** Numbers: [Math] and [THREE.MathUtils] *)

Module MathUtils.

(** [Math.sign] *)
Definition sign (x : R) : R :=
  if Rlt_dec 0 x then 1 else if Rlt_dec x 0 then -1 else 0.

(** [MathUtils.lerp(x, y, t)]: [(1 - t) * x + t * y] *)
Definition lerp (x y t : R) : R := (1 - t) * x + t * y.

(** [MathUtils.clamp(value, min, max)]:
    [Math.max(min, Math.min(max, value))] *)
Definition clamp (value lo hi : R) : R := Rmax lo (Rmin hi value).

(** [MathUtils.smoothstep(x, min, max)] *)
Definition smoothstep (x lo hi : R) : R :=
  if Rle_dec x lo then 0
  else if Rle_dec hi x then 1
  else let x' := (x - lo) / (hi - lo) in x' * x' * (3 - 2 * x').

(** [MathUtils.randFloatSpread(range)]: [range * (0.5 - Math.random())],
    with the random draw [u]. *)
Definition randFloatSpread (range u : R) : R := range * (1/2 - u).

(** [MathUtils.degToRad] *)
Definition degToRad (degrees : R) : R := degrees * (PI / 180).

(** [x === 0] *)
Definition isZero (x : R) : bool := if Req_dec_T x 0 then true else false.

(** The range of [Math.random()]. *)
Definition unit_draw (u : R) : Prop := 0 <= u < 1.

End MathUtils.

(** ** [THREE.Vector3] and [THREE.Euler] *)

Record Vector3 : Type := mkVector3 { vx : R; vy : R; vz : R }.

Record Euler : Type := mkEuler { ex : R; ey : R; ez : R }.

Module Vec.

(** [this.lerp(v, alpha)]: each component moves by [(v.c - this.c) * alpha]. *)
Definition lerp (this v : Vector3) (alpha : R) : Vector3 :=
  mkVector3 (vx this + (vx v - vx this) * alpha)
            (vy this + (vy v - vy this) * alpha)
            (vz this + (vz v - vz this) * alpha).

(** [lerpVectors(v1, v2, alpha)] *)
Definition lerpVectors (v1 v2 : Vector3) (alpha : R) : Vector3 :=
  mkVector3 (vx v1 + (vx v2 - vx v1) * alpha)
            (vy v1 + (vy v2 - vy v1) * alpha)
            (vz v1 + (vz v2 - vz v1) * alpha).

(** Distance of a point to the vertical (y) axis. *)
Definition horizontalRadius (p : Vector3) : R :=
  sqrt (vx p * vx p + vz p * vz p).

End Vec.

(** ** The global assembly signal (types.ts) *)

Inductive TreeState : Type := CHAOS | FORMED.

Definition TreeState_eqb (a b : TreeState) : bool :=
match a, b with
| CHAOS, CHAOS | FORMED, FORMED => true
| _, _ => false
end.

Definition toggleTree (s : TreeState) : TreeState :=
match s with CHAOS => FORMED | FORMED => CHAOS end.

(** ** Spatial distribution library (utils.ts) *)

Module Utils.

(** [getTreePoint(height, baseRadius, yRatio)]; [uTheta] is the draw of
    the angle, [uNoise] the draw inside [randFloatSpread]. *)
Definition getTreePoint (height baseRadius yRatio uTheta uNoise : R)
  : Vector3 :=
  let y := yRatio * height in
  let r := baseRadius * (1 - yRatio) in
  let theta := uTheta * PI * 2 in
  let rNoise := MathUtils.randFloatSpread (1/2) uNoise in
  let finalR := Rmax 0 (r + rNoise) in
  mkVector3 (finalR * cos theta) (y - height / 2) (finalR * sin theta).

Record SpiralPoint : Type :=
  mkSpiralPoint { position : Vector3; rotationY : R }.

(** The polar angle [theta] of [getSpiralPoint]: four loops over the
    height ratio. *)
Definition spiralTheta (index total : R) : R :=
  let yRatio := index / total in
  let loops := 4 in
  yRatio * PI * 2 * loops.

(** [getSpiralPoint(index, total, height, radiusBase)] *)
Definition getSpiralPoint (index total height radiusBase : R)
  : SpiralPoint :=
  let yRatio := index / total in
  let y := (yRatio * height) - (height / 2) in
  let r := (radiusBase * (1 - yRatio)) + 3/2 in
  let theta := spiralTheta index total in
  let x := r * cos theta in
  let z := r * sin theta in
  mkSpiralPoint (mkVector3 x y z) (- theta).

End Utils.

(** ** Foliage particle field (Foliage.tsx) *)

Module Foliage.

(** [progressRef] and the two shader uniforms. *)
Record State : Type :=
  mkState { progressRef : R; uProgress : R; uTime : R }.

Definition initial : State := mkState 0 0 0.

(** The [useFrame] callback. *)
Definition useFrame (attached : bool) (treeState : TreeState)
    (elapsedTime delta : R) (s : State) : State :=
  if negb attached then s
  else
    let targetVal := if TreeState_eqb treeState FORMED then 1 else 0 in
    let p := MathUtils.lerp (progressRef s) targetVal (delta * (5/2)) in
    mkState p p elapsedTime.

(** The vertex shader's position of vertex [id]. *)
Definition vertexPosition (s : State) (id : nat) (chaosPos targetPos : Vector3)
  : Vector3 :=
  let pos := Vec.lerpVectors chaosPos targetPos (uProgress s) in
  let ph := uTime s * (8/10) + INR id * (1/1000) in
  mkVector3 (vx pos + sin ph * (15/100) * (1 - uProgress s))
            (vy pos)
            (vz pos + cos ph * (15/100) * (1 - uProgress s)).

(** [n] frames at a constant signal and a constant [delta]. *)
Fixpoint frames (n : nat) (treeState : TreeState) (delta : R) (s : State)
  : State :=
  match n with
  | O => s
  | S k => useFrame true treeState 0 delta (frames k treeState delta s)
  end.

End Foliage.

(** ** Ornament instance batches (Ornaments.tsx) *)

Module Ornaments.

Inductive OrnamentType : Type := ball | box | light.

Definition isBox (t : OrnamentType) : bool :=
  match t with box => true | _ => false end.

Definition isLight (t : OrnamentType) : bool :=
  match t with light => true | _ => false end.

(** One index of the arrays [chaosData], [targetData], [speeds],
    [initialRotations] and [currentPositions]. *)
Record Instance : Type := mkInstance {
  chaosData : Vector3;
  targetData : Vector3;
  speeds : R;
  initialRotations : Euler;
  currentPositions : Vector3
}.

(** [THREE.Object3D] as far as the batch uses it; an instance matrix is
    the position, rotation and scale that [updateMatrix] composes. *)
Record Object3D : Type := mkObject3D {
  objPosition : Vector3;
  objRotation : Euler;
  objScale : Vector3
}.

Definition setScalar (s : R) : Vector3 := mkVector3 s s s.

(** [Vector3.normalize]: division by [length() || 1]. *)
Definition normalize (v : Vector3) : Vector3 :=
  let len := sqrt (vx v * vx v + vy v * vy v + vz v * vz v) in
  let d := if Req_dec_T len 0 then 1 else len in
  mkVector3 (vx v / d) (vy v / d) (vz v / d).

(** What one iteration of the generating loop draws.  [chaosPoint] is
    the value of [getRandomSpherePoint(20)], [yBias] the value of
    [Math.pow(Math.random(), 1.8)]; the others are raw draws. *)
Record Draws : Type := mkDraws {
  chaosPoint : Vector3;
  yBias : R;
  uTheta : R;
  uNoise : R;
  uSpeed : R;
  uRotX : R;
  uRotY : R;
  uRotZ : R
}.

(** One iteration of the generating loop of [useMemo]; the current
    position starts as a clone of the chaos position. *)
Definition generate (type : OrnamentType) (d : Draws) : Instance :=
  let tPos := Utils.getTreePoint 14 5 (yBias d) (uTheta d) (uNoise d) in
  let offset :=
    match type with box => 5/10 | ball => 3/10 | light => 6/10 end in
  let direction := normalize (mkVector3 (vx tPos) 0 (vz tPos)) in
  let tPos' := mkVector3 (vx tPos + vx direction * offset)
                         (vy tPos + vy direction * offset)
                         (vz tPos + vz direction * offset) in
  mkInstance (chaosPoint d) tPos'
             (1 + uSpeed d * 2)
             (mkEuler (uRotX d * PI) (uRotY d * PI) (uRotZ d * PI))
             (chaosPoint d).

(** The body of the per-instance loop: it overwrites the shared
    [tempObject] and returns the instance with its moved position. *)
Definition stepInstance (type : OrnamentType) (treeState : TreeState)
    (elapsedTime delta : R) (i : nat) (inst : Instance)
  : Instance * Object3D :=
  let target := if TreeState_eqb treeState FORMED
                then targetData inst else chaosData inst in
  let speed := speeds inst in
  let current := Vec.lerp (currentPositions inst) target (speed * delta) in
  let rotation :=
    if isBox type then initialRotations inst
    else mkEuler 0 (elapsedTime * (1/10) * speed) 0 in
  let scale :=
    if isLight type
    then setScalar (1 + sin (elapsedTime * 5 + INR i) * (2/10))
    else setScalar 1 in
  (mkInstance (chaosData inst) (targetData inst) (speeds inst)
              (initialRotations inst) current,
   mkObject3D current rotation scale).

(** The batch: the instances, the instance matrices and [tempObject]. *)
Record State : Type := mkState {
  instances : list Instance;
  instanceMatrix : list Object3D;
  tempObject : Object3D
}.

(** The loop [for (let i = 0; i < count; i++)], from index [i]. *)
Fixpoint loop (type : OrnamentType) (treeState : TreeState)
    (elapsedTime delta : R) (i : nat) (tmp : Object3D) (l : list Instance)
  : list Instance * list Object3D * Object3D :=
  match l with
  | [] => ([], [], tmp)
  | inst :: rest =>
      let '(inst', m) := stepInstance type treeState elapsedTime delta i inst in
      let '(insts, ms, tmp') :=
        loop type treeState elapsedTime delta (S i) m rest in
      (inst' :: insts, m :: ms, tmp')
  end.

(** The [useFrame] callback. *)
Definition useFrame (attached : bool) (type : OrnamentType)
    (treeState : TreeState) (elapsedTime delta : R) (s : State) : State :=
  if negb attached then s
  else
    let '(insts, ms, tmp) :=
      loop type treeState elapsedTime delta 0 (tempObject s) (instances s) in
    mkState insts ms tmp.

End Ornaments.

(** ** Chaotic swarm (Star.tsx, [ChaoticSwarm]) *)

Module Swarm.

(** An entry of [params]. *)
Record Param : Type := mkParam {
  radius : R; speed : R;
  freqX : R; freqY : R; freqZ : R;
  offX : R; offY : R; offZ : R
}.

(** The eight draws of one iteration of the generating loop, in call
    order (the colour draw does not reach the positions). *)
Record Draws : Type := mkDraws {
  uRadius : R; uSpeed : R;
  uFreqX : R; uFreqY : R; uFreqZ : R;
  uOffX : R; uOffY : R; uOffZ : R
}.

Definition generate (d : Draws) : Param :=
  mkParam (8/10 + uRadius d * (17/10))
          (5/10 + uSpeed d * 1)
          (1 + uFreqX d) (1 + uFreqY d) (1 + uFreqZ d)
          (uOffX d * PI * 2) (uOffY d * PI * 2) (uOffZ d * PI * 2).

Definition unit_draws (d : Draws) : Prop :=
  MathUtils.unit_draw (uRadius d) /\ MathUtils.unit_draw (uSpeed d) /\
  MathUtils.unit_draw (uFreqX d) /\ MathUtils.unit_draw (uFreqY d) /\
  MathUtils.unit_draw (uFreqZ d) /\ MathUtils.unit_draw (uOffX d) /\
  MathUtils.unit_draw (uOffY d) /\ MathUtils.unit_draw (uOffZ d).

(** The points material and the position attribute. *)
Record State : Type := mkState {
  opacity : R;
  visible : bool;
  positions : list Vector3
}.

(** [initialPositions]: every particle at the origin. *)
Definition initial (params : list Param) : State :=
  mkState 0 true (map (fun _ => mkVector3 0 0 0) params).

(** The Lissajous position of a particle at elapsed time [t]. *)
Definition orbit (t : R) (p : Param) : Vector3 :=
  let time := t * speed p in
  mkVector3 (radius p * sin (time * freqX p + offX p))
            (radius p * sin (time * freqY p + offY p))
            (radius p * sin (time * freqZ p + offZ p)).

(** The [useFrame] callback; [opacity] is the prop. *)
Definition useFrame (attached : bool) (params : list Param)
    (opacityProp t : R) (s : State) : State :=
  if negb attached then s
  else
    let vis := if Rlt_dec (1/100) opacityProp then true else false in
    if Rle_dec opacityProp (1/100)
    then mkState opacityProp vis (positions s)
    else mkState opacityProp vis (map (orbit t) params).

(** A frame as the scheduler delivers it. *)
Record Frame : Type := mkFrame {
  fAttached : bool; fOpacity : R; fTime : R
}.

Definition run (params : list Param) (fs : list Frame) (s : State) : State :=
  fold_left (fun st f => useFrame (fAttached f) params (fOpacity f) (fTime f) st)
            fs s.

(** A point inside the axis-aligned cube of half-width [h]. *)
Definition inCube (h : R) (p : Vector3) : Prop :=
  Rabs (vx p) < h /\ Rabs (vy p) < h /\ Rabs (vz p) < h.

End Swarm.

(** ** Star centerpiece (Star.tsx, [Star]) *)

Module Star.

(** [progress], the shared material, the group, and the two props that
    the JSX computes when the component renders. *)
Record State : Type := mkState {
  progress : R;
  opacity : R;
  emissiveIntensity : R;
  visible : bool;
  scale : R;
  positionY : R;
  rotationY : R;
  pointLightIntensity : R;
  swarmOpacity : R
}.

(** The effect of rendering the component: the JSX reads the ref and the
    material once. *)
Definition render (s : State) : State :=
  mkState (progress s) (opacity s) (emissiveIntensity s) (visible s)
          (scale s) (positionY s) (rotationY s)
          (2 * progress s) (opacity s).

(** State after the first render. *)
Definition initial : State :=
  render (mkState 0 0 2 true 1 (82/10) 0 0 0).

(** The new value of [progress.current]. *)
Definition advance (treeState : TreeState) (delta : R) (p : R) : R :=
  let speed := 1 / (15/10) in
  let targetVal := if TreeState_eqb treeState FORMED then 1 else 0 in
  let diff := targetVal - p in
  if Rlt_dec (1/10000) (Rabs diff)
  then MathUtils.clamp (p + MathUtils.sign diff * delta * speed) 0 1
  else targetVal.

(** The [useFrame] callback. *)
Definition useFrame (attached : bool) (treeState : TreeState)
    (elapsedTime delta : R) (s : State) : State :=
  if negb attached then s
  else
    let progress' := advance treeState delta (progress s) in
    let p := MathUtils.smoothstep progress' 0 1 in
    mkState progress' p (2 * p)
            (if Rlt_dec (1/100) p then true else false)
            (15/10 - (5/10 * p))
            (82/10 + (sin elapsedTime * (5/100) * p))
            (elapsedTime * (2/10))
            (pointLightIntensity s) (swarmOpacity s).

(** The linear, clamped motion the specification describes, without
    the snapping branch of [advance]. *)
Definition linearMove (treeState : TreeState) (delta : R) (p : R) : R :=
  let dir := if TreeState_eqb treeState FORMED then 1 else -1 in
  MathUtils.clamp (p + dir * delta * (1 / (15/10))) 0 1.

End Star.

(** ** Photo frame state machine (PhotoFrame.tsx) *)

Module PhotoFrame.

Definition FRAME_WIDTH : R := 12/10.

(** [PhotoData] (types.ts), with the frame height the gallery passes. *)
Record PhotoData : Type := mkPhotoData {
  id : string;
  position : Vector3;
  chaosPos : Vector3;
  frameHeight : R
}.

(** The props that the handlers and the frame callback read. *)
Record Props : Type := mkProps {
  data : PhotoData;
  treeState : TreeState;
  isFocused : bool;
  isClearing : bool
}.

(** The camera as the frame callback reads it; [front] is the point
    five units in front of the camera, in the parent's local frame. *)
Record Camera : Type := mkCamera { fov : R; aspect : R; front : Vector3 }.

(** [isFlipped] (React state), the refs, and the position and scale of
    the group.  The ref [currentRestingRot] is kept in [RestingRot]
    below; the orientation of the active pose and of the group are not
    part of this model. *)
Record State : Type := mkState {
  isFlipped : bool;
  progress : R;
  flipProgress : R;
  visibilityScale : R;
  currentRestingPos : Vector3;
  clickTimeoutRef : option nat;
  groupPosition : Vector3;
  groupScale : R
}.

Definition initial (d : PhotoData) : State :=
  mkState false 0 0 1 (chaosPos d) None (mkVector3 0 0 0) 1.

Definition setClickTimeoutRef (r : option nat) (s : State) : State :=
  mkState (isFlipped s) (progress s) (flipProgress s) (visibilityScale s)
          (currentRestingPos s) r (groupPosition s) (groupScale s).

Definition setIsFlipped (b : bool) (s : State) : State :=
  mkState b (progress s) (flipProgress s) (visibilityScale s)
          (currentRestingPos s) (clickTimeoutRef s)
          (groupPosition s) (groupScale s).

(** *** Browser timers *)

(** Pending timeouts: handle to deadline (ms); [nextHandle] is the next
    handle [setTimeout] returns. *)
Record Timers : Type := mkTimers {
  now : nat;
  pending : gmap nat nat;
  nextHandle : nat
}.

Definition noTimers : Timers := mkTimers 0 ∅ 1.

Definition setTimeout (delay : nat) (w : Timers) : nat * Timers :=
  (nextHandle w,
   mkTimers (now w) (<[nextHandle w := (now w + delay)%nat]> (pending w))
            (S (nextHandle w))).

Definition clearTimeout (h : nat) (w : Timers) : Timers :=
  mkTimers (now w) (delete h (pending w)) (nextHandle w).

(** *** Callbacks the component invokes *)

Inductive BlurSource : Type :=
| FromTimer (handle : nat)
| FromClearing
| FromPointerMissed.

Inductive Emit : Type :=
| OnFocus (photo : string)
| OnBlur (src : BlurSource).

(** *** Handlers *)

Definition handleDoubleClick (p : Props) (sw : State * Timers)
  : State * Timers * list Emit :=
  let '(s, w) := sw in
  let '(s1, w1) :=
    match clickTimeoutRef s with
    | Some h => (setClickTimeoutRef None s, clearTimeout h w)
    | None => (s, w)
    end in
  if isFocused p
  then (setIsFlipped (negb (isFlipped s1)) s1, w1, [])
  else (s1, w1, []).

Definition handleClick (p : Props) (sw : State * Timers)
  : State * Timers * list Emit :=
  let '(s, w) := sw in
  if isClearing p then (s, w, [])
  else if negb (isFocused p) then (s, w, [OnFocus (id (data p))])
  else
    match clickTimeoutRef s with
    | None =>
        let '(h, w') := setTimeout 250 w in
        (setClickTimeoutRef (Some h) s, w', [])
    | Some _ => (s, w, [])
    end.

(** [onPointerMissed] *)
Definition handlePointerMissed (p : Props) (sw : State * Timers)
  : State * Timers * list Emit :=
  let '(s, w) := sw in
  if isFocused p then (s, w, [OnBlur FromPointerMissed]) else (s, w, []).

(** The cleanup of the mount effect. *)
Definition unmount (sw : State * Timers) : State * Timers :=
  let '(s, w) := sw in
  match clickTimeoutRef s with
  | Some h => (s, clearTimeout h w)
  | None => (s, w)
  end.

(** Time passes by [ms]: every pending timeout whose deadline is
    reached runs its callback ([onBlur(); clickTimeoutRef.current = null])
    and leaves the table. *)
Definition elapse (ms : nat) (sw : State * Timers)
  : State * Timers * list Emit :=
  let '(s, w) := sw in
  let t := (now w + ms)%nat in
  let fired :=
    map_to_list (filter (fun kv : nat * nat => (kv.2 <= t)%nat) (pending w)) in
  let s' := match fired with
            | [] => s
            | _ :: _ => setClickTimeoutRef None s
            end in
  (s',
   mkTimers t (filter (fun kv : nat * nat => (t < kv.2)%nat) (pending w))
            (nextHandle w),
   map (fun kv : nat * nat => OnBlur (FromTimer kv.1)) fired).

(** *** The frame callback *)

Definition currentHeight (d : PhotoData) : R :=
  if Req_dec_T (frameHeight d) 0
  then FRAME_WIDTH * ((108/10) / (89/10))
  else frameHeight d.

Definition activeScale (d : PhotoData) (c : Camera) : R :=
  let dist := 5 in
  let vFov := MathUtils.degToRad (fov c) in
  let viewHeight := 2 * tan (vFov / 2) * dist in
  let viewWidth := viewHeight * aspect c in
  let objW := FRAME_WIDTH + 2/10 in
  let objH := currentHeight d + 2/10 in
  let SAFE_MARGIN := 85/100 in
  let scaleH := (viewHeight * SAFE_MARGIN) / objH in
  let scaleW := (viewWidth * SAFE_MARGIN) / objW in
  Rmin scaleH scaleW.

(** Step 1 of the frame callback: the destination of the resting
    position. *)
Definition destRestingPos (p : Props) : Vector3 :=
  if TreeState_eqb (treeState p) FORMED
  then position (data p) else chaosPos (data p).

Definition useFrame (attached : bool) (p : Props) (c : Camera) (delta : R)
    (s : State) : State * list Emit :=
  if negb attached then (s, [])
  else
    (* 0. clearing *)
    let vis := if isClearing p
               then MathUtils.lerp (visibilityScale s) 0 (delta * 3)
               else 1 in
    let out := if isClearing p && isFocused p
               then [OnBlur FromClearing] else [] in
    (* 1., 2. smoothing of the resting state towards its destination *)
    let moveSpeed := 25/10 in
    let resting := Vec.lerp (currentRestingPos s) (destRestingPos p)
                            (delta * moveSpeed) in
    (* 3. flip progress *)
    let targetFlip := if isFlipped s then 1 else 0 in
    let flip := MathUtils.lerp (flipProgress s) targetFlip (delta * 2) in
    (* 4. focus progress *)
    let zoomSpeed := 15/10 in
    let prog := if isFocused p
                then Rmin 1 (progress s + delta * zoomSpeed)
                else Rmax 0 (progress s - delta * zoomSpeed) in
    let flipped :=
      if negb (isFocused p) && MathUtils.isZero prog && isFlipped s
      then false else isFlipped s in
    let t := 1 - (1 - prog) ^ 3 in
    let finalScale := MathUtils.lerp 1 (activeScale (data p) c) t * vis in
    (mkState flipped prog flip vis resting (clickTimeoutRef s)
             (Vec.lerpVectors resting (front c) t) finalScale,
     out).

(** [n] frames at constant props, camera and [delta]. *)
Fixpoint frames (n : nat) (p : Props) (c : Camera) (delta : R) (s : State)
  : State :=
  match n with
  | O => s
  | S k => fst (useFrame true p c delta (frames k p c delta s))
  end.

(** *** Events delivered to a mounted frame *)

Inductive Event : Type :=
| EvClick (p : Props)
| EvDoubleClick (p : Props)
| EvPointerMissed (p : Props)
| EvFrame (attached : bool) (p : Props) (c : Camera) (delta : R)
| EvElapse (ms : nat).

Definition step (e : Event) (sw : State * Timers)
  : State * Timers * list Emit :=
  match e with
  | EvClick p => handleClick p sw
  | EvDoubleClick p => handleDoubleClick p sw
  | EvPointerMissed p => handlePointerMissed p sw
  | EvFrame a p c delta =>
      let '(s', out) := useFrame a p c delta (fst sw) in (s', snd sw, out)
  | EvElapse ms => elapse ms sw
  end.

(** A run of events, with everything emitted on the way. *)
Fixpoint run (es : list Event) (sw : State * Timers)
  : State * Timers * list Emit :=
  match es with
  | [] => (sw, [])
  | e :: rest =>
      let '(sw1, out1) := step e sw in
      let '(sw2, out2) := run rest sw1 in
      (sw2, out1 ++ out2)
  end.

End PhotoFrame.

(** ** The scene: one signal fanned out to the components ([Scene]) *)

Module Scene.

(** The signal and the components that carry a progress scalar. *)
Record State : Type := mkState {
  signal : TreeState;
  foliage : Foliage.State;
  star : Star.State;
  photo : PhotoFrame.State * PhotoFrame.Timers
}.

Definition initial (d : PhotoFrame.PhotoData) : State :=
  mkState CHAOS Foliage.initial Star.initial
          (PhotoFrame.initial d, PhotoFrame.noTimers).

(** What a rendered frame supplies besides the signal. *)
Record Tick : Type := mkTick {
  elapsedTime : R;
  delta : R;
  shaderAttached : bool;
  starAttached : bool;
  groupAttached : bool;
  data : PhotoFrame.PhotoData;
  focused : bool;
  clearing : bool;
  camera : PhotoFrame.Camera
}.

Inductive Event : Type :=
| Toggle
| Frame (t : Tick)
| DoubleClick (d : PhotoFrame.PhotoData) (focused clearing : bool).

Definition step (e : Event) (s : State) : State :=
  match e with
  | Toggle =>
      mkState (toggleTree (signal s)) (foliage s) (Star.render (star s))
              (photo s)
  | Frame t =>
      let props := PhotoFrame.mkProps (data t) (signal s) (focused t)
                                      (clearing t) in
      mkState (signal s)
              (Foliage.useFrame (shaderAttached t) (signal s) (elapsedTime t)
                                (delta t) (foliage s))
              (Star.useFrame (starAttached t) (signal s) (elapsedTime t)
                             (delta t) (star s))
              (fst (PhotoFrame.useFrame (groupAttached t) props (camera t)
                                        (delta t) (fst (photo s))),
               snd (photo s))
  | DoubleClick d f c =>
      let props := PhotoFrame.mkProps d (signal s) f c in
      mkState (signal s) (foliage s) (star s)
              (fst (PhotoFrame.handleDoubleClick props (photo s)))
  end.

Definition run (es : list Event) (s : State) : State :=
  fold_left (fun st e => step e st) es s.

Definition unit_interval (x : R) : Prop := 0 <= x <= 1.

(** The scalars that move by [lerp]. *)
Definition damped_bounded (s : State) : Prop :=
  unit_interval (Foliage.progressRef (foliage s)) /\
  unit_interval (PhotoFrame.flipProgress (fst (photo s))) /\
  unit_interval (PhotoFrame.visibilityScale (fst (photo s))).

(** The scalars that move at a constant rate and are clamped. *)
Definition clamped_bounded (s : State) : Prop :=
  unit_interval (Star.progress (star s)) /\
  unit_interval (PhotoFrame.progress (fst (photo s))).

Definition bounded (s : State) : Prop :=
  damped_bounded s /\ clamped_bounded s.

(** The frame deltas of a run all satisfy [P]. *)
Definition deltas (P : R -> Prop) (es : list Event) : Prop :=
  Forall (fun e => match e with Frame t => P (delta t) | _ => True end) es.

End Scene.

(** ** Damped approach of a scalar to a target *)

Module Damping.

(** The sequence [x] of successive values of a scalar approaches
    [target]: its distance to the target never grows, it moves
    monotonically on the side of the target where it started (so it
    never passes the target), and from some tick on it stays within
    [1e-3] of the target. *)
Definition approaches (x : nat -> R) (target : R) : Prop :=
  (forall n, Rabs (x (S n) - target) <= Rabs (x n - target)) /\
  (forall n, (x O <= target -> x n <= x (S n) <= target) /\
             (target <= x O -> target <= x (S n) <= x n)) /\
  (exists N : nat, forall n, (N <= n)%nat -> Rabs (x n - target) < 1/1000).

(** The target of a scalar that follows a boolean. *)
Definition target01 (b : bool) : R := if b then 1 else 0.

End Damping.

(** ** Runs of a photo frame from its mount *)

Module Gestures.

Import PhotoFrame.

(** The ref tracks the browser's table: the frame has a pending timeout
    exactly when [clickTimeoutRef] holds its handle, and then it has no
    other; the deadline is still ahead and the handle has been issued. *)
Definition tracked (sw : State * Timers) : Prop :=
  match clickTimeoutRef (fst sw) with
  | None => pending (snd sw) = ∅
  | Some h =>
      exists d : nat,
        pending (snd sw) = {[ h := d ]} /\
        (now (snd sw) < d)%nat /\ (h < nextHandle (snd sw))%nat
  end.

(** The state a frame mounted for [d] is in after the events [es]. *)
Definition after (d : PhotoData) (es : list Event) : State * Timers :=
  fst (run es (initial d, noTimers)).

(** Time passing in several stretches, with no event in between. *)
Definition waiting (waits : list nat) : list Event := map EvElapse waits.

(** The handle [h] is spent: it has been issued and is not pending. *)
Definition spent (h : nat) (sw : State * Timers) : Prop :=
  pending (snd sw) !! h = None /\ (h < nextHandle (snd sw))%nat.

End Gestures.

(** ** Emissions of a run *)

Module Emissions.

Import PhotoFrame.

(** No blur in [out] comes from the timeout of handle [h]. *)
Definition never_from (h : nat) (out : list Emit) : Prop :=
  Forall (fun e => e <> OnBlur (FromTimer h)) out.

End Emissions.

(** ** Bounds of the swarm *)

Module SwarmBounds.

Import Swarm.

(** Every coordinate of [pos] is within the particle's radius. *)
Definition within (p : Param) (pos : Vector3) : Prop :=
  Rabs (vx pos) <= radius p /\ Rabs (vy pos) <= radius p /\
  Rabs (vz pos) <= radius p.

Definition radius_in_range (p : Param) : Prop := 8/10 <= radius p < 25/10.

End SwarmBounds.

(** ** More of [Math]: cube root and power *)

Module MathJs.

(** [Math.cbrt]: the real cube root. *)
Definition cbrt (x : R) : R :=
  if Req_dec_T x 0 then 0
  else if Rlt_dec 0 x then Rpower x (1/3)
  else - Rpower (- x) (1/3).

(** [Math.pow(x, y)] for a base [x >= 0] and an exponent [y > 0], the
    only way the code calls it ([Math.pow(Math.random(), 0.8)] and
    [Math.pow(Math.random(), 1.8)]). *)
Definition pow (x y : R) : R :=
  if Req_dec_T x 0 then 0 else Rpower x y.

End MathJs.

(** ** Points inside a sphere (utils.ts, [getRandomSpherePoint]) *)

Module Sphere.

(** [getRandomSpherePoint(radius)] with its three draws in call order. *)
Definition getRandomSpherePoint (radius u v w : R) : Vector3 :=
  let theta := 2 * PI * u in
  let phi := acos (2 * v - 1) in
  let r := MathJs.cbrt w * radius in
  let sinPhi := sin phi in
  mkVector3 (r * sinPhi * cos theta)
            (r * sinPhi * sin theta)
            (r * cos phi).

(** [Vector3.length()] *)
Definition length (p : Vector3) : R :=
  sqrt (vx p * vx p + vy p * vy p + vz p * vz p).

End Sphere.

(** ** Gallery coordinator (PhotoGallery.tsx) *)

Module Gallery.

Import PhotoFrame.

(** [PhotoItem]: what the application hands over for each photo. *)
Record PhotoItem : Type := mkPhotoItem { url : string; height : R }.

(** The template [`photo-${index}`]. *)
Definition photoId (index : nat) : string := "photo-" +:+ pretty index.

(** One element of [photoObjects]; [draw] holds the three draws of its
    call of [getRandomSpherePoint(18)]. *)
Definition photoObject (total : nat) (draw : R * R * R) (index : nat)
    (item : PhotoItem) : PhotoData :=
  let sp := Utils.getSpiralPoint (INR index) (INR total) 12 (55/10) in
  let '(u, v, w) := draw in
  mkPhotoData (photoId index) (Utils.position sp)
              (Sphere.getRandomSpherePoint 18 u v w) (height item).

(** [photoObjects]: the [useMemo] over [photos]; [draws i] are the draws
    made for index [i]. *)
Definition photoObjects (photos : list PhotoItem) (draws : nat -> R * R * R)
  : list PhotoData :=
  imap (fun index item => photoObject (length photos) (draws index) index item)
       photos.

(** [isFocused={focusedId === data.id}] *)
Definition isFocusedProp (focusedId : option string) (d : PhotoData) : bool :=
  bool_decide (focusedId = Some (id d)).

(** [onFocus={setFocusedId}] and [onBlur={() => setFocusedId(null)}]
    applied to what a frame emitted. *)
Definition receive (focusedId : option string) (e : Emit) : option string :=
  match e with
  | OnFocus photo => Some photo
  | OnBlur _ => None
  end.

Definition receiveAll (focusedId : option string) (out : list Emit)
  : option string :=
  fold_left receive out focusedId.

(** [!!focusedId], the argument of [onFocusChange]: an empty string is
    falsy. *)
Definition somethingFocused (focusedId : option string) : bool :=
  match focusedId with
  | Some s => negb (String.eqb s "")
  | None => false
  end.

(** The props the gallery passes to the frame of [d]. *)
Definition propsFor (ts : TreeState) (clearing : bool)
    (focusedId : option string) (d : PhotoData) : Props :=
  mkProps d ts (isFocusedProp focusedId d) clearing.

(** A mounted frame: its data, whether its group ref is attached, and
    its state. *)
Record Mounted : Type := mkMounted {
  mData : PhotoData;
  mAttached : bool;
  mState : State
}.

Record State : Type := mkState {
  focusedId : option string;
  frames : list Mounted
}.

(** One rendered frame: every photo frame runs its callback with the
    props of the last render, then the gallery takes the emitted
    callbacks in order. *)
Definition tick (ts : TreeState) (clearing : bool) (c : Camera) (delta : R)
    (g : State) : State :=
  let results :=
    map (fun m => useFrame (mAttached m)
                           (propsFor ts clearing (focusedId g) (mData m))
                           c delta (mState m))
        (frames g) in
  mkState (receiveAll (focusedId g) (concat (map snd results)))
          (zip_with (fun m r => mkMounted (mData m) (mAttached m) (fst r))
                    (frames g) results).

(** A click on the frame of [d], as the gallery sees it. *)
Definition click (ts : TreeState) (clearing : bool) (d : PhotoData)
    (sw : PhotoFrame.State * Timers) (focusedId : option string)
  : option string :=
  receiveAll focusedId (snd (handleClick (propsFor ts clearing focusedId d) sw)).

End Gallery.

(** ** Generation of the foliage field (Foliage.tsx, [useMemo]) *)

Module FoliageField.

Definition TREE_HEIGHT : R := 14.
Definition TREE_RADIUS : R := 5.

(** [color1] deep emerald, [color2] leaf green, [color3] gold flecks. *)
Inductive Color : Type := color1 | color2 | color3.

(** The draws of one iteration of the generating loop, in call order:
    the height bias, the two draws of [getTreePoint], the three draws of
    [getRandomSpherePoint], the colour choice. *)
Record Draws : Type := mkDraws {
  uBias : R; uTheta : R; uNoise : R;
  uU : R; uV : R; uW : R;
  uChoice : R
}.

Record Vertex : Type := mkVertex {
  targetPos : Vector3;
  chaosPos : Vector3;
  color : Color
}.

(** One iteration of the generating loop. *)
Definition generate (d : Draws) : Vertex :=
  let tPos := Utils.getTreePoint TREE_HEIGHT TREE_RADIUS
                (MathJs.pow (uBias d) (8/10)) (uTheta d) (uNoise d) in
  let cPos := Sphere.getRandomSpherePoint 15 (uU d) (uV d) (uW d) in
  let choice := uChoice d in
  let c := if Rlt_dec (92/100) choice then color3
           else if Rlt_dec (4/10) choice then color2 else color1 in
  mkVertex tPos cPos c.

Definition unit_draws (d : Draws) : Prop :=
  MathUtils.unit_draw (uBias d) /\ MathUtils.unit_draw (uNoise d) /\
  MathUtils.unit_draw (uV d) /\ MathUtils.unit_draw (uW d).

End FoliageField.

(** ** Generation of an ornament from raw draws (Ornaments.tsx, [useMemo]) *)

Module OrnamentField.

(** The raw draws of one iteration, in call order: the three draws of
    [getRandomSpherePoint(20)], the height bias, the two draws of
    [getTreePoint], the speed and the three rotation draws. *)
Record RawDraws : Type := mkRawDraws {
  rU : R; rV : R; rW : R;
  rBias : R; rTheta : R; rNoise : R;
  rSpeed : R; rRotX : R; rRotY : R; rRotZ : R
}.

Definition draws (r : RawDraws) : Ornaments.Draws :=
  Ornaments.mkDraws
    (Sphere.getRandomSpherePoint 20 (rU r) (rV r) (rW r))
    (MathJs.pow (rBias r) (18/10))
    (rTheta r) (rNoise r) (rSpeed r) (rRotX r) (rRotY r) (rRotZ r).

Definition generate (type : Ornaments.OrnamentType) (r : RawDraws)
  : Ornaments.Instance :=
  Ornaments.generate type (draws r).

(** The offset that pushes an ornament out of the foliage. *)
Definition offset (type : Ornaments.OrnamentType) : R :=
  match type with
  | Ornaments.box => 5/10
  | Ornaments.ball => 3/10
  | Ornaments.light => 6/10
  end.

Definition unit_draws (r : RawDraws) : Prop :=
  MathUtils.unit_draw (rV r) /\ MathUtils.unit_draw (rW r) /\
  MathUtils.unit_draw (rBias r) /\ MathUtils.unit_draw (rNoise r) /\
  MathUtils.unit_draw (rSpeed r).

End OrnamentField.

(** ** Runs of an ornament batch *)

Module OrnamentRuns.

Import Ornaments.

(** A rendered frame as the batch's callback receives it. *)
Record Frame : Type := mkFrame {
  fAttached : bool;
  fTree : TreeState;
  fTime : R;
  fDelta : R
}.

Definition run (type : OrnamentType) (fs : list Frame) (s : State) : State :=
  fold_left (fun st f => useFrame (fAttached f) type (fTree f) (fTime f)
                                  (fDelta f) st)
            fs s.

(** The batch right after its generation: no instance matrix written yet. *)
Definition mounted (type : OrnamentType) (ds : list Draws) : State :=
  mkState (map (generate type) ds) []
          (mkObject3D (mkVector3 0 0 0) (mkEuler 0 0 0) (setScalar 1)).

(** The current position lies on the segment from the chaos point to
    the tree target. *)
Definition onSegment (inst : Instance) : Prop :=
  exists k : R,
    0 <= k <= 1 /\
    currentPositions inst = Vec.lerp (chaosData inst) (targetData inst) k.

(** [n] frames at a constant signal and a constant [delta]. *)
Fixpoint frames (n : nat) (type : OrnamentType) (ts : TreeState) (delta : R)
    (s : State) : State :=
  match n with
  | O => s
  | S k => useFrame true type ts 0 delta (frames k type ts delta s)
  end.

(** [inst'] is [inst] some frames later: the generated data is the
    same and the current position is on the segment. *)
Definition follows (inst inst' : Instance) : Prop :=
  chaosData inst' = chaosData inst /\ targetData inst' = targetData inst /\
  speeds inst' = speeds inst /\
  initialRotations inst' = initialRotations inst /\
  onSegment inst'.

(** An instance with a generated speed, on its segment. *)
Definition slow (inst : Instance) : Prop :=
  (1 <= speeds inst < 3) /\ onSegment inst.

(** The current position of instance [i], [inst] standing in when the
    batch has no such index. *)
Definition currentOf (i : nat) (inst : Instance) (s : State) : Vector3 :=
  currentPositions (nth i (instances s) inst).

End OrnamentRuns.

(** ** Runs of the star *)

Module StarRuns.

(** A rendered frame: elapsed time and delta. *)
Record Frame : Type := mkFrame { fTime : R; fDelta : R }.

(** Frames at a constant signal, the group ref attached. *)
Definition run (ts : TreeState) (fs : list Frame) (s : Star.State)
  : Star.State :=
  fold_left (fun st f => Star.useFrame true ts (fTime f) (fDelta f) st) fs s.

(** The time the frames take together. *)
Definition duration (fs : list Frame) : R :=
  fold_right (fun f acc => fDelta f + acc) 0 fs.

(** The distance of the progress to the target of the signal. *)
Definition gap (ts : TreeState) (s : Star.State) : R :=
  Rabs (Damping.target01 (TreeState_eqb ts FORMED) - Star.progress s).

End StarRuns.

(** ** Runs of a photo frame at constant props *)

Module PhotoRuns.

Import PhotoFrame.

(** A rendered frame: the camera of that frame and the delta. *)
Record Frame : Type := mkFrame { fCamera : Camera; fDelta : R }.

Definition run (p : Props) (fs : list Frame) (s : State) : State :=
  fold_left (fun st f => fst (useFrame true p (fCamera f) (fDelta f) st)) fs s.

Definition duration (fs : list Frame) : R :=
  fold_right (fun f acc => fDelta f + acc) 0 fs.

(** The view at the distance of the focused frame, as [activeScale]
    computes it. *)
Definition viewHeight (c : Camera) : R :=
  2 * tan (MathUtils.degToRad (fov c) / 2) * 5.

Definition viewWidth (c : Camera) : R := viewHeight c * aspect c.

(** The target of the focus progress. *)
Definition focusTarget (p : Props) : R := Damping.target01 (isFocused p).

(** The resting position lies on the segment from the chaos point to
    the spiral position of the photo. *)
Definition restsOnSegment (d : PhotoData) (s : State) : Prop :=
  exists k : R,
    0 <= k <= 1 /\
    currentRestingPos s = Vec.lerp (chaosPos d) (position d) k.

(** Events that are no input: frames and the passing of time. *)
Definition quiet (e : Event) : bool :=
  match e with
  | EvFrame _ _ _ _ | EvElapse _ => true
  | _ => false
  end.

(** The time that passes during a run. *)
Definition elapsed (es : list Event) : nat :=
  fold_right (fun e acc => match e with EvElapse ms => ms + acc | _ => acc end)%nat
             0%nat es.

(** The blurs of [out] that come from the timeout of handle [h], by
    position. *)
Definition isTimerBlur (h : nat) (e : Emit) : bool :=
  match e with
  | OnBlur (FromTimer h') => Nat.eqb h h'
  | _ => false
  end.

Definition timerBlurs (h : nat) (out : list Emit) : nat :=
  length (List.filter (isTimerBlur h) out).

End PhotoRuns.

(** ** Cover fit of a texture (PhotoFrame.tsx, [useCoverTexture]) *)

Module CoverTexture.

(** The arguments of [texture.repeat.set] for an image of [imgW] by
    [imgH] on a frame of [frameW] by [frameH]. *)
Definition repeat (imgW imgH frameW frameH : R) : R * R :=
  let imageAspect := imgW / imgH in
  let frameAspect := frameW / frameH in
  if Rlt_dec frameAspect imageAspect
  then (frameAspect / imageAspect, 1)
  else (1, imageAspect / frameAspect).

End CoverTexture.

(** ** Conditions on the events of a photo frame *)

Module PhotoEvents.

Import PhotoFrame.

(** Every frame event is for the photo [d] and has a delta in [0, 0.4]. *)
Definition steadyFrames (d : PhotoData) (es : list Event) : Prop :=
  Forall (fun e => match e with
                   | EvFrame _ p _ delta => data p = d /\ 0 <= delta <= 2/5
                   | _ => True
                   end) es.

(** Every pending timeout is due within 250ms. *)
Definition dueSoon (w : Timers) : Prop :=
  forall h dl, pending w !! h = Some dl -> (dl <= now w + 250)%nat.

End PhotoEvents.

(** ** Text of the back photo (utils.ts, [createBackPhotoUri]) *)

Module BackPhoto.

(** A character of [Array.from(paragraph)] is its code point.  The
    widths are rational and are added exactly. *)
Definition FONT_SIZE : Q := 64.
Definition WIDTH : Q := 1024.
Definition PADDING : Q := 80.
Definition MAX_LINE_WIDTH : Q := WIDTH - (PADDING * 2).

Definition newline : nat := 10.
Definition space : nat := 32.

(** [char.match(/[^\x00-\xff]/)] *)
Definition isWide (c : nat) : bool := (255 <? c)%nat.

Definition charWidth (c : nat) : Q :=
  if isWide c then FONT_SIZE else FONT_SIZE * (55 # 100).

Definition spaceWidth : Q := FONT_SIZE * (3 # 10).

(** The variables of the wrapping loop. *)
Record Wrap : Type := mkWrap {
  lines : list (list nat);
  currentLine : list nat;
  currentWidth : Q;
  wordBuffer : list nat;
  wordWidth : Q
}.

Definition isEmpty (l : list nat) : bool :=
  match l with [] => true | _ :: _ => false end.

(** [a > MAX_LINE_WIDTH] *)
Definition overflows (a : Q) : bool := negb (Qle_bool a MAX_LINE_WIDTH).

Definition flushWord (st : Wrap) : Wrap :=
  if isEmpty (wordBuffer st) then st
  else if overflows (currentWidth st + wordWidth st)
       then if negb (isEmpty (currentLine st))
            then mkWrap (lines st ++ [currentLine st])
                        (wordBuffer st) (wordWidth st) [] 0
            else mkWrap (lines st) (wordBuffer st) (wordWidth st) [] 0
       else mkWrap (lines st) (currentLine st ++ wordBuffer st)
                   (currentWidth st + wordWidth st) [] 0.

(** The body of the loop over [chars]. *)
Definition stepChar (st : Wrap) (c : nat) : Wrap :=
  if isWide c then
    let st1 := flushWord st in
    if overflows (currentWidth st1 + charWidth c)
    then mkWrap (if negb (isEmpty (currentLine st1))
                 then lines st1 ++ [currentLine st1] else lines st1)
                [c] (charWidth c) (wordBuffer st1) (wordWidth st1)
    else mkWrap (lines st1) (currentLine st1 ++ [c])
                (currentWidth st1 + charWidth c)
                (wordBuffer st1) (wordWidth st1)
  else if (c =? space)%nat then
    let st1 := flushWord st in
    if Qle_bool (currentWidth st1 + spaceWidth) MAX_LINE_WIDTH
    then mkWrap (lines st1) (currentLine st1 ++ [c])
                (currentWidth st1 + spaceWidth)
                (wordBuffer st1) (wordWidth st1)
    else st1
  else mkWrap (lines st) (currentLine st) (currentWidth st)
              (wordBuffer st ++ [c]) (wordWidth st + charWidth c).

(** One call of the [forEach] callback: [ls] is [lines] before it. *)
Definition wrapParagraph (ls : list (list nat)) (paragraph : list nat)
  : list (list nat) :=
  let st := fold_left stepChar paragraph (mkWrap ls [] 0 [] 0) in
  let st := flushWord st in
  if negb (isEmpty (currentLine st))
  then lines st ++ [currentLine st] else lines st.

(** [rawText.split('\n')] *)
Fixpoint split (text : list nat) : list (list nat) :=
  match text with
  | [] => [[]]
  | c :: rest =>
      if (c =? newline)%nat then [] :: split rest
      else match split rest with
           | p :: ps => (c :: p) :: ps
           | [] => [[c]]
           end
  end.

Definition codes (s : string) : list nat :=
  map Ascii.nat_of_ascii (String.list_ascii_of_string s).

(** ["Wish you\nwere here."] *)
Definition defaultText : list nat :=
  codes "Wish you" ++ [newline] ++ codes "were here.".

(** The array [lines] of [createBackPhotoUri(text, _)]. *)
Definition wrapText (text : list nat) : list (list nat) :=
  let rawText := if isEmpty text then defaultText else text in
  fold_left wrapParagraph (split rawText) [].

(** [s.replace(/c/g, by)] *)
Definition replaceAll (c : nat) (by_ : list nat) (s : list nat) : list nat :=
  flat_map (fun x => if (x =? c)%nat then by_ else [x]) s.

(** [safeLine] *)
Definition escapeLine (line : list nat) : list nat :=
  replaceAll 62 (codes "&gt;")
    (replaceAll 60 (codes "&lt;")
       (replaceAll 38 (codes "&amp;") line)).

(** The width the loop accounts for a character of a line. *)
Definition widthOf (c : nat) : Q :=
  if isWide c then FONT_SIZE
  else if (c =? space)%nat then spaceWidth
  else FONT_SIZE * (55 # 100).

Definition lineWidth (line : list nat) : Q :=
  fold_right (fun c acc => widthOf c + acc)%Q 0%Q line.

(** A run of narrow characters without a space: the loop cannot break
    it. *)
Definition isWord (line : list nat) : Prop :=
  Forall (fun c => isWide c = false /\ c <> space) line.

Definition notSpace (c : nat) : bool := negb (c =? space)%nat.

End BackPhoto.

(** ** Invariants of the wrapping loop *)

Module BackPhotoInv.

Import BackPhoto.

(** A line fits, or is a word that cannot be broken. *)
Definition fits (line : list nat) : Prop :=
  (lineWidth line <= MAX_LINE_WIDTH)%Q \/ isWord line.

(** What every emitted line satisfies. *)
Definition good (line : list nat) : Prop := line <> [] /\ fits line.

(** The widths the loop keeps are the widths of what it holds. *)
Definition accounted (st : Wrap) : Prop :=
  Forall good (lines st) /\
  (currentWidth st == lineWidth (currentLine st))%Q /\
  fits (currentLine st) /\
  (wordWidth st == lineWidth (wordBuffer st))%Q /\
  isWord (wordBuffer st).

(** Everything the loop holds, in order. *)
Definition content (st : Wrap) : list nat :=
  concat (lines st) ++ currentLine st ++ wordBuffer st.

(** One pass that escapes the three characters. *)
Definition escapeChar (c : nat) : list nat :=
  if (c =? 38)%nat then codes "&amp;"
  else if (c =? 60)%nat then codes "&lt;"
  else if (c =? 62)%nat then codes "&gt;"
  else [c].

End BackPhotoInv.

(** ** A paragraph that fits on one line *)

Module BackPhotoOneLine.

Import BackPhoto.

(** The loop has consumed [q] without breaking a line: it still holds
    the lines [ls] it started with, and [q] as current line and word. *)
Definition unbroken (ls : list (list nat)) (q : list nat) (st : Wrap) : Prop :=
  lines st = ls /\
  currentLine st ++ wordBuffer st = q /\
  (currentWidth st == lineWidth (currentLine st))%Q /\
  (wordWidth st == lineWidth (wordBuffer st))%Q.

End BackPhotoOneLine.

(** ** [THREE.Quaternion], [Matrix4.lookAt] and the resting orientation

    three.js is a dependency of the repository, not part of it; its
    functions are modelled after the library's own definitions.  Two
    definitions of [Quaternion.slerp] have been published: the older one
    (the formula of euclideanspace.com, guarded by [Number.EPSILON]) and
    the one of the later releases (guarded by [0.9995]).  Both are
    modelled, and what is proved about the resting orientation is proved
    for each. *)

Record Quaternion : Type := mkQuaternion { qx : R; qy : R; qz : R; qw : R }.

Inductive Release : Type := Legacy | Current.

Module JsNumber.

(** [Number.EPSILON] *)
Definition EPSILON : R := / 2 ^ 52.

(** [a > b] as a boolean. *)
Definition gt (a b : R) : bool := if Rlt_dec b a then true else false.

(** [Math.atan2(y, x)] *)
Definition atan2 (y x : R) : R :=
  if Rlt_dec 0 x then atan (y / x)
  else if Rlt_dec x 0
       then (if Rle_dec 0 y then atan (y / x) + PI else atan (y / x) - PI)
       else if Rlt_dec 0 y then PI / 2
            else if Rlt_dec y 0 then - (PI / 2) else 0.

End JsNumber.

Module Quat.

Definition dot (a b : Quaternion) : R :=
  qx a * qx b + qy a * qy b + qz a * qz b + qw a * qw b.

Definition lengthSq (q : Quaternion) : R :=
  qx q * qx q + qy q * qy q + qz q * qz q + qw q * qw q.

Definition length (q : Quaternion) : R := sqrt (lengthSq q).

(** [normalize]: the identity rotation for a zero quaternion, else the
    components times [1 / length]. *)
Definition normalize (q : Quaternion) : Quaternion :=
  let l := length q in
  if Req_dec_T l 0 then mkQuaternion 0 0 0 1
  else mkQuaternion (qx q * (1 / l)) (qy q * (1 / l))
                    (qz q * (1 / l)) (qw q * (1 / l)).

(** [setFromEuler] for the order XYZ, the default of [THREE.Euler]. *)
Definition setFromEuler (e : Euler) : Quaternion :=
  let c1 := cos (ex e / 2) in
  let c2 := cos (ey e / 2) in
  let c3 := cos (ez e / 2) in
  let s1 := sin (ex e / 2) in
  let s2 := sin (ey e / 2) in
  let s3 := sin (ez e / 2) in
  mkQuaternion (s1 * c2 * c3 + c1 * s2 * s3)
               (c1 * s2 * c3 - s1 * c2 * s3)
               (c1 * c2 * s3 + s1 * s2 * c3)
               (c1 * c2 * c3 - s1 * s2 * s3).

Definition setFromAxisAngle (axis : Vector3) (angle : R) : Quaternion :=
  let halfAngle := angle / 2 in
  let s := sin halfAngle in
  mkQuaternion (vx axis * s) (vy axis * s) (vz axis * s) (cos halfAngle).

(** [a.multiply(b)] *)
Definition multiply (a b : Quaternion) : Quaternion :=
  mkQuaternion
    (qx a * qw b + qw a * qx b + qy a * qz b - qz a * qy b)
    (qy a * qw b + qw a * qy b + qz a * qx b - qx a * qz b)
    (qz a * qw b + qw a * qz b + qx a * qy b - qy a * qx b)
    (qw a * qw b - qx a * qx b - qy a * qy b - qz a * qz b).

Definition negate (q : Quaternion) : Quaternion :=
  mkQuaternion (- qx q) (- qy q) (- qz q) (- qw q).

(** The four assignments that end every branch of [slerp]: component
    [c] becomes [a.c * s + b.c * t]. *)
Definition combine (s : R) (a : Quaternion) (t : R) (b : Quaternion)
  : Quaternion :=
  mkQuaternion (qx a * s + qx b * t) (qy a * s + qy b * t)
               (qz a * s + qz b * t) (qw a * s + qw b * t).

(** [this.slerp(qb, t)] of the older releases. *)
Definition slerpLegacy (this qb : Quaternion) (t : R) : Quaternion :=
  if Req_dec_T t 0 then this
  else if Req_dec_T t 1 then qb
  else
    let d := dot this qb in
    let other := if Rlt_dec d 0 then negate qb else qb in
    let cosHalfTheta := if Rlt_dec d 0 then - d else d in
    if Rle_dec 1 cosHalfTheta then this
    else
      let sqrSinHalfTheta := 1 - cosHalfTheta * cosHalfTheta in
      if Rle_dec sqrSinHalfTheta JsNumber.EPSILON
      then normalize (combine (1 - t) this t other)
      else
        let sinHalfTheta := sqrt sqrSinHalfTheta in
        let halfTheta := JsNumber.atan2 sinHalfTheta cosHalfTheta in
        let ratioA := sin ((1 - t) * halfTheta) / sinHalfTheta in
        let ratioB := sin (t * halfTheta) / sinHalfTheta in
        combine ratioA this ratioB other.

(** [this.slerp(qb, t)] of the later releases. *)
Definition slerpCurrent (this qb : Quaternion) (t : R) : Quaternion :=
  if Rle_dec t 0 then this
  else if Rle_dec 1 t then qb
  else
    let d := dot this qb in
    let other := if Rlt_dec d 0 then negate qb else qb in
    let dot' := if Rlt_dec d 0 then - d else d in
    let s := 1 - t in
    if Rlt_dec dot' (9995/10000)
    then
      let theta := acos dot' in
      let sin' := sin theta in
      combine (sin (s * theta) / sin') this (sin (t * theta) / sin') other
    else normalize (combine s this t other).

Definition slerp (rel : Release) (this qb : Quaternion) (t : R)
  : Quaternion :=
  match rel with
  | Legacy => slerpLegacy this qb t
  | Current => slerpCurrent this qb t
  end.

End Quat.

Module Vec3.

Definition subVectors (a b : Vector3) : Vector3 :=
  mkVector3 (vx a - vx b) (vy a - vy b) (vz a - vz b).

Definition crossVectors (a b : Vector3) : Vector3 :=
  mkVector3 (vy a * vz b - vz a * vy b)
            (vz a * vx b - vx a * vz b)
            (vx a * vy b - vy a * vx b).

Definition lengthSq (v : Vector3) : R :=
  vx v * vx v + vy v * vy v + vz v * vz v.

End Vec3.

(** The rotation part (upper 3x3) of a [THREE.Matrix4]; [mij] is row
    [i], column [j]. *)
Record Matrix4 : Type := mkMatrix4 {
  m11 : R; m12 : R; m13 : R;
  m21 : R; m22 : R; m23 : R;
  m31 : R; m32 : R; m33 : R
}.

Module Mat4.

(** [Matrix4.lookAt(eye, target, up)]: the columns are the axes x, y, z. *)
Definition lookAt (eye target up : Vector3) : Matrix4 :=
  let z0 := Vec3.subVectors eye target in
  let z1 := if Req_dec_T (Vec3.lengthSq z0) 0
            then mkVector3 (vx z0) (vy z0) 1 else z0 in
  let z2 := Ornaments.normalize z1 in
  let x0 := Vec3.crossVectors up z2 in
  let z3 := if Req_dec_T (Vec3.lengthSq x0) 0
            then Ornaments.normalize
                   (if Req_dec_T (Rabs (vz up)) 1
                    then mkVector3 (vx z2 + 1/10000) (vy z2) (vz z2)
                    else mkVector3 (vx z2) (vy z2) (vz z2 + 1/10000))
            else z2 in
  let x1 := if Req_dec_T (Vec3.lengthSq x0) 0
            then Vec3.crossVectors up z3 else x0 in
  let x := Ornaments.normalize x1 in
  let y := Vec3.crossVectors z3 x in
  mkMatrix4 (vx x) (vx y) (vx z3)
            (vy x) (vy y) (vy z3)
            (vz x) (vz y) (vz z3).

(** [Quaternion.setFromRotationMatrix(m)] *)
Definition setFromRotationMatrix (m : Matrix4) : Quaternion :=
  let trace := m11 m + m22 m + m33 m in
  if Rlt_dec 0 trace then
    let s := (1/2) / sqrt (trace + 1) in
    mkQuaternion ((m32 m - m23 m) * s) ((m13 m - m31 m) * s)
                 ((m21 m - m12 m) * s) ((1/4) / s)
  else if JsNumber.gt (m11 m) (m22 m) && JsNumber.gt (m11 m) (m33 m) then
    let s := 2 * sqrt (1 + m11 m - m22 m - m33 m) in
    mkQuaternion ((1/4) * s) ((m12 m + m21 m) / s)
                 ((m13 m + m31 m) / s) ((m32 m - m23 m) / s)
  else if JsNumber.gt (m22 m) (m33 m) then
    let s := 2 * sqrt (1 + m22 m - m11 m - m33 m) in
    mkQuaternion ((m12 m + m21 m) / s) ((1/4) * s)
                 ((m23 m + m32 m) / s) ((m13 m - m31 m) / s)
  else
    let s := 2 * sqrt (1 + m33 m - m11 m - m22 m) in
    mkQuaternion ((m13 m + m31 m) / s) ((m23 m + m32 m) / s)
                 ((1/4) * s) ((m21 m - m12 m) / s).

End Mat4.

(** *** The resting orientation of a photo frame

    [currentRestingRot] is a ref of its own: it is initialised from the
    chaos point, the frame callback turns it towards [destRestingRot]
    (which depends on the props only), and nothing else writes it.  It
    is kept beside [PhotoFrame.State]. *)

Module RestingRot.

(** [Object3D.DEFAULT_UP] *)
Definition up : Vector3 := mkVector3 0 1 0.

(** [obj.lookAt(target)] for an object at [position] that has no parent
    and is neither a camera nor a light: the matrix looks from the
    target to the position. *)
Definition lookAt (position target : Vector3) : Quaternion :=
  Mat4.setFromRotationMatrix (Mat4.lookAt target position up).

(** [obj.rotateY(angle)] *)
Definition rotateY (q : Quaternion) (angle : R) : Quaternion :=
  Quat.multiply q (Quat.setFromAxisAngle (mkVector3 0 1 0) angle).

Definition eulerOf (v : Vector3) : Euler := mkEuler (vx v) (vy v) (vz v).

(** The initial value of the ref. *)
Definition initial (d : PhotoFrame.PhotoData) : Quaternion :=
  Quat.setFromEuler (eulerOf (PhotoFrame.chaosPos d)).

(** Step 1 of the frame callback: the destination of the resting
    orientation. *)
Definition destRestingRot (p : PhotoFrame.Props) : Quaternion :=
  if TreeState_eqb (PhotoFrame.treeState p) FORMED
  then
    let pos := PhotoFrame.position (PhotoFrame.data p) in
    let lookAtPos := mkVector3 0 (vy pos) 0 in
    rotateY (lookAt pos lookAtPos) PI
  else Quat.setFromEuler (eulerOf (PhotoFrame.chaosPos (PhotoFrame.data p))).

(** Step 2 of the frame callback, for the orientation. *)
Definition useFrame (rel : Release) (attached : bool) (p : PhotoFrame.Props)
    (delta : R) (currentRestingRot : Quaternion) : Quaternion :=
  if negb attached then currentRestingRot
  else
    let moveSpeed := 25/10 in
    Quat.slerp rel currentRestingRot (destRestingRot p) (delta * moveSpeed).

(** [n] frames at constant props and [delta]. *)
Fixpoint frames (rel : Release) (n : nat) (p : PhotoFrame.Props) (delta : R)
    (q : Quaternion) : Quaternion :=
  match n with
  | O => q
  | S k => useFrame rel true p delta (frames rel k p delta q)
  end.

End RestingRot.

(** What it means for a sequence of orientations to approach a target. *)

Module Turning.

(** Cosine of the half angle between the orientations that [q] and
    [target] stand for ([q] and [- q] are the same orientation). *)
Definition closeness (q target : Quaternion) : R := Rabs (Quat.dot q target).

(** [r] is a combination, with non-negative weights, of [q] and of the
    target or its negative: it lies on the arc from [q] to that
    representative of the target, not beyond it. *)
Definition between (q r target : Quaternion) : Prop :=
  exists a b s : R,
    0 <= a /\ 0 <= b /\ (s = 1 \/ s = -1) /\
    r = Quat.combine a q (b * s) target.

(** Every component of [q] is within [eps] of the target or of its
    negative. *)
Definition within (eps : R) (q target : Quaternion) : Prop :=
  exists s : R,
    (s = 1 \/ s = -1) /\
    Rabs (qx q - s * qx target) < eps /\
    Rabs (qy q - s * qy target) < eps /\
    Rabs (qz q - s * qz target) < eps /\
    Rabs (qw q - s * qw target) < eps.

(** The sequence [q] of unit quaternions approaches the orientation of
    [target]: the half angle to the target never grows, no step passes
    the target, and from some tick on the quaternion is within [1e-3] of
    the target (or of its negative, the same orientation). *)
Definition approaches (q : nat -> Quaternion) (target : Quaternion) : Prop :=
  (forall n, Quat.lengthSq (q n) = 1) /\
  (forall n, closeness (q n) target <= closeness (q (S n)) target <= 1) /\
  (forall n, between (q n) (q (S n)) target) /\
  (exists N : nat, forall n, (N <= n)%nat -> within (1/1000) (q n) target).

(** What one call [r = q.slerp(target, t)] does, in terms of the
    closeness [c] before and [c'] after it: the result is a unit
    quaternion between [q] and the target; far from the target (more
    than [eps] in [1 - c^2]) the half angle is multiplied by [1 - t];
    near the target the closeness does not drop and [1 - c^2] shrinks by
    the factor [(1-t)^2 / ((1-t)^2 + t^2)] at least. *)
Definition turns (eps t : R) (q r target : Quaternion) : Prop :=
  let c := closeness q target in
  let c' := closeness r target in
  Quat.lengthSq r = 1 /\
  between q r target /\
  (eps < 1 - c * c ->
   exists theta, 0 <= theta <= PI / 2 /\ cos theta = c /\
                 c' = cos ((1 - t) * theta)) /\
  (1 - c * c <= eps ->
   c <= c' /\
   ((1 - t) * (1 - t) + t * t) * (1 - c' * c')
   <= (1 - t) * (1 - t) * (1 - c * c)).

(** The guard of the small-angle branch of [slerp], as a bound on
    [1 - c^2]. *)
Definition guard (rel : Release) : R :=
  match rel with
  | Legacy => JsNumber.EPSILON
  | Current => 1 - (9995/10000) * (9995/10000)
  end.

End Turning.


(** ** The application component (App.tsx)

    [processImage] resolves with a URL (the object URL of the blob that
    the canvas produces, or the data URL of the image when the canvas
    gives no context or no blob) and with the width and height it has
    computed, the same on all three paths; the URL is a field of the
    chosen file here, next to the size of its decoded image. *)

Module App.

Definition MAX_PHOTOS : nat := 30.
Definition FRAME_WIDTH : R := 12/10.
Definition STANDARD_ASPECT : R := (89/10) / (108/10).
Definition STANDARD_HEIGHT : R := FRAME_WIDTH / STANDARD_ASPECT.

Record File : Type := mkFile {
  resolvedUrl : string;
  imgWidth : R;
  imgHeight : R
}.

Record Processed : Type := mkProcessed {
  pUrl : string;
  pWidth : R;
  pHeight : R
}.

(** [processImage]: what the promise resolves with. *)
Definition processImage (file : File) : Processed :=
  let MAX_SIZE := 1024 in
  let width := imgWidth file in
  let height := imgHeight file in
  if Rlt_dec height width then
    if Rlt_dec MAX_SIZE width
    then mkProcessed (resolvedUrl file) MAX_SIZE (height * (MAX_SIZE / width))
    else mkProcessed (resolvedUrl file) width height
  else
    if Rlt_dec MAX_SIZE height
    then mkProcessed (resolvedUrl file) (width * (MAX_SIZE / height)) MAX_SIZE
    else mkProcessed (resolvedUrl file) width height.

(** The loop of the two upload handlers: [newPhotos] grows by one item
    per file until the files are used up or [MAX_PHOTOS] is reached;
    [item] builds the entry that is pushed. *)
Fixpoint pushFiles (item : Processed -> Gallery.PhotoItem)
    (files : list File) (newPhotos : list Gallery.PhotoItem)
  : list Gallery.PhotoItem :=
  match files with
  | [] => newPhotos
  | file :: rest =>
      if (MAX_PHOTOS <=? length newPhotos)%nat then newPhotos
      else pushFiles item rest (newPhotos ++ [item (processImage file)])
  end.

Definition standardItem (r : Processed) : Gallery.PhotoItem :=
  Gallery.mkPhotoItem (pUrl r) STANDARD_HEIGHT.

Definition freeRatioItem (r : Processed) : Gallery.PhotoItem :=
  let aspectRatio := pHeight r / pWidth r in
  let dynamicHeight := FRAME_WIDTH * aspectRatio in
  Gallery.mkPhotoItem (pUrl r) dynamicHeight.

(** The value that [handlePhotoUpload] passes to [setPhotos]. *)
Definition handlePhotoUpload (photos : list Gallery.PhotoItem)
    (files : list File) : list Gallery.PhotoItem :=
  pushFiles standardItem files photos.

(** The value that [handleFreeRatioUpload] passes to [setPhotos]. *)
Definition handleFreeRatioUpload (photos : list Gallery.PhotoItem)
    (files : list File) : list Gallery.PhotoItem :=
  pushFiles freeRatioItem files photos.

(** [clearPhotos] sets [isClearing] at once and removes the photos
    when its timeout of 800 ms runs; [clearDelay] is that time in
    seconds, the unit of the frame deltas. *)
Definition clearDelay : R := 800 / 1000.

(** How many of the files an upload takes. *)
Definition accepted (photos : list Gallery.PhotoItem) (files : list File)
  : nat :=
  Nat.min (MAX_PHOTOS - length photos) (length files).

End App.


(** *** The long press that toggles the tree (App.tsx)

    [handleStart], [handleMove] and [handleEnd] serve the mouse and the
    touch events of the scene alike; the event gives them the pointer
    position.  The timers are the browser timers of [PhotoFrame]; every
    timeout armed here has the same callback, which toggles the tree
    state unless [hasMoved] is set. *)

Module LongPress.

Record State : Type := mkState {
  treeState : TreeState;
  pressTimer : option nat;
  startPos : option (R * R);
  hasMoved : bool
}.

Definition initial : State := mkState CHAOS None None false.

(** [if (pressTimer.current) { clearTimeout(pressTimer.current);
    pressTimer.current = null; }]: a handle 0 would be falsy. *)
Definition clearPressTimer (sw : State * PhotoFrame.Timers)
  : State * PhotoFrame.Timers :=
  let '(s, w) := sw in
  match pressTimer s with
  | Some h =>
      if (h =? 0)%nat then (s, w)
      else (mkState (treeState s) None (startPos s) (hasMoved s),
            PhotoFrame.clearTimeout h w)
  | None => (s, w)
  end.

Definition handleStart (clientX clientY : R) (sw : State * PhotoFrame.Timers)
  : State * PhotoFrame.Timers :=
  let '(s, w) := sw in
  let '(h, w') := PhotoFrame.setTimeout 1800 w in
  (mkState (treeState s) (Some h) (Some (clientX, clientY)) false, w').

Definition handleMove (clientX clientY : R) (sw : State * PhotoFrame.Timers)
  : State * PhotoFrame.Timers :=
  let '(s, w) := sw in
  match startPos s with
  | None => (s, w)
  | Some (x, y) =>
      let distance := sqrt ((clientX - x) ^ 2 + (clientY - y) ^ 2) in
      if Rlt_dec 10 distance
      then clearPressTimer
             (mkState (treeState s) (pressTimer s) (startPos s) true, w)
      else (s, w)
  end.

Definition handleEnd (sw : State * PhotoFrame.Timers)
  : State * PhotoFrame.Timers :=
  let '(s, w) := sw in
  clearPressTimer (mkState (treeState s) (pressTimer s) None (hasMoved s), w).

(** The callback of a timeout, run once for each timeout that is due. *)
Definition timeoutCallback (s : State) : State :=
  if hasMoved s then s
  else mkState (toggleTree (treeState s)) (pressTimer s) (startPos s)
               (hasMoved s).

(** [ms] milliseconds pass: the timeouts that are due run and leave the
    table. *)
Definition elapse (ms : nat) (sw : State * PhotoFrame.Timers)
  : State * PhotoFrame.Timers :=
  let '(s, w) := sw in
  let t := (PhotoFrame.now w + ms)%nat in
  let fired :=
    map_to_list (filter (fun kv : nat * nat => (kv.2 <= t)%nat)
                        (PhotoFrame.pending w)) in
  (fold_left (fun s' _ => timeoutCallback s') fired s,
   PhotoFrame.mkTimers t
     (filter (fun kv : nat * nat => (t < kv.2)%nat) (PhotoFrame.pending w))
     (PhotoFrame.nextHandle w)).

Inductive Event : Type :=
| Start (clientX clientY : R)
| Move (clientX clientY : R)
| End_
| Wait (ms : nat).

Definition step (e : Event) (sw : State * PhotoFrame.Timers)
  : State * PhotoFrame.Timers :=
  match e with
  | Start x y => handleStart x y sw
  | Move x y => handleMove x y sw
  | End_ => handleEnd sw
  | Wait ms => elapse ms sw
  end.

Definition run (es : list Event) (sw : State * PhotoFrame.Timers)
  : State * PhotoFrame.Timers :=
  fold_left (fun acc e => step e acc) es sw.

(** The time that passes in a run. *)
Definition waited (es : list Event) : nat :=
  fold_right (fun e acc => match e with Wait ms => (ms + acc)%nat | _ => acc end)
             0%nat es.

(** An event of a press that is held at [(x, y)]: time passes, or the
    pointer moves to a point at most 10 away. *)
Definition held (x y : R) (e : Event) : Prop :=
  match e with
  | Wait _ => True
  | Move x' y' => sqrt ((x' - x) ^ 2 + (y' - y) ^ 2) <= 10
  | _ => False
  end.

(** An event that ends a press at [(x, y)]: the release, or a move to a
    point more than 10 away. *)
Definition ends (x y : R) (e : Event) : Prop :=
  match e with
  | End_ => True
  | Move x' y' => 10 < sqrt ((x' - x) ^ 2 + (y' - y) ^ 2)
  | _ => False
  end.

Definition isStart (e : Event) : Prop :=
  match e with Start _ _ => True | _ => False end.

(** A press at [(x, y)] whose timeout has the handle [h] and the
    deadline [dl] is held: while the deadline lies ahead the timeout is
    the one pending and the tree is in the state [ts]; from the deadline
    on nothing is pending and the tree is toggled. *)
Definition pressed (x y : R) (h dl : nat) (ts : TreeState)
    (sw : State * PhotoFrame.Timers) : Prop :=
  startPos (fst sw) = Some (x, y) /\ hasMoved (fst sw) = false /\
  pressTimer (fst sw) = Some h /\ (1 <= h)%nat /\
  ((PhotoFrame.pending (snd sw) = {[ h := dl ]} /\
    (PhotoFrame.now (snd sw) < dl)%nat /\ treeState (fst sw) = ts) \/
   (PhotoFrame.pending (snd sw) = ∅ /\
    (dl <= PhotoFrame.now (snd sw))%nat /\
    treeState (fst sw) = toggleTree ts)).

(** A state between presses: nothing is pending. *)
Definition idle (sw : State * PhotoFrame.Timers) : Prop :=
  PhotoFrame.pending (snd sw) = ∅ /\ (1 <= PhotoFrame.nextHandle (snd sw))%nat.

End LongPress.


(** * Properties *)

(** ** Arithmetic of the primitives *)

Lemma lerp_error (x y t : R) :
  MathUtils.lerp x y t - y = (1 - t) * (x - y).
Proof. unfold MathUtils.lerp. ring. Qed.

Lemma lerp_unit (x y t : R) :
  0 <= t <= 1 -> 0 <= x <= 1 -> 0 <= y <= 1 ->
  0 <= MathUtils.lerp x y t <= 1.
Proof. unfold MathUtils.lerp. intros Ht Hx Hy. split; nra. Qed.

Lemma clamp_unit (x : R) : 0 <= MathUtils.clamp x 0 1 <= 1.
Proof.
  unfold MathUtils.clamp. split.
  - apply Rmax_l.
  - apply Rmax_lub; [lra | apply Rmin_l].
Qed.

Lemma randFloatSpread_half (u : R) :
  MathUtils.unit_draw u ->
  - (1/4) < MathUtils.randFloatSpread (1/2) u <= 1/4.
Proof. unfold MathUtils.unit_draw, MathUtils.randFloatSpread. intros [H0 H1]. split; lra. Qed.

Lemma horizontalRadius_polar (r theta y : R) :
  0 <= r ->
  Vec.horizontalRadius (mkVector3 (r * cos theta) y (r * sin theta)) = r.
Proof.
  intros Hr. unfold Vec.horizontalRadius. simpl.
  replace (r * cos theta * (r * cos theta) + r * sin theta * (r * sin theta))
    with (r * r * ((sin theta)² + (cos theta)²)) by (unfold Rsqr; ring).
  rewrite sin2_cos2, Rmult_1_r. now apply sqrt_square.
Qed.

(** ** Spiral placement *)

Lemma spiral_y (index total height radiusBase : R) :
  vy (Utils.position (Utils.getSpiralPoint index total height radiusBase))
  = index / total * height - height / 2.
Proof. reflexivity. Qed.

(** C1, as stated, fails: with the gallery's own arguments (height 12,
    base radius 5.5) and two photos, the point of index 1 is not below the
    point of index 0; it is six units above it. *)
Lemma spiral_y_not_decreasing :
  vy (Utils.position (Utils.getSpiralPoint (INR 0) (INR 2) 12 (11/2))) = -6 /\
  vy (Utils.position (Utils.getSpiralPoint (INR 1) (INR 2) 12 (11/2))) = 0 /\
  ~ vy (Utils.position (Utils.getSpiralPoint (INR 1) (INR 2) 12 (11/2)))
    < vy (Utils.position (Utils.getSpiralPoint (INR 0) (INR 2) 12 (11/2))).
Proof.
  rewrite !spiral_y. simpl INR.
  assert (H0 : 0 / (1 + 1) * 12 - 12 / 2 = -6) by lra.
  assert (H1 : 1 / (1 + 1) * 12 - 12 / 2 = 0) by lra.
  rewrite H0, H1. repeat split; lra.
Qed.

(** C1 (amended): for a positive height and [total = N >= 1], the points
    of indices [0 <= i < j <= N-1] have strictly increasing [y] (the
    spiral climbs from the base to the top), the position of every index
    lies at polar angle [theta(i)], and the facing angle is exactly
    [- theta(i)]. *)
Theorem spiral_ascends_and_faces_outward
    (N i j : nat) (height radiusBase : R) :
  (1 <= N)%nat -> (i < j)%nat -> (j <= N - 1)%nat -> 0 < height ->
  let P k := Utils.getSpiralPoint (INR k) (INR N) height radiusBase in
  vy (Utils.position (P i)) < vy (Utils.position (P j)) /\
  (forall k : nat,
     let theta := Utils.spiralTheta (INR k) (INR N) in
     let r := radiusBase * (1 - INR k / INR N) + 3/2 in
     vx (Utils.position (P k)) = r * cos theta /\
     vz (Utils.position (P k)) = r * sin theta /\
     Utils.rotationY (P k) = - theta).
Proof.
  intros HN Hij HjN Hh P. split.
  - unfold P. rewrite !spiral_y.
    assert (HNpos : 0 < INR N) by (apply lt_0_INR; lia).
    assert (Hlt : INR i < INR j) by (apply lt_INR; lia).
    assert (Hdiv : INR i / INR N < INR j / INR N).
    { unfold Rdiv. apply Rmult_lt_compat_r; [ now apply Rinv_0_lt_compat | exact Hlt ]. }
    nra.
  - intros k theta r. unfold P. repeat split; reflexivity.
Qed.

Lemma spiral_ascends_and_faces_outward_witness :
  vy (Utils.position (Utils.getSpiralPoint (INR 0) (INR 3) 12 (11/2)))
  < vy (Utils.position (Utils.getSpiralPoint (INR 1) (INR 3) 12 (11/2))).
Proof.
  apply (spiral_ascends_and_faces_outward 3 0 1 12 (11/2)); [lia | lia | simpl; lia | lra].
Defined.

(** ** Cone placement *)

(** C4: for a cone of non-negative height and base radius and a height
    ratio in [0,1], the point of [getTreePoint] has [y] within
    [-height/2, height/2]; its distance to the axis is the clamped sum of
    the unjittered radius [baseRadius * (1 - yRatio)] and a jitter of
    magnitude at most 0.25, it differs from the unjittered radius by at
    most 0.25, and it is never negative. *)
Theorem tree_point_bounds (height baseRadius yRatio uTheta uNoise : R) :
  0 <= height -> 0 <= baseRadius -> 0 <= yRatio <= 1 ->
  MathUtils.unit_draw uNoise ->
  let p := Utils.getTreePoint height baseRadius yRatio uTheta uNoise in
  let r := baseRadius * (1 - yRatio) in
  let jitter := MathUtils.randFloatSpread (1/2) uNoise in
  (- height / 2 <= vy p <= height / 2) /\
  Rabs jitter <= 1/4 /\
  Vec.horizontalRadius p = Rmax 0 (r + jitter) /\
  Rabs (Vec.horizontalRadius p - r) <= 1/4 /\
  0 <= Vec.horizontalRadius p.
Proof.
  intros Hh Hb [Hy0 Hy1] Hu p r jitter.
  pose proof (randFloatSpread_half uNoise Hu) as Hj. fold jitter in Hj.
  assert (Hr : 0 <= r) by (unfold r; nra).
  assert (Hrad : Vec.horizontalRadius p = Rmax 0 (r + jitter)).
  { unfold p, Utils.getTreePoint. apply horizontalRadius_polar, Rmax_l. }
  split; [| split; [| split; [| split]]].
  - unfold p, Utils.getTreePoint. simpl. split; nra.
  - apply Rabs_le. lra.
  - exact Hrad.
  - rewrite Hrad. apply Rabs_le. unfold Rmax.
    destruct (Rle_dec 0 (r + jitter)); lra.
  - rewrite Hrad. apply Rmax_l.
Qed.

Lemma tree_point_bounds_witness :
  let p := Utils.getTreePoint 14 5 (1/2) 0 (1/4) in
  - 14 / 2 <= vy p <= 14 / 2.
Proof.
  apply (tree_point_bounds 14 5 (1/2) 0 (1/4));
    unfold MathUtils.unit_draw; lra.
Defined.

(** ** Exponential damping *)

Section Contraction.

Variables (x : nat -> R) (target a : R).
Hypothesis Ha : 0 < a <= 1.
Hypothesis Hstep : forall n, x (S n) - target = (1 - a) * (x n - target).

Lemma contraction_error (n : nat) :
  x n - target = (1 - a) ^ n * (x O - target).
Proof.
  induction n as [| n IH]; simpl; [ring |].
  rewrite Hstep, IH. ring.
Qed.

Lemma contraction_side (n : nat) :
  (x O <= target -> x n <= target) /\ (target <= x O -> target <= x n).
Proof.
  induction n as [| n [IHl IHu]]; [split; auto |].
  pose proof (Hstep n) as Hs.
  split; intros H0; [specialize (IHl H0) | specialize (IHu H0)]; nra.
Qed.

Lemma contraction_approaches : Damping.approaches x target.
Proof.
  repeat split.
  - intros n. rewrite Hstep, Rabs_mult.
    rewrite (Rabs_pos_eq (1 - a)) by lra.
    pose proof (Rabs_pos (x n - target)). nra.
  - pose proof (Hstep n) as Hs. destruct (contraction_side n) as [Hl _].
    specialize (Hl H). nra.
  - pose proof (Hstep n) as Hs. destruct (contraction_side n) as [Hl _].
    specialize (Hl H). nra.
  - pose proof (Hstep n) as Hs. destruct (contraction_side n) as [_ Hu].
    specialize (Hu H). nra.
  - pose proof (Hstep n) as Hs. destruct (contraction_side n) as [_ Hu].
    specialize (Hu H). nra.
  - set (e0 := Rabs (x O - target)).
    assert (He0 : 0 <= e0) by apply Rabs_pos.
    assert (Hq : Rabs (1 - a) < 1) by (rewrite Rabs_pos_eq; lra).
    assert (Hy : 0 < 1 / 1000 / (e0 + 1)).
    { apply Rdiv_lt_0_compat; lra. }
    destruct (pow_lt_1_zero (1 - a) Hq _ Hy) as [N HN].
    exists N. intros n Hn.
    rewrite contraction_error, Rabs_mult. fold e0.
    specialize (HN n Hn).
    assert (Hpos : 0 <= Rabs ((1 - a) ^ n)) by apply Rabs_pos.
    apply Rle_lt_trans with (Rabs ((1 - a) ^ n) * (e0 + 1)); [nra |].
    apply Rlt_le_trans with (1 / 1000 / (e0 + 1) * (e0 + 1)); [nra |].
    right. field. lra.
Qed.

End Contraction.

Lemma foliage_frames_step (ts : TreeState) (dt : R) (s0 : Foliage.State) (n : nat) :
  Foliage.progressRef (Foliage.frames (S n) ts dt s0)
  - Damping.target01 (TreeState_eqb ts FORMED)
  = (1 - dt * (5/2))
    * (Foliage.progressRef (Foliage.frames n ts dt s0)
       - Damping.target01 (TreeState_eqb ts FORMED)).
Proof.
  simpl. unfold Foliage.useFrame, Damping.target01. simpl.
  destruct (TreeState_eqb ts FORMED); apply lerp_error.
Qed.

Lemma photo_resting_step (p : PhotoFrame.Props) (c : PhotoFrame.Camera)
    (dt : R) (s0 : PhotoFrame.State) (n : nat) (proj : Vector3 -> R) :
  proj = vx \/ proj = vy \/ proj = vz ->
  proj (PhotoFrame.currentRestingPos (PhotoFrame.frames (S n) p c dt s0))
  - proj (PhotoFrame.destRestingPos p)
  = (1 - dt * (25/10))
    * (proj (PhotoFrame.currentRestingPos (PhotoFrame.frames n p c dt s0))
       - proj (PhotoFrame.destRestingPos p)).
Proof.
  intros Hproj. simpl. unfold PhotoFrame.useFrame, PhotoFrame.destRestingPos. simpl.
  destruct Hproj as [-> | [-> | ->]]; simpl; ring.
Qed.

Lemma photo_flag_fixed (p : PhotoFrame.Props) (c : PhotoFrame.Camera)
    (dt : R) (s0 : PhotoFrame.State) (n : nat) :
  PhotoFrame.isFocused p = true \/ PhotoFrame.isFlipped s0 = false ->
  PhotoFrame.isFlipped (PhotoFrame.frames n p c dt s0) = PhotoFrame.isFlipped s0.
Proof.
  intros H. induction n as [| n IH]; [reflexivity |].
  simpl. unfold PhotoFrame.useFrame. simpl. rewrite IH.
  destruct H as [-> | ->]; simpl; [reflexivity |].
  now rewrite andb_false_r.
Qed.

Lemma photo_flip_step (p : PhotoFrame.Props) (c : PhotoFrame.Camera)
    (dt : R) (s0 : PhotoFrame.State) (n : nat) :
  PhotoFrame.isFocused p = true \/ PhotoFrame.isFlipped s0 = false ->
  PhotoFrame.flipProgress (PhotoFrame.frames (S n) p c dt s0)
  - Damping.target01 (PhotoFrame.isFlipped s0)
  = (1 - dt * 2)
    * (PhotoFrame.flipProgress (PhotoFrame.frames n p c dt s0)
       - Damping.target01 (PhotoFrame.isFlipped s0)).
Proof.
  intros H. pose proof (photo_flag_fixed p c dt s0 n H) as Hfix.
  simpl. unfold PhotoFrame.useFrame, Damping.target01. simpl.
  rewrite Hfix. destruct (PhotoFrame.isFlipped s0); apply lerp_error.
Qed.

(** ** Orientation: [Quaternion.slerp] *)

Lemma quat_eq (a b : Quaternion) :
  qx a = qx b -> qy a = qy b -> qz a = qz b -> qw a = qw b -> a = b.
Proof. destruct a, b; cbn; intros; subst; reflexivity. Qed.

Lemma quat_dot_range (a b : Quaternion) :
  Quat.lengthSq a = 1 -> Quat.lengthSq b = 1 -> -1 <= Quat.dot a b <= 1.
Proof.
  destruct a as [a1 a2 a3 a4], b as [b1 b2 b3 b4].
  unfold Quat.lengthSq, Quat.dot; cbn. intros Ha Hb.
  pose proof (Rle_0_sqr (a1 - b1)). pose proof (Rle_0_sqr (a2 - b2)).
  pose proof (Rle_0_sqr (a3 - b3)). pose proof (Rle_0_sqr (a4 - b4)).
  pose proof (Rle_0_sqr (a1 + b1)). pose proof (Rle_0_sqr (a2 + b2)).
  pose proof (Rle_0_sqr (a3 + b3)). pose proof (Rle_0_sqr (a4 + b4)).
  unfold Rsqr in *. split; lra.
Qed.

Lemma closeness_range (q b : Quaternion) :
  Quat.lengthSq q = 1 -> Quat.lengthSq b = 1 ->
  0 <= Turning.closeness q b <= 1.
Proof.
  intros Hq Hb. unfold Turning.closeness.
  pose proof (quat_dot_range q b Hq Hb) as Hd.
  split; [apply Rabs_pos | apply Rabs_le; lra].
Qed.

Lemma dot_combine (a b o : Quaternion) (s t : R) :
  Quat.dot (Quat.combine s a t b) o = s * Quat.dot a o + t * Quat.dot b o.
Proof. unfold Quat.dot, Quat.combine; cbn. ring. Qed.

Lemma lengthSq_combine (a b : Quaternion) (s t : R) :
  Quat.lengthSq (Quat.combine s a t b)
  = s * s * Quat.lengthSq a + t * t * Quat.lengthSq b
    + 2 * s * t * Quat.dot a b.
Proof. unfold Quat.lengthSq, Quat.dot, Quat.combine; cbn. ring. Qed.

(** The representative of the target that [slerp] turns to. *)
Lemma slerp_other (q b : Quaternion) :
  let d := Quat.dot q b in
  let other := if Rlt_dec d 0 then Quat.negate b else b in
  let c := if Rlt_dec d 0 then - d else d in
  c = Turning.closeness q b /\
  Quat.dot q other = c /\
  Quat.lengthSq other = Quat.lengthSq b /\
  exists s, (s = 1 \/ s = -1) /\
    (forall x y r, Quat.combine x r y other = Quat.combine x r (y * s) b) /\
    (forall r, 0 <= Quat.dot r other ->
               Turning.closeness r b = Quat.dot r other).
Proof.
  intros d other c. unfold Turning.closeness. fold d.
  subst other c. destruct (Rlt_dec d 0) as [Hd | Hd].
  - split; [rewrite Rabs_left; lra |].
    split; [unfold d, Quat.dot, Quat.negate; cbn; ring |].
    split; [unfold Quat.lengthSq, Quat.negate; cbn; ring |].
    exists (-1). split; [now right |]. split.
    + intros x y r. apply quat_eq; cbn; ring.
    + intros r Hr.
      assert (E : Quat.dot r (Quat.negate b) = - Quat.dot r b)
        by (unfold Quat.dot, Quat.negate; cbn; ring).
      rewrite E in *. rewrite Rabs_left1; lra.
  - split; [rewrite Rabs_pos_eq; lra |].
    split; [reflexivity |]. split; [reflexivity |].
    exists 1. split; [now left |]. split.
    + intros x y r. apply quat_eq; cbn; ring.
    + intros r Hr. now rewrite Rabs_pos_eq.
Qed.

(** The spherical step: for unit [q] and [o] at half angle [theta], the
    combination with the weights [sin((1-t) theta) / sin theta] and
    [sin(t theta) / sin theta] is a unit quaternion at half angle
    [(1-t) theta] from [o]. *)
Lemma arc_move (q o : Quaternion) (t theta S : R) :
  Quat.lengthSq q = 1 -> Quat.lengthSq o = 1 ->
  cos theta = Quat.dot q o -> sin theta = S -> 0 < S ->
  0 <= theta <= PI / 2 -> 0 < t <= 1 ->
  let r := Quat.combine (sin ((1 - t) * theta) / S) q
                        (sin (t * theta) / S) o in
  Quat.lengthSq r = 1 /\
  Quat.dot r o = cos ((1 - t) * theta) /\
  0 <= sin ((1 - t) * theta) / S /\
  0 <= sin (t * theta) / S.
Proof.
  intros Hq Ho Hc Hs HS Hth Ht r.
  pose proof PI_RGT_0 as Hpi.
  set (k := (1 - t) * theta).
  assert (Et : t * theta = theta - k) by (unfold k; ring).
  assert (Hst : sin (t * theta) = S * cos k - Quat.dot q o * sin k).
  { rewrite Et, sin_minus, Hs, Hc. ring. }
  pose proof (sin2_cos2 k) as Hk. unfold Rsqr in Hk.
  pose proof (sin2_cos2 theta) as H1. unfold Rsqr in H1.
  rewrite Hs, Hc in H1.
  assert (Hk0 : 0 <= k <= PI / 2) by (unfold k; split; nra).
  assert (Ht0 : 0 <= t * theta <= PI / 2) by (split; nra).
  assert (Hsk : 0 <= sin k) by (apply sin_ge_0; lra).
  assert (Hstt : 0 <= sin (t * theta)) by (apply sin_ge_0; lra).
  assert (Ho' : Quat.dot o o = 1) by exact Ho.
  split; [| split; [| split]].
  - subst r. rewrite lengthSq_combine, Hq, Ho, Hst. fold k.
    set (c := Quat.dot q o) in *. set (sk := sin k) in *.
    set (ck := cos k) in *.
    assert (E : (sk / S * (sk / S) * 1
                 + (S * ck - c * sk) / S * ((S * ck - c * sk) / S) * 1
                 + 2 * (sk / S) * ((S * ck - c * sk) / S) * c)
                = (sk * sk * (1 - c * c) + S * S * ck * ck) / (S * S))
      by (field; lra).
    rewrite E.
    assert (E2 : sk * sk * (1 - c * c) + S * S * ck * ck = S * S) by nra.
    rewrite E2. field; lra.
  - subst r. rewrite dot_combine, Ho', Hst. fold k. field; lra.
  - apply Rmult_le_pos; [exact Hsk | left; now apply Rinv_0_lt_compat].
  - apply Rmult_le_pos; [exact Hstt | left; now apply Rinv_0_lt_compat].
Qed.

(** The small-angle step: linear interpolation, then [normalize]. *)
Lemma nlerp_move (q o : Quaternion) (t : R) :
  Quat.lengthSq q = 1 -> Quat.lengthSq o = 1 ->
  0 <= Quat.dot q o -> 0 < t <= 1 ->
  let r := Quat.normalize (Quat.combine (1 - t) q t o) in
  exists l, 0 < l /\
    r = Quat.combine ((1 - t) / l) q (t / l) o /\
    Quat.lengthSq r = 1 /\
    Quat.dot q o <= Quat.dot r o /\
    ((1 - t) * (1 - t) + t * t) * (1 - Quat.dot r o * Quat.dot r o)
    <= (1 - t) * (1 - t) * (1 - Quat.dot q o * Quat.dot q o).
Proof.
  intros Hq Ho Hc Ht r.
  pose proof (quat_dot_range q o Hq Ho) as Hd.
  set (c := Quat.dot q o) in *.
  set (m := Quat.combine (1 - t) q t o) in *.
  assert (HN : Quat.lengthSq m
               = (1 - t) * (1 - t) + t * t + 2 * (1 - t) * t * c).
  { unfold m. rewrite lengthSq_combine, Hq, Ho. fold c. ring. }
  set (N2 := Quat.lengthSq m) in *.
  assert (Hkt : 0 <= (1 - t) * t) by nra.
  assert (Hktc : 0 <= (1 - t) * t * c) by (apply Rmult_le_pos; lra).
  assert (Hktc1 : (1 - t) * t * c <= (1 - t) * t) by nra.
  assert (Htt : 0 < t * t) by nra.
  assert (Hkk : 0 <= (1 - t) * (1 - t)) by nra.
  assert (HN0 : 0 < N2) by lra.
  assert (HN1 : N2 <= 1) by nra.
  set (l := sqrt N2).
  assert (Hl : 0 < l) by (apply sqrt_lt_R0; exact HN0).
  assert (Hll : l * l = N2) by (apply sqrt_sqrt; lra).
  assert (Hl1 : l <= 1) by nra.
  assert (Er : r = Quat.combine ((1 - t) / l) q (t / l) o).
  { unfold r, Quat.normalize. fold m. unfold Quat.length. fold N2. fold l.
    destruct (Req_dec_T l 0) as [E | _]; [lra |].
    apply quat_eq; cbn; field; lra. }
  assert (Ho' : Quat.dot o o = 1) by exact Ho.
  assert (Edot : Quat.dot r o = ((1 - t) * c + t) / l).
  { rewrite Er, dot_combine, Ho'. fold c. field; lra. }
  exists l. split; [exact Hl |]. split; [exact Er |].
  split; [| split].
  - rewrite Er, lengthSq_combine, Hq, Ho. fold c.
    assert (E : (1 - t) / l * ((1 - t) / l) * 1 + t / l * (t / l) * 1
                + 2 * ((1 - t) / l) * (t / l) * c
                = ((1 - t) * (1 - t) + t * t + 2 * (1 - t) * t * c)
                  / (l * l)) by (field; lra).
    rewrite E, Hll, <- HN. field; lra.
  - rewrite Edot. apply Rmult_le_reg_r with l; [exact Hl |].
    unfold Rdiv. rewrite Rmult_assoc, Rinv_l by lra. nra.
  - rewrite Edot.
    assert (E : 1 - ((1 - t) * c + t) / l * (((1 - t) * c + t) / l)
                = (1 - t) * (1 - t) * (1 - c * c) / N2).
    { assert (Hl2 : l * l = (1 - t) * (1 - t) + t * t + 2 * (1 - t) * t * c)
        by lra.
      rewrite <- Hll.
      transitivity ((l * l - ((1 - t) * c + t) * ((1 - t) * c + t)) / (l * l));
        [field; lra |].
      f_equal. rewrite Hl2. ring. }
    rewrite E.
    assert (Hu : 0 <= (1 - t) * (1 - t) * (1 - c * c)) by nra.
    set (u := (1 - t) * (1 - t) * (1 - c * c)) in *.
    apply Rmult_le_reg_r with N2; [exact HN0 |].
    replace (((1 - t) * (1 - t) + t * t) * (u / N2) * N2)
      with (((1 - t) * (1 - t) + t * t) * u) by (field; lra).
    nra.
Qed.

Lemma acos_quadrant (c : R) :
  0 <= c <= 1 ->
  0 <= acos c <= PI / 2 /\ cos (acos c) = c /\
  sin (acos c) = sqrt (1 - c * c).
Proof.
  intros Hc. pose proof (acos_bound c) as Hb. pose proof PI_RGT_0 as Hpi.
  assert (Hcos : cos (acos c) = c) by (apply cos_acos; lra).
  split; [| split; [exact Hcos |]].
  - split; [lra |].
    apply cos_decr_0; try lra. rewrite cos_PI2, Hcos. lra.
  - rewrite sin_acos by lra. reflexivity.
Qed.

Lemma atan2_acos (c : R) :
  0 <= c < 1 -> JsNumber.atan2 (sqrt (1 - c * c)) c = acos c.
Proof.
  intros Hc. unfold JsNumber.atan2.
  assert (HS : 0 < sqrt (1 - c * c)) by (apply sqrt_lt_R0; nra).
  destruct (Rlt_dec 0 c) as [Hpos | Hnpos].
  - rewrite acos_atan by exact Hpos. reflexivity.
  - assert (c = 0) by lra. subst c.
    destruct (Rlt_dec 0 0) as [F | _]; [lra |].
    destruct (Rlt_dec 0 (sqrt (1 - 0 * 0))) as [_ | F]; [| lra].
    now rewrite acos_0.
Qed.

Section SlerpBranches.

Variables (eps t : R) (q b : Quaternion).
Hypothesis Heps : 0 < eps.
Hypothesis Ht : 0 < t <= 1.
Hypothesis Hq : Quat.lengthSq q = 1.
Hypothesis Hb : Quat.lengthSq b = 1.

(** [t = 1]: the target is copied. *)
Lemma turns_copy : t = 1 -> Turning.turns eps t q b b.
Proof.
  intros ->. unfold Turning.turns.
  pose proof (closeness_range q b Hq Hb) as Hc.
  assert (Hbb : Turning.closeness b b = 1).
  { unfold Turning.closeness. change (Quat.dot b b) with (Quat.lengthSq b).
    rewrite Hb. apply Rabs_R1. }
  rewrite Hbb. split; [exact Hb |]. split; [| split].
  - exists 0, 1, 1. repeat split; try lra.
    apply quat_eq; cbn; ring.
  - intros _. destruct (acos_quadrant _ Hc) as (Hth & Hcos & _).
    exists (acos (Turning.closeness q b)). split; [exact Hth |].
    split; [exact Hcos |].
    replace ((1 - 1) * acos (Turning.closeness q b)) with 0 by ring.
    now rewrite cos_0.
  - intros _. split; [lra | nra].
Qed.

(** The quaternion is left as it is (the target is reached). *)
Lemma turns_stay : 1 <= Turning.closeness q b -> Turning.turns eps t q q b.
Proof.
  intros H1. unfold Turning.turns.
  pose proof (closeness_range q b Hq Hb) as Hc.
  split; [exact Hq |]. split; [| split].
  - exists 1, 0, 1. repeat split; try lra.
    apply quat_eq; cbn; ring.
  - intros Hfar. assert (E : Turning.closeness q b = 1) by lra.
    rewrite E in Hfar. lra.
  - intros _. split; [lra |].
    assert (E : Turning.closeness q b = 1) by lra. rewrite E. lra.
Qed.

(** The small-angle branch. *)
Lemma turns_nlerp :
  let d := Quat.dot q b in
  let other := if Rlt_dec d 0 then Quat.negate b else b in
  1 - Turning.closeness q b * Turning.closeness q b <= eps ->
  Turning.turns eps t q (Quat.normalize (Quat.combine (1 - t) q t other)) b.
Proof.
  intros d other Hnear.
  destruct (slerp_other q b) as (Ec & Edot & Elen & s & Hs & Hcomb & Hclose).
  fold d in Ec, Edot, Elen, Hcomb, Hclose. fold other in Edot, Elen, Hcomb, Hclose.
  pose proof (closeness_range q b Hq Hb) as Hc.
  assert (Ho : Quat.lengthSq other = 1) by now rewrite Elen.
  assert (Hd0 : 0 <= Quat.dot q other) by (rewrite Edot, Ec; lra).
  destruct (nlerp_move q other t Hq Ho Hd0 Ht)
    as (l & Hl & Er & Hunit & Hmono & Hcontr).
  set (r := Quat.normalize (Quat.combine (1 - t) q t other)) in *.
  assert (Hr0 : 0 <= Quat.dot r other) by lra.
  assert (Hcr : Turning.closeness r b = Quat.dot r other) by now apply Hclose.
  rewrite Edot, Ec in Hmono, Hcontr.
  unfold Turning.turns. rewrite Hcr.
  split; [exact Hunit |]. split; [| split].
  - exists ((1 - t) / l), (t / l), s.
    split; [apply Rmult_le_pos; [lra | left; now apply Rinv_0_lt_compat] |].
    split; [apply Rmult_le_pos; [lra | left; now apply Rinv_0_lt_compat] |].
    split; [exact Hs |]. rewrite Er. apply Hcomb.
  - intros Hfar. lra.
  - intros _. split; [exact Hmono | exact Hcontr].
Qed.

(** The spherical branch, with the half angle [acos c]. *)
Lemma turns_arc :
  let d := Quat.dot q b in
  let other := if Rlt_dec d 0 then Quat.negate b else b in
  let c := Turning.closeness q b in
  eps < 1 - c * c ->
  Turning.turns eps t q
    (Quat.combine (sin ((1 - t) * acos c) / sin (acos c)) q
                  (sin (t * acos c) / sin (acos c)) other) b.
Proof.
  intros d other c Hfar.
  destruct (slerp_other q b) as (Ec & Edot & Elen & s & Hs & Hcomb & Hclose).
  fold d in Ec, Edot, Elen, Hcomb, Hclose. fold other in Edot, Elen, Hcomb, Hclose.
  pose proof (closeness_range q b Hq Hb) as Hc. fold c in Hc, Ec.
  assert (Ho : Quat.lengthSq other = 1) by now rewrite Elen.
  destruct (acos_quadrant c Hc) as (Hth & Hcos & Hsin).
  assert (HS : 0 < sin (acos c)).
  { rewrite Hsin. apply sqrt_lt_R0. lra. }
  assert (Hcd : cos (acos c) = Quat.dot q other) by (rewrite Edot, Ec; exact Hcos).
  destruct (arc_move q other t (acos c) (sin (acos c)) Hq Ho Hcd eq_refl HS Hth Ht)
    as (Hunit & Hdot & HA & HB).
  set (r := Quat.combine _ q _ other) in *.
  pose proof PI_RGT_0 as Hpi.
  assert (Hk : 0 <= (1 - t) * acos c <= PI / 2) by (split; nra).
  assert (Hr0 : 0 <= Quat.dot r other).
  { rewrite Hdot. apply cos_ge_0; lra. }
  assert (Hcr : Turning.closeness r b = Quat.dot r other) by now apply Hclose.
  unfold Turning.turns. fold c. rewrite Hcr, Hdot.
  split; [exact Hunit |]. split; [| split].
  - exists (sin ((1 - t) * acos c) / sin (acos c)),
           (sin (t * acos c) / sin (acos c)), s.
    split; [exact HA |]. split; [exact HB |]. split; [exact Hs |].
    unfold r. apply Hcomb.
  - intros _. exists (acos c). split; [exact Hth |]. split; [exact Hcos |].
    reflexivity.
  - intros Hnear. lra.
Qed.

End SlerpBranches.

Lemma guard_pos (rel : Release) : 0 < Turning.guard rel.
Proof.
  destruct rel; unfold Turning.guard, JsNumber.EPSILON; [| lra].
  apply Rinv_0_lt_compat. apply pow_lt. lra.
Qed.

(** Each release of [slerp], called with a factor in (0, 1] on unit
    quaternions, makes one of the steps above. *)
Lemma slerp_turns (rel : Release) (q b : Quaternion) (t : R) :
  0 < t <= 1 -> Quat.lengthSq q = 1 -> Quat.lengthSq b = 1 ->
  Turning.turns (Turning.guard rel) t q (Quat.slerp rel q b t) b.
Proof.
  intros Ht Hq Hb. pose proof (guard_pos rel) as Heps.
  pose proof (closeness_range q b Hq Hb) as Hc.
  destruct (slerp_other q b) as (Ec & _).
  destruct rel; unfold Quat.slerp.
  - unfold Quat.slerpLegacy.
    destruct (Req_dec_T t 0) as [E | _]; [lra |].
    destruct (Req_dec_T t 1) as [E | Hn1]; [now apply turns_copy |].
    cbv zeta. rewrite Ec.
    destruct (Rle_dec 1 (Turning.closeness q b)) as [H1 | H1];
      [now apply turns_stay |].
    destruct (Rle_dec _ JsNumber.EPSILON) as [Hnear | Hfar].
    + now apply turns_nlerp.
    + rewrite atan2_acos by lra.
      destruct (acos_quadrant _ Hc) as (_ & _ & Hsin). rewrite <- Hsin.
      apply turns_arc; try assumption. unfold Turning.guard. lra.
  - unfold Quat.slerpCurrent.
    destruct (Rle_dec t 0) as [E | _]; [lra |].
    destruct (Rle_dec 1 t) as [E | Hn1];
      [apply turns_copy; try assumption; lra |].
    cbv zeta. rewrite Ec.
    destruct (Rlt_dec (Turning.closeness q b) (9995/10000)) as [Hfar | Hnear].
    + apply turns_arc; try assumption. unfold Turning.guard. nra.
    + apply turns_nlerp; try assumption. unfold Turning.guard. nra.
Qed.

(** *** Runs of steps towards a fixed target *)

Section TurningRuns.

Variables (eps t : R) (b : Quaternion) (q : nat -> Quaternion).
Hypothesis Heps : 0 < eps.
Hypothesis Ht : 0 < t <= 1.
Hypothesis Hb : Quat.lengthSq b = 1.
Hypothesis Hq0 : Quat.lengthSq (q O) = 1.
Hypothesis Hstep :
  forall n, Quat.lengthSq (q n) = 1 -> Turning.turns eps t (q n) (q (S n)) b.

Lemma run_unit (n : nat) : Quat.lengthSq (q n) = 1.
Proof.
  induction n as [| n IH]; [exact Hq0 |].
  now destruct (Hstep n IH) as (Hu & _).
Qed.

Lemma run_range (n : nat) : 0 <= Turning.closeness (q n) b <= 1.
Proof. apply closeness_range; [apply run_unit | exact Hb]. Qed.

Lemma run_mono (n : nat) :
  Turning.closeness (q n) b <= Turning.closeness (q (S n)) b.
Proof.
  destruct (Hstep n (run_unit n)) as (_ & _ & Hfar & Hnear).
  cbv zeta in Hfar, Hnear.
  set (c := Turning.closeness (q n) b) in *.
  destruct (Rlt_dec eps (1 - c * c)) as [H | H].
  - destruct (Hfar H) as (theta & Hth & Hcos & ->).
    rewrite <- Hcos. pose proof PI_RGT_0.
    apply cos_decr_1; try nra.
  - apply Hnear. lra.
Qed.

Lemma run_mono_le (n m : nat) :
  (n <= m)%nat -> Turning.closeness (q n) b <= Turning.closeness (q m) b.
Proof.
  induction 1 as [| m _ IH]; [lra |].
  pose proof (run_mono m). lra.
Qed.

(** While the small-angle branch has not been reached, the half angle
    is at most [(1 - t)^n * PI/2]. *)
Lemma run_far (n : nat) :
  1 - Turning.closeness (q n) b * Turning.closeness (q n) b <= eps \/
  exists theta, 0 <= theta <= (1 - t) ^ n * (PI / 2) /\
                cos theta <= Turning.closeness (q n) b.
Proof.
  pose proof PI_RGT_0 as Hpi.
  induction n as [| n IH].
  - right. exists (PI / 2). split; [simpl; lra |].
    rewrite cos_PI2. apply run_range.
  - pose proof (run_range n) as Hc. pose proof (run_range (S n)) as Hc'.
    pose proof (run_mono n) as Hm.
    destruct (Hstep n (run_unit n)) as (_ & _ & Hfar & _).
    cbv zeta in Hfar.
    set (c := Turning.closeness (q n) b) in *.
    set (c' := Turning.closeness (q (S n)) b) in *.
    destruct (Rlt_dec eps (1 - c * c)) as [H | H]; [| left; nra].
    destruct IH as [IH | (theta & Hth & Hcos)]; [lra |].
    destruct (Hfar H) as (theta' & Hth' & Hcos' & Ec').
    right. exists ((1 - t) * theta).
    assert (Hp : 0 <= (1 - t) ^ n) by (apply pow_le; lra).
    assert (Hle : theta <= PI / 2).
    { assert (H1 : (1 - t) ^ n <= 1).
      { pose proof (pow_incr (1 - t) 1 n) as Hi. rewrite pow1 in Hi.
        apply Hi. lra. }
      nra. }
    assert (Hord : theta' <= theta).
    { apply cos_decr_0; try lra. }
    split; [split; [nra | simpl; nra] |].
    rewrite Ec'. apply cos_decr_1; try nra.
Qed.

(** The small-angle branch is reached after finitely many steps. *)
Lemma run_reaches_guard :
  exists n,
    1 - Turning.closeness (q n) b * Turning.closeness (q n) b <= eps.
Proof.
  pose proof PI_RGT_0 as Hpi.
  set (e := Rmin eps 1).
  assert (He : 0 < e) by (unfold e; apply Rmin_glb_lt; lra).
  assert (He1 : e <= 1) by apply Rmin_r.
  assert (Hee : e <= eps) by apply Rmin_l.
  assert (Hk : Rabs (1 - t) < 1) by (rewrite Rabs_pos_eq; lra).
  assert (Hy : 0 < e / (PI / 2)) by (apply Rdiv_lt_0_compat; lra).
  destruct (pow_lt_1_zero (1 - t) Hk _ Hy) as [N HN].
  exists N. destruct (run_far N) as [H | (theta & Hth & Hcos)]; [exact H |].
  specialize (HN N (Nat.le_refl N)).
  assert (Hp : 0 <= (1 - t) ^ N) by (apply pow_le; lra).
  rewrite Rabs_pos_eq in HN by exact Hp.
  assert (Hthe : theta <= e).
  { apply Rle_trans with ((1 - t) ^ N * (PI / 2)); [lra |].
    apply Rle_trans with (e / (PI / 2) * (PI / 2));
      [apply Rmult_le_compat_r; lra |].
    right. field. lra. }
  pose proof (run_range N) as Hc.
  set (c := Turning.closeness (q N) b) in *.
  pose proof PI2_1 as Hpi2.
  assert (Hcos0 : 0 <= cos theta) by (apply cos_ge_0; lra).
  assert (Hsin0 : 0 <= sin theta) by (apply sin_ge_0; lra).
  assert (Hsin : sin theta <= theta).
  { destruct (Req_dec theta 0) as [-> | Hne]; [rewrite sin_0; lra |].
    left. apply sin_lt_x. lra. }
  pose proof (sin2_cos2 theta) as H1. unfold Rsqr in H1.
  nra.
Qed.

(** Once in the small-angle branch, [1 - c^2] shrinks geometrically. *)
Lemma run_near (m j : nat) :
  1 - Turning.closeness (q m) b * Turning.closeness (q m) b <= eps ->
  ((1 - t) * (1 - t) + t * t) ^ j
  * (1 - Turning.closeness (q (m + j)) b * Turning.closeness (q (m + j)) b)
  <= ((1 - t) * (1 - t)) ^ j.
Proof.
  intros Hm. induction j as [| j IH].
  - rewrite Nat.add_0_r. simpl. pose proof (run_range m). nra.
  - replace (m + S j)%nat with (S (m + j)) by lia.
    pose proof (run_range (m + j)) as Hc.
    pose proof (run_range (S (m + j))) as Hc'.
    pose proof (run_mono_le m (m + j) ltac:(lia)) as Hle.
    pose proof (run_range m) as Hcm.
    destruct (Hstep (m + j) (run_unit (m + j))) as (_ & _ & _ & Hnear).
    cbv zeta in Hnear.
    set (c := Turning.closeness (q (m + j)) b) in *.
    set (c' := Turning.closeness (q (S (m + j))) b) in *.
    set (cm := Turning.closeness (q m) b) in *.
    assert (Hn : 1 - c * c <= eps) by nra.
    destruct (Hnear Hn) as (_ & Hcontr).
    set (A := (1 - t) * (1 - t) + t * t) in *.
    set (K := (1 - t) * (1 - t)) in *.
    assert (HK : 0 <= K) by (unfold K; nra).
    assert (HA : 0 <= A ^ j) by (apply pow_le; unfold A, K; nra).
    simpl.
    apply Rle_trans with (A ^ j * (K * (1 - c * c))).
    + replace (A * A ^ j * (1 - c' * c')) with (A ^ j * (A * (1 - c' * c')))
        by ring.
      now apply Rmult_le_compat_l.
    + replace (A ^ j * (K * (1 - c * c))) with (K * (A ^ j * (1 - c * c)))
        by ring.
      now apply Rmult_le_compat_l.
Qed.

Lemma run_converges (delta : R) :
  0 < delta ->
  exists N, forall n, (N <= n)%nat ->
    1 - Turning.closeness (q n) b < delta.
Proof.
  intros Hdelta.
  destruct run_reaches_guard as [m Hm].
  set (A := (1 - t) * (1 - t) + t * t).
  set (K := (1 - t) * (1 - t)).
  assert (HA : 0 < A) by (unfold A; nra).
  assert (HK : 0 <= K) by (unfold K; nra).
  assert (Hr : Rabs (K / A) < 1).
  { rewrite Rabs_pos_eq
      by (apply Rmult_le_pos; [exact HK | left; now apply Rinv_0_lt_compat]).
    apply Rmult_lt_reg_r with A; [exact HA |].
    unfold Rdiv. rewrite Rmult_assoc, Rinv_l by lra. unfold A, K. nra. }
  destruct (pow_lt_1_zero (K / A) Hr delta Hdelta) as [J HJ].
  exists (m + J)%nat. intros n Hn.
  pose proof (run_mono_le (m + J) n Hn) as Hle.
  pose proof (run_range n) as Hcn.
  pose proof (run_range (m + J)) as Hc.
  pose proof (run_near m J Hm) as Hnear. fold A K in Hnear.
  specialize (HJ J (Nat.le_refl J)).
  assert (HAJ : 0 < A ^ J) by now apply pow_lt.
  assert (Epow : (K / A) ^ J = K ^ J / A ^ J).
  { unfold Rdiv. rewrite Rpow_mult_distr, pow_inv. reflexivity. }
  assert (HKJ : 0 <= K ^ J) by now apply pow_le.
  rewrite Epow in HJ.
  rewrite Rabs_pos_eq in HJ
    by (apply Rmult_le_pos; [exact HKJ | left; now apply Rinv_0_lt_compat]).
  set (c := Turning.closeness (q (m + J)) b) in *.
  set (cn := Turning.closeness (q n) b) in *.
  assert (Hu : 1 - c * c <= K ^ J / A ^ J).
  { apply Rmult_le_reg_l with (A ^ J); [exact HAJ |].
    replace (A ^ J * (K ^ J / A ^ J)) with (K ^ J) by (field; lra).
    exact Hnear. }
  nra.
Qed.

(** A unit quaternion that is close to the orientation of [b] has every
    component close to [b] or to [- b]. *)
Lemma closeness_within (r : Quaternion) :
  Quat.lengthSq r = 1 ->
  1 - Turning.closeness r b < 5 / 10000000 ->
  Turning.within (1/1000) r b.
Proof.
  intros Hr Hc. unfold Turning.closeness in Hc.
  assert (Hs : exists s, (s = 1 \/ s = -1) /\ Rabs (Quat.dot r b) = s * Quat.dot r b).
  { destruct (Rle_dec 0 (Quat.dot r b)) as [H | H].
    - exists 1. split; [now left |]. rewrite Rabs_pos_eq; lra.
    - exists (-1). split; [now right |]. rewrite Rabs_left; lra. }
  destruct Hs as (s & Hs & Es). rewrite Es in Hc.
  exists s. split; [exact Hs |].
  assert (Hss : s * s = 1) by (destruct Hs as [-> | ->]; lra).
  destruct r as [r1 r2 r3 r4], b as [b1 b2 b3 b4].
  unfold Quat.lengthSq, Quat.dot in *. cbn in *.
  assert (Hsum : (r1 - s * b1) * (r1 - s * b1) + (r2 - s * b2) * (r2 - s * b2)
                 + (r3 - s * b3) * (r3 - s * b3) + (r4 - s * b4) * (r4 - s * b4)
                 < 1 / 1000000).
  { assert (E : (r1 - s * b1) * (r1 - s * b1) + (r2 - s * b2) * (r2 - s * b2)
                + (r3 - s * b3) * (r3 - s * b3) + (r4 - s * b4) * (r4 - s * b4)
                = (r1 * r1 + r2 * r2 + r3 * r3 + r4 * r4)
                  + s * s * (b1 * b1 + b2 * b2 + b3 * b3 + b4 * b4)
                  - 2 * (s * (r1 * b1 + r2 * b2 + r3 * b3 + r4 * b4))) by ring.
    rewrite E, Hss, Hr, Hb. lra. }
  pose proof (Rle_0_sqr (r1 - s * b1)) as S1.
  pose proof (Rle_0_sqr (r2 - s * b2)) as S2.
  pose proof (Rle_0_sqr (r3 - s * b3)) as S3.
  pose proof (Rle_0_sqr (r4 - s * b4)) as S4.
  unfold Rsqr in *.
  repeat split; apply Rabs_def1; nra.
Qed.

Lemma run_approaches : Turning.approaches q b.
Proof.
  split; [exact run_unit |]. split; [| split].
  - intros n. split; [apply run_mono | apply run_range].
  - intros n. now destruct (Hstep n (run_unit n)) as (_ & Hbt & _).
  - destruct (run_converges (5 / 10000000) ltac:(lra)) as [N HN].
    exists N. intros n Hn. apply closeness_within; [apply run_unit |].
    now apply HN.
Qed.

End TurningRuns.

(** *** The quaternions the photo frame turns between are unit quaternions *)

Lemma setFromEuler_unit (e : Euler) : Quat.lengthSq (Quat.setFromEuler e) = 1.
Proof.
  unfold Quat.setFromEuler, Quat.lengthSq; cbn.
  pose proof (sin2_cos2 (ex e / 2)) as H1.
  pose proof (sin2_cos2 (ey e / 2)) as H2.
  pose proof (sin2_cos2 (ez e / 2)) as H3.
  unfold Rsqr in *.
  set (s1 := sin (ex e / 2)) in *. set (c1 := cos (ex e / 2)) in *.
  set (s2 := sin (ey e / 2)) in *. set (c2 := cos (ey e / 2)) in *.
  set (s3 := sin (ez e / 2)) in *. set (c3 := cos (ez e / 2)) in *.
  transitivity ((s1 * s1 + c1 * c1) * (s2 * s2 + c2 * c2) * (s3 * s3 + c3 * c3));
    [ring |].
  rewrite H1, H2, H3. ring.
Qed.

Lemma multiply_lengthSq (a b : Quaternion) :
  Quat.lengthSq (Quat.multiply a b) = Quat.lengthSq a * Quat.lengthSq b.
Proof. unfold Quat.lengthSq, Quat.multiply; cbn. ring. Qed.

Lemma rotateY_unit (q : Quaternion) (angle : R) :
  Quat.lengthSq q = 1 -> Quat.lengthSq (RestingRot.rotateY q angle) = 1.
Proof.
  intros Hq. unfold RestingRot.rotateY. rewrite multiply_lengthSq, Hq.
  unfold Quat.lengthSq, Quat.setFromAxisAngle; cbn.
  pose proof (sin2_cos2 (angle / 2)) as H. unfold Rsqr in H. lra.
Qed.

(** A half turn about the vertical axis after a turn about it. *)
Lemma rotateY_PI_yaw (q : Quaternion) :
  qx q = 0 -> qz q = 0 ->
  let r := RestingRot.rotateY q PI in
  qx r = 0 /\ qz r = 0 /\ qy r = qw q /\ qw r = - qy q.
Proof.
  intros Hx Hz. unfold RestingRot.rotateY, Quat.multiply, Quat.setFromAxisAngle.
  cbn [qx qy qz qw vx vy vz]. rewrite sin_PI2, cos_PI2, Hx, Hz.
  repeat split; ring.
Qed.

(** Looking from a point on the vertical axis to a point at the same
    height gives a rotation about the vertical axis: the x axis of the
    matrix is [(c, 0, -a)], the y axis is up and the z axis is
    [(a, 0, c)], with [a^2 + c^2 = 1]. *)
Lemma lookAt_level (pos : Vector3) :
  exists a c, a * a + c * c = 1 /\
    (0 < Vec.horizontalRadius pos ->
     a = - vx pos / Vec.horizontalRadius pos /\
     c = - vz pos / Vec.horizontalRadius pos) /\
    Mat4.lookAt (mkVector3 0 (vy pos) 0) pos RestingRot.up
    = mkMatrix4 c 0 a 0 1 0 (- a) 0 c.
Proof.
  destruct pos as [px py pz]. unfold Mat4.lookAt, RestingRot.up.
  unfold Vec.horizontalRadius. cbn [vx vy vz]. cbv zeta.
  set (z0 := Vec3.subVectors (mkVector3 0 py 0) (mkVector3 px py pz)).
  assert (Hz0 : Vec3.lengthSq z0 = px * px + pz * pz)
    by (unfold z0, Vec3.lengthSq, Vec3.subVectors; cbn; ring).
  assert (Hgen : forall a c, a * a + c * c = 1 ->
            let z2 := mkVector3 a 0 c in
            let x0 := Vec3.crossVectors (mkVector3 0 1 0) z2 in
            let z3 := if Req_dec_T (Vec3.lengthSq x0) 0
                      then Ornaments.normalize
                             (if Req_dec_T (Rabs (vz (mkVector3 0 1 0))) 1
                              then mkVector3 (vx z2 + 1/10000) (vy z2) (vz z2)
                              else mkVector3 (vx z2) (vy z2) (vz z2 + 1/10000))
                      else z2 in
            let x1 := if Req_dec_T (Vec3.lengthSq x0) 0
                      then Vec3.crossVectors (mkVector3 0 1 0) z3 else x0 in
            let x := Ornaments.normalize x1 in
            let y := Vec3.crossVectors z3 x in
            mkMatrix4 (vx x) (vx y) (vx z3) (vy x) (vy y) (vy z3)
                      (vz x) (vz y) (vz z3)
            = mkMatrix4 c 0 a 0 1 0 (- a) 0 c).
  { intros a c Hac z2 x0.
    assert (Hx0 : x0 = mkVector3 c 0 (- a))
      by (unfold x0, z2, Vec3.crossVectors; cbn; f_equal; ring).
    assert (Hl : Vec3.lengthSq x0 = 1)
      by (rewrite Hx0; unfold Vec3.lengthSq; cbn; lra).
    rewrite Hl. destruct (Req_dec_T 1 0) as [F | _]; [lra |].
    cbv zeta. rewrite Hx0. unfold Ornaments.normalize. cbn [vx vy vz].
    replace (c * c + 0 * 0 + - a * - a) with 1 by lra.
    rewrite sqrt_1. destruct (Req_dec_T 1 0) as [F | _]; [lra |].
    unfold z2, Vec3.crossVectors. cbn [vx vy vz].
    f_equal; try field. lra. }
  destruct (Req_dec_T (Vec3.lengthSq z0) 0) as [E | NE].
  - assert (px = 0 /\ pz = 0) as [-> ->] by (rewrite Hz0 in E; split; nra).
    exists 0, 1. split; [lra |].
    split.
    { replace (0 * 0 + 0 * 0) with 0 by ring. rewrite sqrt_0. lra. }
    assert (Hn : Ornaments.normalize (mkVector3 (vx z0) (vy z0) 1)
                 = mkVector3 0 0 1).
    { unfold z0, Ornaments.normalize, Vec3.subVectors. cbn [vx vy vz].
      replace ((0 - 0) * (0 - 0) + (py - py) * (py - py) + 1 * 1) with 1 by ring.
      rewrite sqrt_1. destruct (Req_dec_T 1 0) as [F | _]; [lra |].
      f_equal; field. }
    rewrite Hn. apply (Hgen 0 1). lra.
  - set (n := sqrt (px * px + pz * pz)).
    assert (Hpos : 0 < px * px + pz * pz) by (rewrite Hz0 in NE; nra).
    assert (Hn0 : 0 < n) by (apply sqrt_lt_R0; exact Hpos).
    assert (Hnn : n * n = px * px + pz * pz) by (apply sqrt_sqrt; lra).
    exists (- px / n), (- pz / n). split; [| split].
    + transitivity ((px * px + pz * pz) / (n * n)); [field; lra |].
      rewrite Hnn. field. lra.
    + intros _. split; reflexivity.
    + assert (Hn : Ornaments.normalize z0 = mkVector3 (- px / n) 0 (- pz / n)).
      { unfold z0, Ornaments.normalize, Vec3.subVectors. cbn [vx vy vz].
        replace ((0 - px) * (0 - px) + (py - py) * (py - py) + (0 - pz) * (0 - pz))
          with (px * px + pz * pz) by ring.
        fold n. destruct (Req_dec_T n 0) as [F | _]; [lra |].
        f_equal; field; lra. }
      rewrite Hn. apply Hgen.
      transitivity ((px * px + pz * pz) / (n * n)); [field; lra |].
      rewrite Hnn. field. lra.
Qed.

(** The quaternion of a rotation matrix about the vertical axis. *)
Lemma yaw_quaternion (a c : R) :
  a * a + c * c = 1 ->
  let q := Mat4.setFromRotationMatrix (mkMatrix4 c 0 a 0 1 0 (- a) 0 c) in
  Quat.lengthSq q = 1 /\ qx q = 0 /\ qz q = 0 /\
  2 * qy q * qw q = a /\ qw q * qw q - qy q * qy q = c.
Proof.
  intros Hac. unfold Mat4.setFromRotationMatrix.
  cbn [m11 m12 m13 m21 m22 m23 m31 m32 m33]. cbv zeta.
  assert (Hc : -1 <= c <= 1) by (split; nra).
  destruct (Rlt_dec 0 (c + 1 + c)) as [Htr | Htr].
  - set (r := sqrt (c + 1 + c + 1)).
    assert (Hr0 : 0 < r) by (apply sqrt_lt_R0; lra).
    assert (Hrr : r * r = c + 1 + c + 1) by (apply sqrt_sqrt; lra).
    unfold Quat.lengthSq. cbn [qx qy qz qw].
    assert (H4 : r * r * r * r = (c + 1 + c + 1) * (c + 1 + c + 1))
      by (rewrite <- Hrr; ring).
    split; [| split; [ring | split; [ring | split; [field; lra |]]]].
    + transitivity ((4 * a * a + r * r * r * r) / (4 * (r * r)));
        [field; lra |].
      assert (E : 4 * a * a + r * r * r * r = 4 * (r * r)) by nra.
      rewrite E. field. lra.
    + transitivity ((r * r * r * r - 4 * a * a) / (4 * (r * r)));
        [field; lra |].
      assert (E : r * r * r * r - 4 * a * a = c * (4 * (r * r))) by nra.
      rewrite E. field. lra.
  - unfold JsNumber.gt.
    destruct (Rlt_dec 1 c) as [F | _]; [lra |]. cbn [andb].
    destruct (Rlt_dec c 1) as [_ | F]; [| lra].
    set (r := sqrt (1 + 1 - c - c)).
    assert (Hr0 : 0 < r) by (apply sqrt_lt_R0; lra).
    assert (Hrr : r * r = 1 + 1 - c - c) by (apply sqrt_sqrt; lra).
    unfold Quat.lengthSq. cbn [qx qy qz qw].
    assert (H4 : r * r * r * r = (1 + 1 - c - c) * (1 + 1 - c - c))
      by (rewrite <- Hrr; ring).
    split; [| split; [field; lra | split; [field; lra | split; [field; lra |]]]].
    + transitivity ((r * r * r * r + 4 * a * a) / (4 * (r * r)));
        [field; lra |].
      assert (E : r * r * r * r + 4 * a * a = 4 * (r * r)) by nra.
      rewrite E. field. lra.
    + transitivity ((4 * a * a - r * r * r * r) / (4 * (r * r)));
        [field; lra |].
      assert (E : 4 * a * a - r * r * r * r = c * (4 * (r * r))) by nra.
      rewrite E. field. lra.
Qed.

Lemma destRestingRot_unit (p : PhotoFrame.Props) :
  Quat.lengthSq (RestingRot.destRestingRot p) = 1.
Proof.
  unfold RestingRot.destRestingRot.
  destruct (TreeState_eqb (PhotoFrame.treeState p) FORMED).
  - cbv zeta. apply rotateY_unit. unfold RestingRot.lookAt.
    destruct (lookAt_level (PhotoFrame.position (PhotoFrame.data p)))
      as (a & c & Hac & _ & ->).
    now destruct (yaw_quaternion a c Hac) as (H & _).
  - apply setFromEuler_unit.
Qed.

Lemma resting_rot_approaches (rel : Release) (p : PhotoFrame.Props)
    (dt : R) (q0 : Quaternion) :
  0 < dt -> dt * (5/2) <= 1 -> Quat.lengthSq q0 = 1 ->
  Turning.approaches (fun n => RestingRot.frames rel n p dt q0)
                     (RestingRot.destRestingRot p).
Proof.
  intros Hdt Hk Hq0.
  apply run_approaches with (eps := Turning.guard rel) (t := dt * (25/10)).
  - apply guard_pos.
  - lra.
  - apply destRestingRot_unit.
  - exact Hq0.
  - intros n Hn. cbn [RestingRot.frames]. unfold RestingRot.useFrame.
    cbn [negb]. apply slerp_turns; [lra | exact Hn | apply destRestingRot_unit].
Qed.

(** C2, as stated, fails: at the constant positive [dt] of one second the
    foliage progress, started at 0 with target 1, is 2.5 after one tick;
    it has passed its target, so it does not approach it without
    overshoot. *)
Lemma damping_overshoots_at_long_frames :
  Foliage.progressRef (Foliage.frames 0 FORMED 1 Foliage.initial) = 0 /\
  Foliage.progressRef (Foliage.frames 1 FORMED 1 Foliage.initial) = 5/2 /\
  ~ Damping.approaches
      (fun n => Foliage.progressRef (Foliage.frames n FORMED 1 Foliage.initial)) 1.
Proof.
  assert (H1 : Foliage.progressRef (Foliage.frames 1 FORMED 1 Foliage.initial) = 5/2).
  { simpl. unfold MathUtils.lerp. lra. }
  split; [reflexivity | split; [exact H1 |]].
  intros (_ & Hside & _).
  destruct (Hside O) as [Hup _]. rewrite H1 in Hup. simpl in Hup. lra.
Qed.

(** C2 (amended): for a fixed target and repeated ticks at a constant
    positive [dt] that keeps the interpolation factor [rate * dt] at most
    1 (rate 2.5 for the foliage progress and the resting pose, 2 for the
    flip progress), each damped value approaches its target.  A scalar
    (the foliage progress, each coordinate of the resting position, the
    flip progress): its distance to the target never grows, it never
    passes the target, and it is within [1e-3] of the target after
    finitely many ticks.  The resting orientation, under either release
    of [Quaternion.slerp] and from any unit quaternion: it stays a unit
    quaternion, its half angle to the target orientation never grows, no
    tick carries it past the target, and after finitely many ticks every
    component is within [1e-3] of the target quaternion or of its
    negative, which is the same orientation.  The target of the foliage
    progress and of the resting pose is fixed by the signal; the target
    of the flip progress is fixed when the frame is focused or not
    flipped (an unfocused frame resets [isFlipped] itself). *)
Theorem damped_values_approach_target (dt : R) :
  0 < dt ->
  (dt * (5/2) <= 1 ->
   (forall ts s0,
      Damping.approaches
        (fun n => Foliage.progressRef (Foliage.frames n ts dt s0))
        (Damping.target01 (TreeState_eqb ts FORMED))) /\
   (forall p c s0 proj, proj = vx \/ proj = vy \/ proj = vz ->
      Damping.approaches
        (fun n => proj (PhotoFrame.currentRestingPos (PhotoFrame.frames n p c dt s0)))
        (proj (PhotoFrame.destRestingPos p))) /\
   (forall rel p q0, Quat.lengthSq q0 = 1 ->
      Quat.lengthSq (RestingRot.destRestingRot p) = 1 /\
      Turning.approaches
        (fun n => RestingRot.frames rel n p dt q0)
        (RestingRot.destRestingRot p))) /\
  (dt * 2 <= 1 ->
   forall p c s0,
     PhotoFrame.isFocused p = true \/ PhotoFrame.isFlipped s0 = false ->
     Damping.approaches
       (fun n => PhotoFrame.flipProgress (PhotoFrame.frames n p c dt s0))
       (Damping.target01 (PhotoFrame.isFlipped s0))).
Proof.
  intros Hdt. split; [intros Hk; split; [| split] |].
  - intros ts s0. apply contraction_approaches with (a := dt * (5/2)); [lra |].
    intros n. apply foliage_frames_step.
  - intros p c s0 proj Hproj.
    apply contraction_approaches with (a := dt * (25/10)); [lra |].
    intros n. now apply photo_resting_step.
  - intros rel p q0 Hq0. split; [apply destRestingRot_unit |].
    now apply resting_rot_approaches.
  - intros Hk p c s0 Hfix.
    apply contraction_approaches with (a := dt * 2); [lra |].
    intros n. now apply photo_flip_step.
Qed.

Lemma damped_values_approach_target_witness :
  0 < 1/60 /\
  Damping.approaches
    (fun n => Foliage.progressRef (Foliage.frames n FORMED (1/60) Foliage.initial))
    (Damping.target01 (TreeState_eqb FORMED FORMED)) /\
  (let d := PhotoFrame.mkPhotoData "photo-0" (mkVector3 (11/2) (-6) 0)
                                   (mkVector3 1 2 3) 0 in
   let p := PhotoFrame.mkProps d FORMED false false in
   Quat.lengthSq (RestingRot.initial d) = 1 /\
   Turning.approaches
     (fun n => RestingRot.frames Current n p (1/60) (RestingRot.initial d))
     (RestingRot.destRestingRot p)).
Proof.
  assert (Hdt : 0 < 1/60) by lra.
  split; [exact Hdt |].
  destruct (damped_values_approach_target (1/60) Hdt) as [Hslow _].
  assert (Hk : 1/60 * (5/2) <= 1) by lra.
  destruct (Hslow Hk) as (Hfol & _ & Hrot).
  split; [exact (Hfol FORMED Foliage.initial) |].
  intros d p.
  assert (Hq0 : Quat.lengthSq (RestingRot.initial d) = 1)
    by apply setFromEuler_unit.
  split; [exact Hq0 |].
  exact (proj2 (Hrot Current p (RestingRot.initial d) Hq0)).
Defined.

(** ** Photo frame: clearing *)

(** C5: in a frame callback that runs while the clearing flag is set,
    [visibilityScale] is lerped towards 0 with factor [3 * delta] and a
    blur is emitted exactly when the frame is the focused one; while the
    flag is not set, [visibilityScale] is 1 after the callback and nothing
    is emitted.  While clearing, a click emits no focus request and
    changes nothing. *)
Theorem clearing_damps_and_unfocuses
    (p : PhotoFrame.Props) (c : PhotoFrame.Camera) (delta : R)
    (s : PhotoFrame.State) :
  let r := PhotoFrame.useFrame true p c delta s in
  (PhotoFrame.isClearing p = true ->
     PhotoFrame.visibilityScale (fst r)
     = MathUtils.lerp (PhotoFrame.visibilityScale s) 0 (delta * 3) /\
     PhotoFrame.visibilityScale (fst r)
     = (1 - 3 * delta) * PhotoFrame.visibilityScale s /\
     (PhotoFrame.isFocused p = true ->
        snd r = [PhotoFrame.OnBlur PhotoFrame.FromClearing]) /\
     (PhotoFrame.isFocused p = false -> snd r = []) /\
     (forall w : PhotoFrame.Timers,
        PhotoFrame.handleClick p (s, w) = (s, w, []))) /\
  (PhotoFrame.isClearing p = false ->
     PhotoFrame.visibilityScale (fst r) = 1 /\ snd r = []).
Proof.
  intros r. unfold r, PhotoFrame.useFrame, PhotoFrame.handleClick. simpl.
  split; intros Hc; rewrite Hc; simpl.
  - split; [reflexivity |].
    split; [unfold MathUtils.lerp; ring |].
    split; [| split].
    + intros ->. reflexivity.
    + intros ->. reflexivity.
    + reflexivity.
  - split; reflexivity.
Qed.

Lemma clearing_damps_and_unfocuses_witness :
  let p := PhotoFrame.mkProps
             (PhotoFrame.mkPhotoData "photo-0" (mkVector3 7 (-6) 0) (mkVector3 1 2 3) 0)
             FORMED true true in
  let c := PhotoFrame.mkCamera 45 1 (mkVector3 0 0 0) in
  let s := PhotoFrame.initial (PhotoFrame.data p) in
  let r := PhotoFrame.useFrame true p c (1/60) s in
  PhotoFrame.visibilityScale (fst r) = (1 - 3 * (1/60)) * 1 /\
  snd r = [PhotoFrame.OnBlur PhotoFrame.FromClearing].
Proof.
  intros p c s r.
  destruct (clearing_damps_and_unfocuses p c (1/60) s) as [Hset _].
  destruct (Hset eq_refl) as (_ & Hvis & Hblur & _ & _).
  split; [exact Hvis | exact (Hblur eq_refl)].
Defined.

(** ** Photo frame: the deferred blur *)

Section Timeouts.

Import PhotoFrame Gestures.

Lemma elapse_idle (ms : nat) (s : State) (w : Timers) :
  pending w = ∅ ->
  elapse ms (s, w) = (s, mkTimers (now w + ms) ∅ (nextHandle w), []).
Proof.
  intros Hw. unfold elapse. rewrite Hw, !map_filter_empty, map_to_list_empty.
  reflexivity.
Qed.

Lemma elapse_before (ms h d : nat) (s : State) (w : Timers) :
  pending w = {[ h := d ]} -> (now w + ms < d)%nat ->
  elapse ms (s, w) = (s, mkTimers (now w + ms) {[ h := d ]} (nextHandle w), []).
Proof.
  intros Hw Hlt. unfold elapse. rewrite Hw, !map_filter_singleton. simpl.
  repeat case_decide; try lia.
  rewrite map_to_list_empty. reflexivity.
Qed.

Lemma elapse_due (ms h d : nat) (s : State) (w : Timers) :
  pending w = {[ h := d ]} -> (d <= now w + ms)%nat ->
  elapse ms (s, w)
  = (setClickTimeoutRef None s, mkTimers (now w + ms) ∅ (nextHandle w),
     [OnBlur (FromTimer h)]).
Proof.
  intros Hw Hle. unfold elapse. rewrite Hw, !map_filter_singleton. simpl.
  repeat case_decide; try lia.
  rewrite map_to_list_singleton. reflexivity.
Qed.

Lemma useFrame_keeps_ref (a : bool) (p : Props) (c : Camera) (delta : R)
    (s : State) :
  clickTimeoutRef (fst (useFrame a p c delta s)) = clickTimeoutRef s.
Proof. unfold useFrame. destruct a; reflexivity. Qed.

Lemma tracked_initial (d : PhotoData) : tracked (initial d, noTimers).
Proof. reflexivity. Qed.

Lemma tracked_step (e : Event) (sw : State * Timers) :
  tracked sw -> tracked (fst (step e sw)).
Proof.
  destruct sw as [s w]. unfold tracked.
  destruct e as [p | p | p | a p c delta | ms]; cbn -[elapse].
  - (* click *)
    destruct (isClearing p); [auto |].
    destruct (isFocused p); simpl; [| auto].
    destruct (clickTimeoutRef s) as [h |] eqn:Href; simpl.
    + rewrite Href. auto.
    + intros Hw. exists (now w + 250)%nat. rewrite Hw, insert_empty.
      repeat split; lia.
  - (* double click *)
    destruct (clickTimeoutRef s) as [h |] eqn:Href.
    + intros (d & Hw & _ & _).
      assert (Hdel : pending (clearTimeout h w) = ∅).
      { simpl. rewrite Hw. apply delete_singleton_eq. }
      destruct (isFocused p); simpl; rewrite Hw; apply delete_singleton_eq.
    + intros Hw. destruct (isFocused p); simpl; rewrite Href; exact Hw.
  - (* pointer missed *)
    destruct (isFocused p); auto.
  - (* frame *)
    pose proof (useFrame_keeps_ref a p c delta s) as Hk.
    destruct (useFrame a p c delta s) as [s' out]. simpl in *.
    rewrite Hk. auto.
  - (* time passes *)
    destruct (clickTimeoutRef s) as [h |] eqn:Href.
    + intros (d & Hw & Hnow & Hh).
      destruct (le_lt_dec d (now w + ms)) as [Hdue | Hnot].
      * rewrite (elapse_due ms h d s w Hw Hdue). reflexivity.
      * rewrite (elapse_before ms h d s w Hw Hnot). simpl. rewrite Href.
        exists d. auto.
    + intros Hw. rewrite (elapse_idle ms s w Hw). simpl. now rewrite Href.
Qed.

Lemma tracked_run (es : list Event) (sw : State * Timers) :
  tracked sw -> tracked (fst (run es sw)).
Proof.
  revert sw. induction es as [| e es IH]; intros sw Hsw; [exact Hsw |].
  simpl. pose proof (tracked_step e sw Hsw) as H1.
  destruct (step e sw) as [sw1 out1]. simpl in H1.
  specialize (IH sw1 H1). destruct (run es sw1) as [sw2 out2]. exact IH.
Qed.

Lemma tracked_after (d : PhotoData) (es : list Event) : tracked (after d es).
Proof. apply tracked_run, tracked_initial. Qed.

End Timeouts.

Section Clicks.

Import PhotoFrame Gestures.

Lemma run_cons_out (e : Event) (es : list Event) (sw : State * Timers) :
  snd (run (e :: es) sw) = snd (step e sw) ++ snd (run es (fst (step e sw))).
Proof.
  cbn [run]. destruct (step e sw) as [sw1 out1]. cbn [fst snd].
  destruct (run es sw1) as [sw2 out2]. reflexivity.
Qed.

Lemma waiting_idle (waits : list nat) (s : State) (w : Timers) :
  pending w = ∅ -> snd (run (waiting waits) (s, w)) = [].
Proof.
  revert w. induction waits as [| ms waits IH]; intros w Hw; [reflexivity |].
  change (waiting (ms :: waits)) with (EvElapse ms :: waiting waits).
  rewrite run_cons_out. cbn [step]. rewrite (elapse_idle ms s w Hw).
  cbn [fst snd app]. now apply IH.
Qed.

(** C3, as stated, fails in two places.  While clearing is active a click
    on the focused frame arms nothing, so no blur fires 250ms later.  And a
    double-click on a frame that is no longer focused does act: here the
    frame is focused by a click, a second click arms the deferred blur,
    100ms later a click beside the frame makes it lose focus, and the
    double-click that follows cancels the blur that would otherwise have
    fired 150ms later. *)
Lemma click_claim_fails :
  let d := mkPhotoData "photo-0" (mkVector3 7 (-6) 0) (mkVector3 1 2 3) 0 in
  let unfocused := mkProps d FORMED false false in
  let focused := mkProps d FORMED true false in
  let focusedClearing := mkProps d FORMED true true in
  (* clearing: the click arms no deferred blur *)
  (let r := handleClick focusedClearing (after d [EvClick unfocused]) in
   pending (snd (fst r)) = ∅ /\ snd (elapse 250 (fst r)) = []) /\
  (* unfocused double-click: the pending blur is cancelled *)
  (let sw1 := after d [EvClick unfocused; EvClick focused; EvElapse 100;
                       EvPointerMissed focused] in
   let r := handleDoubleClick unfocused sw1 in
   pending (snd sw1) = {[ 1%nat := 250%nat ]} /\
   snd (elapse 150 sw1) = [OnBlur (FromTimer 1)] /\
   fst r <> sw1 /\
   pending (snd (fst r)) = ∅ /\
   snd (elapse 150 (fst r)) = []).
Proof.
  intros d unfocused focused focusedClearing. split.
  - cbn -[elapse]. split; [reflexivity |].
    now rewrite elapse_idle.
  - intros sw1 r.
    assert (Hsw1 : sw1 = (setClickTimeoutRef (Some 1%nat) (initial d),
                          mkTimers 100 {[ 1%nat := 250%nat ]} 2)).
    { unfold sw1, after. cbn -[elapse]. rewrite insert_empty.
      erewrite elapse_before; [reflexivity | reflexivity | simpl; lia]. }
    assert (Hr : fst r = (setClickTimeoutRef None (setClickTimeoutRef (Some 1%nat) (initial d)),
                          mkTimers 100 (delete 1%nat {[ 1%nat := 250%nat ]}) 2)).
    { unfold r. rewrite Hsw1. reflexivity. }
    assert (Hgone : delete 1%nat ({[ 1%nat := 250%nat ]} : gmap nat nat) = ∅)
      by apply delete_singleton_eq.
    rewrite Hr, Hsw1. cbn [fst snd pending].
    split; [reflexivity |].
    split; [erewrite elapse_due; [reflexivity | reflexivity | simpl; lia] |].
    split; [intros Heq; inversion Heq |].
    split; [exact Hgone |].
    rewrite elapse_idle; [reflexivity | exact Hgone].
Qed.

(** C3 (amended): for a frame that is focused, while no clearing is
    active and no deferred blur is pending, a click emits nothing and arms
    one timeout 250ms ahead; if nothing else happens no blur is emitted
    before 250ms have passed, and exactly one once they have.  If instead
    the second click and the double-click arrive within the 250ms, the
    click changes nothing, and the double-click emits nothing, cancels the
    timeout, toggles [isFlipped], and no blur is emitted however long one
    waits afterwards.  A double-click on a frame that is not focused emits
    nothing and leaves [isFlipped] and every other field as they are,
    except that it cancels a pending deferred blur; when none is pending it
    changes nothing at all. *)
Theorem focused_click_defers_blur
    (d0 : PhotoData) (es : list Event) (p : Props) :
  let sw := after d0 es in
  (isFocused p = true -> isClearing p = false ->
   clickTimeoutRef (fst sw) = None ->
   let r1 := handleClick p sw in
   let h := nextHandle (snd sw) in
   snd r1 = [] /\
   clickTimeoutRef (fst (fst r1)) = Some h /\
   pending (snd (fst r1)) = {[ h := (now (snd sw) + 250)%nat ]} /\
   (forall ms, (ms < 250)%nat -> snd (elapse ms (fst r1)) = []) /\
   (forall ms, (250 <= ms)%nat ->
      snd (elapse ms (fst r1)) = [OnBlur (FromTimer h)]) /\
   (forall ms p2, (ms < 250)%nat -> isFocused p2 = true ->
      let sw2 := fst (elapse ms (fst r1)) in
      let r3 := handleDoubleClick p2 sw2 in
      handleClick p2 sw2 = (sw2, []) /\
      snd r3 = [] /\
      isFlipped (fst (fst r3)) = negb (isFlipped (fst sw)) /\
      clickTimeoutRef (fst (fst r3)) = None /\
      pending (snd (fst r3)) = ∅ /\
      (forall waits, snd (run (waiting waits) (fst r3)) = []))) /\
  (isFocused p = false ->
   let r := handleDoubleClick p sw in
   snd r = [] /\
   fst (fst r) = setClickTimeoutRef None (fst sw) /\
   isFlipped (fst (fst r)) = isFlipped (fst sw) /\
   pending (snd (fst r)) = ∅ /\
   (clickTimeoutRef (fst sw) = None -> fst r = sw)).
Proof.
  intros sw. pose proof (tracked_after d0 es) as Htr. fold sw in Htr.
  clearbody sw. destruct sw as [s w]. unfold tracked in Htr.
  cbn [fst snd] in *. split.
  - intros Hf Hc Href. rewrite Href in Htr.
    cbn -[elapse]. rewrite Hc, Hf, Href. cbn -[elapse].
    rewrite Htr, insert_empty.
    set (h := nextHandle w). set (dl := (now w + 250)%nat).
    set (w1 := mkTimers (now w) {[ h := dl ]} (S h)).
    set (s1 := setClickTimeoutRef (Some h) s).
    assert (Hw1 : pending w1 = {[ h := dl ]}) by reflexivity.
    split; [reflexivity |]. split; [reflexivity |]. split; [reflexivity |].
    split; [| split].
    + intros ms Hms. rewrite (elapse_before ms h dl s1 w1 Hw1); [reflexivity |].
      unfold dl. simpl. lia.
    + intros ms Hms. rewrite (elapse_due ms h dl s1 w1 Hw1); [reflexivity |].
      unfold dl. simpl. lia.
    + intros ms p2 Hms Hf2.
      rewrite (elapse_before ms h dl s1 w1 Hw1) by (unfold dl; simpl; lia).
      cbn -[elapse]. rewrite Hf2. cbn -[elapse].
      assert (Hdel : delete h ({[ h := dl ]} : gmap nat nat) = ∅)
        by apply delete_singleton_eq.
      split; [destruct (isClearing p2); reflexivity |].
      split; [reflexivity |]. split; [reflexivity |]. split; [reflexivity |].
      split; [exact Hdel |].
      intros waits. apply waiting_idle. exact Hdel.
  - intros Hf. cbn -[elapse].
    destruct (clickTimeoutRef s) as [h |] eqn:Href; rewrite Hf; cbn -[elapse].
    + destruct Htr as (d & Hw & _ & _).
      split; [reflexivity |]. split; [reflexivity |]. split; [reflexivity |].
      split; [rewrite Hw; apply delete_singleton_eq | intros Hn; discriminate Hn].
    + split; [reflexivity |].
      split; [destruct s; simpl in *; now rewrite Href |].
      split; [reflexivity |]. split; [exact Htr | reflexivity].
Qed.

Lemma focused_click_defers_blur_witness :
  let d := mkPhotoData "photo-0" (mkVector3 7 (-6) 0) (mkVector3 1 2 3) 0 in
  let p := mkProps d FORMED true false in
  let sw := after d [EvClick (mkProps d FORMED false false)] in
  snd (handleClick p sw) = [] /\
  snd (elapse 249 (fst (handleClick p sw))) = [] /\
  snd (elapse 250 (fst (handleClick p sw))) = [OnBlur (FromTimer 1)].
Proof.
  intros d p sw.
  destruct (focused_click_defers_blur d [EvClick (mkProps d FORMED false false)] p)
    as [Hclick _].
  destruct (Hclick eq_refl eq_refl eq_refl) as (Hout & _ & _ & Hearly & Hlate & _).
  split; [exact Hout |].
  split; [apply Hearly; lia | apply (Hlate 250%nat); lia].
Defined.

End Clicks.

Section Teardown.

Import PhotoFrame Gestures Emissions.

Ltac no_timer_blur :=
  repeat (apply Forall_cons_2; [first [discriminate | congruence] |]);
  apply Forall_nil_2.

Lemma spent_step (h : nat) (e : Event) (sw : State * Timers) :
  tracked sw -> spent h sw ->
  spent h (fst (step e sw)) /\ never_from h (snd (step e sw)).
Proof.
  destruct sw as [s w]. unfold tracked, spent, never_from.
  cbn [fst snd]. intros Htr [Hh Hlt].
  destruct e as [p | p | p | a p c delta | ms]; cbn -[elapse useFrame].
  - (* click *)
    destruct (isClearing p); cbn.
    { split; [split; assumption | no_timer_blur]. }
    destruct (isFocused p); cbn.
    + destruct (clickTimeoutRef s) as [h0 |]; cbn.
      * split; [split; assumption | no_timer_blur].
      * split; [split; [| lia] | no_timer_blur].
        rewrite lookup_insert_ne by lia. exact Hh.
    + split; [split; assumption | no_timer_blur].
  - (* double click *)
    destruct (clickTimeoutRef s) as [h0 |];
      destruct (isFocused p); cbn.
    all: split; [split; [| assumption] | no_timer_blur].
    all: first [assumption | apply lookup_delete_None; auto].
  - (* pointer missed *)
    destruct (isFocused p); cbn; (split; [split; assumption | no_timer_blur]).
  - (* frame *)
    unfold useFrame. destruct a; cbn; [| split; [split; assumption | no_timer_blur]].
    split; [split; assumption |].
    destruct (isClearing p && isFocused p); no_timer_blur.
  - (* time passes *)
    destruct (clickTimeoutRef s) as [h0 |].
    + destruct Htr as (d & Hw & Hnow & Hh0).
      assert (Hne : h0 <> h).
      { intros ->. rewrite Hw, lookup_singleton_eq in Hh. discriminate Hh. }
      destruct (le_lt_dec d (now w + ms)) as [Hdue | Hnot].
      * rewrite (elapse_due ms h0 d s w Hw Hdue). cbn.
        split; [split; [apply lookup_empty | assumption] | no_timer_blur].
      * rewrite (elapse_before ms h0 d s w Hw Hnot). cbn.
        rewrite <- Hw. split; [split; assumption | no_timer_blur].
    + rewrite (elapse_idle ms s w Htr). cbn.
      split; [split; [apply lookup_empty | assumption] | no_timer_blur].
Qed.

Lemma spent_run (h : nat) (es : list Event) (sw : State * Timers) :
  tracked sw -> spent h sw -> never_from h (snd (run es sw)).
Proof.
  revert sw. induction es as [| e es IH]; intros sw Htr Hsp; [constructor |].
  rewrite run_cons_out.
  destruct (spent_step h e sw Htr Hsp) as [Hsp1 Hout].
  apply Forall_app. split; [exact Hout |].
  apply IH; [now apply tracked_step | exact Hsp1].
Qed.

(** C9: in every state a mounted frame can reach, the cleanup on unmount
    leaves no timeout pending, and however time passes afterwards no blur
    is emitted.  Whenever a deferred blur is pending, its handle is the one
    in [clickTimeoutRef]; a double-click then cancels it, and in no run of
    events after the double-click does the timeout of that handle emit a
    blur. *)
Theorem deferred_blur_is_cancelled (d0 : PhotoData) (es : list Event) :
  let sw := after d0 es in
  (pending (snd (unmount sw)) = ∅ /\
   forall waits, snd (run (waiting waits) (unmount sw)) = []) /\
  (forall h d, pending (snd sw) !! h = Some d ->
     clickTimeoutRef (fst sw) = Some h /\
     spent h (unmount sw) /\
     forall p es',
       let r := handleDoubleClick p sw in
       snd r = [] /\
       clickTimeoutRef (fst (fst r)) = None /\
       pending (snd (fst r)) = ∅ /\
       never_from h (snd (run es' (fst r)))).
Proof.
  intros sw. pose proof (tracked_after d0 es) as Htr. fold sw in Htr.
  clearbody sw. destruct sw as [s w]. unfold tracked in Htr.
  cbn [fst snd] in *.
  assert (Hun : pending (snd (unmount (s, w))) = ∅).
  { unfold unmount. destruct (clickTimeoutRef s) as [h0 |]; cbn.
    - destruct Htr as (d & Hw & _). rewrite Hw. apply delete_singleton_eq.
    - exact Htr. }
  split.
  - split; [exact Hun |]. intros waits.
    destruct (unmount (s, w)) as [s' w'] eqn:Hu. apply waiting_idle. exact Hun.
  - intros h d Hpend.
    destruct (clickTimeoutRef s) as [h0 |] eqn:Href;
      [| rewrite Htr, lookup_empty in Hpend; discriminate Hpend].
    destruct Htr as (d0' & Hw & Hnow & Hh0).
    rewrite Hw in Hpend. apply lookup_singleton_Some in Hpend as [<- <-].
    split; [reflexivity |].
    split.
    + unfold spent, unmount. rewrite Href. cbn. rewrite Hw.
      split; [now rewrite delete_singleton_eq, lookup_empty | exact Hh0].
    + intros p es'. set (r := handleDoubleClick p (s, w)).
      assert (Hr : fst r = (if isFocused p
                            then setIsFlipped (negb (isFlipped s))
                                              (setClickTimeoutRef None s)
                            else setClickTimeoutRef None s,
                            clearTimeout h0 w) /\ snd r = []).
      { unfold r, handleDoubleClick. rewrite Href.
        destruct (isFocused p); split; reflexivity. }
      destruct Hr as [Hr Hout].
      assert (Hdel : pending (clearTimeout h0 w) = ∅).
      { cbn. rewrite Hw. apply delete_singleton_eq. }
      split; [exact Hout |]. rewrite Hr. cbn [fst snd].
      split; [destruct (isFocused p); reflexivity |].
      split; [exact Hdel |].
      apply spent_run.
      * unfold tracked. cbn [fst snd].
        destruct (isFocused p); cbn; rewrite Hw; apply delete_singleton_eq.
      * unfold spent. cbn [fst snd]. rewrite Hdel.
        split; [apply lookup_empty | exact Hh0].
Qed.

Lemma deferred_blur_is_cancelled_witness :
  let d := mkPhotoData "photo-0" (mkVector3 7 (-6) 0) (mkVector3 1 2 3) 0 in
  let p := mkProps d FORMED true false in
  let sw := after d [EvClick p] in
  pending (snd sw) !! 1%nat = Some 250%nat /\
  clickTimeoutRef (fst sw) = Some 1%nat /\
  never_from 1 (snd (run [EvElapse 300; EvClick p; EvElapse 300]
                         (fst (handleDoubleClick p sw)))).
Proof.
  intros d p sw.
  assert (Hpend : pending (snd sw) !! 1%nat = Some 250%nat) by reflexivity.
  destruct (deferred_blur_is_cancelled d [EvClick p]) as [_ Hcancel].
  destruct (Hcancel 1%nat 250%nat Hpend) as (Href & _ & Hdbl).
  split; [exact Hpend |]. split; [exact Href |].
  destruct (Hdbl p [EvElapse 300; EvClick p; EvElapse 300]) as (_ & _ & _ & Hnever).
  exact Hnever.
Defined.

End Teardown.

(** ** Star centerpiece *)

Lemma sign_pos (x : R) : 0 < x -> MathUtils.sign x = 1.
Proof.
  intros Hx. unfold MathUtils.sign. destruct (Rlt_dec 0 x); [reflexivity | lra].
Qed.

Lemma sign_neg (x : R) : x < 0 -> MathUtils.sign x = -1.
Proof.
  intros Hx. unfold MathUtils.sign.
  destruct (Rlt_dec 0 x); [lra |]. destruct (Rlt_dec x 0); [reflexivity | lra].
Qed.

Lemma advance_far (ts : TreeState) (delta p : R) :
  0 <= p <= 1 ->
  1/10000 < Rabs (Damping.target01 (TreeState_eqb ts FORMED) - p) ->
  Star.advance ts delta p = Star.linearMove ts delta p.
Proof.
  intros Hp Hfar. unfold Star.advance, Star.linearMove, Damping.target01 in *.
  destruct (TreeState_eqb ts FORMED).
  - destruct (Rlt_dec (1 / 10000) (Rabs (1 - p))) as [_ | Hn]; [| lra].
    rewrite sign_pos; [reflexivity |].
    unfold Rabs in Hfar. destruct (Rcase_abs (1 - p)); lra.
  - destruct (Rlt_dec (1 / 10000) (Rabs (0 - p))) as [_ | Hn]; [| lra].
    rewrite sign_neg; [reflexivity |].
    unfold Rabs in Hfar. destruct (Rcase_abs (0 - p)); lra.
Qed.

Lemma advance_near (ts : TreeState) (delta p : R) :
  Rabs (Damping.target01 (TreeState_eqb ts FORMED) - p) <= 1/10000 ->
  Star.advance ts delta p = Damping.target01 (TreeState_eqb ts FORMED).
Proof.
  intros Hnear. unfold Star.advance, Damping.target01 in *.
  destruct (TreeState_eqb ts FORMED).
  - destruct (Rlt_dec (1 / 10000) (Rabs (1 - p))); [lra | reflexivity].
  - destruct (Rlt_dec (1 / 10000) (Rabs (0 - p))); [lra | reflexivity].
Qed.

Lemma advance_unit (ts : TreeState) (delta p : R) :
  0 <= Star.advance ts delta p <= 1.
Proof.
  unfold Star.advance.
  match goal with |- context [Rlt_dec ?a ?b] => destruct (Rlt_dec a b) end.
  - apply clamp_unit.
  - destruct (TreeState_eqb ts FORMED); lra.
Qed.

(** C7, as stated, fails in two places.  The scalar does not always
    move at the rate 1/1.5: at 0.99995 with the signal FORMED and a frame
    of 0.00001s the linear, clamped move gives a value below 1, but the
    code sets the scalar to 1.  And the point light does not follow the
    scalar from frame to frame: its intensity is computed when the
    component renders, so after the signal turns FORMED and one frame of
    0.3s the progress is 0.2 while the intensity is still 0. *)
Lemma star_claim_fails :
  (let p := 99995/100000 in
   let delta := 1/100000 in
   Star.linearMove FORMED delta p < 1 /\
   Star.advance FORMED delta p = 1 /\
   Star.advance FORMED delta p <> Star.linearMove FORMED delta p) /\
  (let s1 := Star.useFrame true FORMED 0 (3/10) (Star.render Star.initial) in
   Star.progress s1 = 1/5 /\
   Star.pointLightIntensity s1 = 0 /\
   Star.pointLightIntensity s1 <> 2 * Star.progress s1).
Proof.
  split.
  - intros p delta.
    assert (Hlin : Star.linearMove FORMED delta p < 1).
    { unfold Star.linearMove, MathUtils.clamp, p, delta. simpl.
      apply Rmax_lub_lt; [lra |].
      eapply Rle_lt_trans; [apply Rmin_r | lra]. }
    assert (Hadv : Star.advance FORMED delta p = 1).
    { apply (advance_near FORMED). unfold Damping.target01, p. simpl.
      rewrite Rabs_pos_eq; lra. }
    split; [exact Hlin |]. split; [exact Hadv |]. rewrite Hadv. lra.
  - intros s1.
    assert (Hp : Star.progress s1 = 1/5).
    { unfold s1. cbn [Star.useFrame negb Star.progress Star.render Star.initial].
      rewrite advance_far; [| lra |].
      - unfold Star.linearMove, MathUtils.clamp. simpl.
        rewrite Rmin_right by lra. rewrite Rmax_right by lra. lra.
      - unfold Damping.target01. simpl. rewrite Rabs_pos_eq; lra. }
    assert (Hl : Star.pointLightIntensity s1 = 0).
    { unfold s1. cbn. lra. }
    split; [exact Hp |]. split; [exact Hl |]. rewrite Hl, Hp. lra.
Qed.

(** C7 (amended): in every frame callback, from a progress in [0,1]: when
    the progress is more than 1e-4 away from its target (1 if FORMED, 0 if
    CHAOS) it moves towards the target by [delta / 1.5], clamped to [0,1];
    otherwise it is set to the target.  The new progress is in [0,1]; the
    material opacity is its smoothstep, the emissive intensity twice the
    smoothstep, the group is visible iff the smoothstep exceeds 0.01, and
    its scale is [1.5 - 0.5 * smoothstep]. *)
Theorem star_frame_follows_progress
    (ts : TreeState) (elapsedTime delta : R) (s : Star.State) :
  0 <= Star.progress s <= 1 ->
  let s' := Star.useFrame true ts elapsedTime delta s in
  let target := Damping.target01 (TreeState_eqb ts FORMED) in
  let smooth := MathUtils.smoothstep (Star.progress s') 0 1 in
  (1/10000 < Rabs (target - Star.progress s) ->
     Star.progress s' = Star.linearMove ts delta (Star.progress s)) /\
  (Rabs (target - Star.progress s) <= 1/10000 -> Star.progress s' = target) /\
  0 <= Star.progress s' <= 1 /\
  Star.opacity s' = smooth /\
  Star.emissiveIntensity s' = 2 * smooth /\
  (Star.visible s' = true <-> 1/100 < smooth) /\
  Star.scale s' = 15/10 - 5/10 * smooth.
Proof.
  intros Hp s' target smooth. unfold s', Star.useFrame. cbn [negb Star.progress
    Star.opacity Star.emissiveIntensity Star.visible Star.scale].
  split; [intros Hfar; now apply advance_far |].
  split; [intros Hnear; now apply advance_near |].
  split; [apply advance_unit |].
  split; [reflexivity |]. split; [reflexivity |]. split; [| reflexivity].
  fold s'. fold smooth.
  match goal with |- context [Rlt_dec ?a ?b] => destruct (Rlt_dec a b) as [Hv | Hv] end.
  - split; auto.
  - split; [discriminate | intros Hc; contradiction].
Qed.

Lemma star_frame_follows_progress_witness :
  0 <= Star.progress Star.initial <= 1 /\
  Star.progress (Star.useFrame true FORMED 0 (3/10) Star.initial)
  = Star.linearMove FORMED (3/10) (Star.progress Star.initial).
Proof.
  assert (H0 : 0 <= Star.progress Star.initial <= 1) by (simpl; lra).
  split; [exact H0 |].
  destruct (star_frame_follows_progress FORMED 0 (3/10) Star.initial H0) as [Hfar _].
  apply Hfar. simpl. rewrite Rabs_pos_eq; lra.
Defined.

(** ** The scene: bounds of the progress scalars *)

Section Bounds.

Import Scene.

Lemma run_invariant (P : R -> Prop) (I : State -> Prop) :
  (forall e s,
     match e with Frame t => P (delta t) | _ => True end ->
     I s -> I (step e s)) ->
  forall es s, deltas P es -> I s -> I (run es s).
Proof.
  intros Hstep es. induction es as [| e es IH]; intros s Hes Hs; [exact Hs |].
  apply Forall_cons in Hes as [He Hes].
  cbn [run fold_left]. apply IH; [exact Hes |]. now apply Hstep.
Qed.

Lemma foliage_step_bounded (e : Event) (s : State) :
  match e with Frame t => 0 <= delta t <= 2/5 | _ => True end ->
  unit_interval (Foliage.progressRef (foliage s)) ->
  unit_interval (Foliage.progressRef (foliage (step e s))).
Proof.
  unfold unit_interval. destruct e as [| t | d f c]; cbn; auto.
  intros Hd Hp. unfold Foliage.useFrame.
  destruct (shaderAttached t); cbn; [| exact Hp].
  apply lerp_unit; [lra | exact Hp |].
  destruct (TreeState_eqb (signal s) FORMED); lra.
Qed.

Lemma photo_handle_scalars (p : PhotoFrame.Props)
    (sw : PhotoFrame.State * PhotoFrame.Timers) :
  let s' := fst (fst (PhotoFrame.handleDoubleClick p sw)) in
  PhotoFrame.progress s' = PhotoFrame.progress (fst sw) /\
  PhotoFrame.flipProgress s' = PhotoFrame.flipProgress (fst sw) /\
  PhotoFrame.visibilityScale s' = PhotoFrame.visibilityScale (fst sw).
Proof.
  destruct sw as [s w]. unfold PhotoFrame.handleDoubleClick.
  destruct (PhotoFrame.clickTimeoutRef s); destruct (PhotoFrame.isFocused p);
    cbn; auto.
Qed.

Lemma flip_step_bounded (e : Event) (s : State) :
  match e with Frame t => 0 <= delta t <= 1/2 | _ => True end ->
  unit_interval (PhotoFrame.flipProgress (fst (photo s))) ->
  unit_interval (PhotoFrame.flipProgress (fst (photo (step e s)))).
Proof.
  unfold unit_interval. destruct e as [| t | d f c]; cbn -[PhotoFrame.handleDoubleClick]; auto.
  - intros Hd Hp. unfold PhotoFrame.useFrame.
    destruct (groupAttached t); cbn; [| exact Hp].
    apply lerp_unit; [lra | exact Hp |].
    destruct (PhotoFrame.isFlipped (fst (photo s))); lra.
  - intros _ Hp.
    destruct (photo_handle_scalars (PhotoFrame.mkProps d (signal s) f c) (photo s))
      as (_ & -> & _). exact Hp.
Qed.

Lemma visibility_step_bounded (e : Event) (s : State) :
  match e with Frame t => 0 <= delta t <= 1/3 | _ => True end ->
  unit_interval (PhotoFrame.visibilityScale (fst (photo s))) ->
  unit_interval (PhotoFrame.visibilityScale (fst (photo (step e s)))).
Proof.
  unfold unit_interval. destruct e as [| t | d f c]; cbn -[PhotoFrame.handleDoubleClick]; auto.
  - intros Hd Hp. unfold PhotoFrame.useFrame.
    destruct (groupAttached t); cbn; [| exact Hp].
    destruct (clearing t); [| lra].
    apply lerp_unit; [lra | exact Hp | lra].
  - intros _ Hp.
    destruct (photo_handle_scalars (PhotoFrame.mkProps d (signal s) f c) (photo s))
      as (_ & _ & ->). exact Hp.
Qed.

Lemma clamped_step_bounded (e : Event) (s : State) :
  match e with Frame t => 0 <= delta t | _ => True end ->
  clamped_bounded s -> clamped_bounded (step e s).
Proof.
  unfold clamped_bounded, unit_interval.
  destruct e as [| t | d f c]; cbn -[PhotoFrame.handleDoubleClick]; auto.
  - intros Hd [Hstar Hp]. unfold Star.useFrame, PhotoFrame.useFrame.
    split.
    + destruct (starAttached t); cbn; [apply advance_unit | exact Hstar].
    + destruct (groupAttached t); cbn; [| exact Hp].
      destruct (focused t).
      * unfold Rmin. destruct (Rle_dec 1 _); lra.
      * unfold Rmax. destruct (Rle_dec 0 _); lra.
  - intros _ [Hstar Hp]. split; [exact Hstar |].
    destruct (photo_handle_scalars (PhotoFrame.mkProps d (signal s) f c) (photo s))
      as (-> & _ & _). exact Hp.
Qed.

Lemma initial_bounded (d : PhotoFrame.PhotoData) : bounded (initial d).
Proof. unfold bounded, damped_bounded, clamped_bounded, unit_interval. cbn. lra. Qed.

(** C6, as stated, fails: after the signal turns FORMED, one frame of one
    second takes the foliage progress from 0 to 2.5, outside [0,1]. *)
Lemma long_frame_leaves_unit_interval :
  let d := PhotoFrame.mkPhotoData "photo-0" (mkVector3 7 (-6) 0) (mkVector3 1 2 3) 0 in
  let t := mkTick 1 1 true true true d false false
                  (PhotoFrame.mkCamera 45 1 (mkVector3 0 0 0)) in
  let s := run [Toggle; Frame t] (initial d) in
  Foliage.progressRef (foliage s) = 5/2 /\ ~ bounded s.
Proof.
  intros d t s.
  assert (H : Foliage.progressRef (foliage s) = 5/2).
  { unfold s. cbn. unfold MathUtils.lerp. lra. }
  split; [exact H |].
  intros [[[_ Hle] _] _]. rewrite H in Hle. lra.
Qed.

(** C6 (amended): along every sequence of signal toggles, frames and
    double-clicks from the mount, each lerped scalar stays in [0,1] as
    long as the frame deltas are non-negative and keep its lerp factor at
    most 1 (delta at most 0.4 for the foliage progress, 0.5 for the flip
    progress, 1/3 for the visibility scale), and the two clamped scalars
    (star progress, focus progress) stay in [0,1] for all non-negative
    deltas; every step of the model is a total function. *)
Theorem progress_scalars_stay_bounded
    (d : PhotoFrame.PhotoData) (es : list Event) :
  let s := run es (initial d) in
  (deltas (fun dt => 0 <= dt <= 2/5) es ->
     unit_interval (Foliage.progressRef (foliage s))) /\
  (deltas (fun dt => 0 <= dt <= 1/2) es ->
     unit_interval (PhotoFrame.flipProgress (fst (photo s)))) /\
  (deltas (fun dt => 0 <= dt <= 1/3) es ->
     unit_interval (PhotoFrame.visibilityScale (fst (photo s)))) /\
  (deltas (fun dt => 0 <= dt) es ->
     unit_interval (Star.progress (star s)) /\
     unit_interval (PhotoFrame.progress (fst (photo s)))) /\
  (deltas (fun dt => 0 <= dt <= 1/3) es -> bounded s).
Proof.
  intros s. destruct (initial_bounded d) as [(Hf & Hfl & Hv) Hc].
  assert (H1 : deltas (fun dt => 0 <= dt <= 2/5) es ->
               unit_interval (Foliage.progressRef (foliage s))).
  { intros Hes.
    apply (run_invariant _ (fun st => unit_interval (Foliage.progressRef (foliage st)))
             foliage_step_bounded es _ Hes Hf). }
  assert (H2 : deltas (fun dt => 0 <= dt <= 1/2) es ->
               unit_interval (PhotoFrame.flipProgress (fst (photo s)))).
  { intros Hes.
    apply (run_invariant _ (fun st => unit_interval (PhotoFrame.flipProgress (fst (photo st))))
             flip_step_bounded es _ Hes Hfl). }
  assert (H3 : deltas (fun dt => 0 <= dt <= 1/3) es ->
               unit_interval (PhotoFrame.visibilityScale (fst (photo s)))).
  { intros Hes.
    apply (run_invariant _ (fun st => unit_interval (PhotoFrame.visibilityScale (fst (photo st))))
             visibility_step_bounded es _ Hes Hv). }
  assert (H4 : deltas (fun dt => 0 <= dt) es -> clamped_bounded s).
  { intros Hes. apply (run_invariant _ clamped_bounded clamped_step_bounded es _ Hes Hc). }
  split; [exact H1 |]. split; [exact H2 |]. split; [exact H3 |].
  split; [exact H4 |].
  intros Hes.
  assert (Hweak : forall (P : R -> Prop),
            (forall dt, 0 <= dt <= 1/3 -> P dt) -> deltas P es).
  { intros P HP. unfold deltas in *. eapply Forall_impl; [exact Hes |].
    intros [| t | ? ? ?]; cbn; auto. }
  split; [split; [| split] |].
  - apply H1, Hweak. intros; lra.
  - apply H2, Hweak. intros; lra.
  - apply H3, Hes.
  - apply H4, Hweak. intros; lra.
Qed.

Lemma progress_scalars_stay_bounded_witness :
  let d := PhotoFrame.mkPhotoData "photo-0" (mkVector3 7 (-6) 0) (mkVector3 1 2 3) 0 in
  let t := mkTick 1 (1/60) true true true d false false
                  (PhotoFrame.mkCamera 45 1 (mkVector3 0 0 0)) in
  let es := [Toggle; Frame t; Toggle; Frame t] in
  deltas (fun dt => 0 <= dt <= 1/3) es /\ bounded (run es (initial d)).
Proof.
  intros d t es.
  assert (Hes : deltas (fun dt => 0 <= dt <= 1/3) es).
  { unfold deltas, es. repeat apply Forall_cons_2; try exact I; try apply Forall_nil_2;
      cbn; lra. }
  split; [exact Hes |].
  destruct (progress_scalars_stay_bounded d es) as (_ & _ & _ & _ & Hall).
  exact (Hall Hes).
Defined.

End Bounds.

(** ** Ornament batches *)

Section OrnamentFrames.

Import Ornaments.

Lemma loop_lookup (type : OrnamentType) (ts : TreeState) (t delta : R)
    (l : list Instance) :
  forall (k : nat) (tmp : Object3D) (i : nat) (inst : Instance),
    l !! i = Some inst ->
    let r := loop type ts t delta k tmp l in
    fst (fst r) !! i = Some (fst (stepInstance type ts t delta (k + i) inst)) /\
    snd (fst r) !! i = Some (snd (stepInstance type ts t delta (k + i) inst)).
Proof.
  induction l as [| x rest IH]; intros k tmp i inst Hi; [discriminate Hi |].
  cbn [loop].
  destruct (stepInstance type ts t delta k x) as [x' m] eqn:Hx.
  specialize (IH (S k) m).
  destruct (loop type ts t delta (S k) m rest) as [[insts ms] tmp'].
  destruct i as [| i]; cbn -[stepInstance] in Hi |- *.
  - injection Hi as <-. rewrite Nat.add_0_r, Hx. split; reflexivity.
  - specialize (IH i inst Hi). cbn -[stepInstance] in IH.
    replace (k + S i)%nat with (S (k + i))%nat by lia. exact IH.
Qed.

Lemma loop_length (type : OrnamentType) (ts : TreeState) (t delta : R)
    (l : list Instance) :
  forall (k : nat) (tmp : Object3D),
    length (fst (fst (loop type ts t delta k tmp l))) = length l /\
    length (snd (fst (loop type ts t delta k tmp l))) = length l.
Proof.
  induction l as [| x rest IH]; intros k tmp; [split; reflexivity |].
  cbn [loop].
  destruct (stepInstance type ts t delta k x) as [x' m].
  specialize (IH (S k) m).
  destruct (loop type ts t delta (S k) m rest) as [[insts ms] tmp'].
  cbn in *. destruct IH as [-> ->]. split; reflexivity.
Qed.

(** C8: a speed generated from a draw of [0,1) lies in [1,3).  In a frame
    callback, for every instance index [i] of the batch: the position is
    lerped towards the tree target (FORMED) or the chaos point (CHAOS)
    with factor [speed * delta] and written to the instance matrix; a box
    keeps its generated rotation and the generated data never changes; a
    ball or light has rotation [(0, elapsedTime * 0.1 * speed, 0)]; a light
    has uniform scale [1 + sin(elapsedTime * 5 + i) * 0.2] and every other
    type scale 1.  The batch keeps its number of instances. *)
Theorem ornament_frame_moves_each_instance
    (type : OrnamentType) (ts : TreeState) (elapsedTime delta : R)
    (s : State) :
  let s' := useFrame true type ts elapsedTime delta s in
  (forall d : Draws,
     MathUtils.unit_draw (uSpeed d) ->
     1 <= speeds (generate type d) < 3 /\
     initialRotations (generate type d)
     = mkEuler (uRotX d * PI) (uRotY d * PI) (uRotZ d * PI)) /\
  length (instances s') = length (instances s) /\
  length (instanceMatrix s') = length (instances s) /\
  (forall (i : nat) (inst : Instance),
     instances s !! i = Some inst ->
     exists (inst' : Instance) (m : Object3D),
       instances s' !! i = Some inst' /\
       instanceMatrix s' !! i = Some m /\
       currentPositions inst'
       = Vec.lerp (currentPositions inst)
                  (match ts with
                   | FORMED => targetData inst
                   | CHAOS => chaosData inst
                   end)
                  (speeds inst * delta) /\
       objPosition m = currentPositions inst' /\
       chaosData inst' = chaosData inst /\
       targetData inst' = targetData inst /\
       speeds inst' = speeds inst /\
       initialRotations inst' = initialRotations inst /\
       (type = box -> objRotation m = initialRotations inst) /\
       (type <> box ->
          objRotation m = mkEuler 0 (elapsedTime * (1/10) * speeds inst) 0) /\
       (type = light ->
          objScale m
          = setScalar (1 + sin (elapsedTime * 5 + INR i) * (2/10))) /\
       (type <> light -> objScale m = setScalar 1)).
Proof.
  intros s'. split; [| split; [| split]].
  - intros d [Hu0 Hu1]. cbn. split; [lra | reflexivity].
  - unfold s', useFrame. cbn [negb].
    pose proof (loop_length type ts elapsedTime delta (instances s) 0 (tempObject s)) as [Hl _].
    destruct (loop _ _ _ _ _ _ _) as [[insts ms] tmp]. exact Hl.
  - unfold s', useFrame. cbn [negb].
    pose proof (loop_length type ts elapsedTime delta (instances s) 0 (tempObject s)) as [_ Hl].
    destruct (loop _ _ _ _ _ _ _) as [[insts ms] tmp]. exact Hl.
  - intros i inst Hi.
    pose proof (loop_lookup type ts elapsedTime delta (instances s) 0
                  (tempObject s) i inst Hi) as [Hinst Hm].
    exists (fst (stepInstance type ts elapsedTime delta i inst)),
           (snd (stepInstance type ts elapsedTime delta i inst)).
    unfold s', useFrame. cbn [negb].
    destruct (loop _ _ _ _ _ _ _) as [[insts ms] tmp]. cbn in Hinst, Hm.
    split; [exact Hinst |]. split; [exact Hm |].
    unfold stepInstance. cbn.
    split; [destruct ts; reflexivity |].
    repeat (split; [reflexivity |]).
    split; [intros ->; reflexivity |].
    split; [intros Hb; destruct type; [reflexivity | contradiction | reflexivity] |].
    split; [intros ->; reflexivity |].
    intros Hl; destruct type; [reflexivity | reflexivity | contradiction].
Qed.

Lemma ornament_frame_moves_each_instance_witness :
  let inst := mkInstance (mkVector3 1 2 3) (mkVector3 0 (-7) 5) 2
                         (mkEuler 1 2 3) (mkVector3 1 2 3) in
  let s := mkState [inst] []
             (mkObject3D (mkVector3 0 0 0) (mkEuler 0 0 0) (setScalar 1)) in
  let s' := useFrame true light FORMED 4 (1/60) s in
  exists (inst' : Instance) (m : Object3D),
    instances s' !! 0%nat = Some inst' /\
    instanceMatrix s' !! 0%nat = Some m /\
    currentPositions inst'
    = Vec.lerp (mkVector3 1 2 3) (mkVector3 0 (-7) 5) (2 * (1/60)) /\
    objRotation m = mkEuler 0 (4 * (1/10) * 2) 0 /\
    objScale m = setScalar (1 + sin (4 * 5 + INR 0) * (2/10)).
Proof.
  intros inst s s'.
  destruct (ornament_frame_moves_each_instance light FORMED 4 (1/60) s)
    as (_ & _ & _ & Hall).
  destruct (Hall 0%nat inst eq_refl)
    as (inst' & m & H1 & H2 & H3 & _ & _ & _ & _ & _ & _ & Hrot & Hsc & _).
  exists inst', m.
  split; [exact H1 |]. split; [exact H2 |]. split; [exact H3 |].
  split; [apply Hrot; discriminate | apply Hsc; reflexivity].
Defined.

End OrnamentFrames.

(** ** Chaotic swarm *)

Section SwarmOrbits.

Import Swarm SwarmBounds.

Lemma generate_radius (d : Draws) :
  unit_draws d -> radius_in_range (generate d).
Proof.
  unfold unit_draws, MathUtils.unit_draw, radius_in_range.
  intros [[H0 H1] _]. cbn. lra.
Qed.

Lemma scaled_sin_bound (r x : R) : 0 <= r -> Rabs (r * sin x) <= r.
Proof.
  intros Hr. rewrite Rabs_mult, (Rabs_pos_eq r Hr).
  assert (Hs : Rabs (sin x) <= 1).
  { apply Rabs_le. pose proof (SIN_bound x). lra. }
  nra.
Qed.

Lemma orbit_within (t : R) (p : Param) : 0 <= radius p -> within p (orbit t p).
Proof.
  intros Hr. unfold within, orbit. cbn.
  repeat split; now apply scaled_sin_bound.
Qed.

Lemma origin_within (p : Param) : 0 <= radius p -> within p (mkVector3 0 0 0).
Proof. intros Hr. unfold within. cbn. rewrite Rabs_R0. auto. Qed.

Lemma useFrame_within (params : list Param) (f : Frame) (s : State) :
  Forall (fun p => 0 <= radius p) params ->
  Forall2 within params (positions s) ->
  Forall2 within params
          (positions (useFrame (fAttached f) params (fOpacity f) (fTime f) s)).
Proof.
  intros Hr Hs. unfold useFrame.
  destruct (fAttached f); cbn [negb]; [| exact Hs].
  destruct (Rle_dec (fOpacity f) (1/100)); cbn [positions]; [exact Hs |].
  clear Hs. induction Hr as [| p ps Hp Hps IH]; cbn; constructor; auto.
  now apply orbit_within.
Qed.

Lemma run_within (params : list Param) (fs : list Frame) :
  Forall (fun p => 0 <= radius p) params ->
  forall s, Forall2 within params (positions s) ->
            Forall2 within params (positions (run params fs s)).
Proof.
  intros Hr. unfold run.
  induction fs as [| f fs IH]; intros s Hs; [exact Hs |].
  cbn [fold_left]. apply IH. now apply useFrame_within.
Qed.

(** C10: with parameters generated from draws of [0,1), every radius lies
    in [0.8, 2.5).  A frame callback that runs with an opacity above 0.01
    sets the position of every particle to
    [radius * sin(time * speed * freq + phase)] on each axis.  After any
    sequence of frames, whatever their elapsed times and opacities, every
    particle has a position, each of its coordinates is at most its radius
    in absolute value, and so it lies inside the cube of half-width 2.5. *)
Theorem swarm_stays_in_cube (ds : list Draws) (fs : list Frame) :
  Forall unit_draws ds ->
  let params := map generate ds in
  let s := run params fs (initial params) in
  Forall radius_in_range params /\
  (forall (s0 : State) (opacityProp t : R),
     1/100 < opacityProp ->
     positions (useFrame true params opacityProp t s0)
     = map (fun p =>
              mkVector3
                (radius p * sin (t * speed p * freqX p + offX p))
                (radius p * sin (t * speed p * freqY p + offY p))
                (radius p * sin (t * speed p * freqZ p + offZ p)))
           params) /\
  length (positions s) = length params /\
  (forall (i : nat) (p : Param) (pos : Vector3),
     params !! i = Some p -> positions s !! i = Some pos ->
     within p pos /\ inCube (25/10) pos).
Proof.
  intros Hds params s.
  assert (Hrange : Forall radius_in_range params).
  { unfold params. apply Forall_map. eapply Forall_impl; [exact Hds |].
    intros d Hd. now apply generate_radius. }
  assert (Hpos : Forall (fun p => 0 <= radius p) params).
  { eapply Forall_impl; [exact Hrange |]. unfold radius_in_range. intros p Hp. lra. }
  assert (Hinit : Forall2 within params (positions (initial params))).
  { unfold initial. cbn [positions]. clear -Hpos.
    induction Hpos as [| p ps Hp Hps IH]; cbn; constructor; auto.
    now apply origin_within. }
  pose proof (run_within params fs Hpos _ Hinit) as Hrun. fold s in Hrun.
  split; [exact Hrange |]. split; [| split].
  - intros s0 o t Ho. unfold useFrame. cbn [negb].
    destruct (Rle_dec o (1/100)); [lra | reflexivity].
  - symmetry. eapply Forall2_length. exact Hrun.
  - intros i p pos Hp Hq.
    pose proof (Forall2_lookup_lr _ _ _ _ _ _ Hrun Hp Hq) as Hw.
    split; [exact Hw |].
    pose proof (proj1 (Forall_lookup _ _) Hrange i p Hp) as [_ Hlt].
    destruct Hw as (Hx & Hy & Hz). unfold inCube. repeat split; lra.
Qed.

Lemma swarm_stays_in_cube_witness :
  let d := mkDraws (1/2) (1/2) (1/2) (1/2) (1/2) (1/2) (1/2) (1/2) in
  let params := map generate [d] in
  let s := run params [mkFrame true 1 3; mkFrame true 0 7] (initial params) in
  Forall unit_draws [d] /\
  forall pos, positions s !! 0%nat = Some pos -> inCube (25/10) pos.
Proof.
  intros d params s.
  assert (Hd : Forall unit_draws [d]).
  { apply Forall_cons_2; [| apply Forall_nil_2].
    unfold unit_draws, MathUtils.unit_draw. cbn. repeat split; lra. }
  split; [exact Hd |].
  intros pos Hpos.
  destruct (swarm_stays_in_cube [d] [mkFrame true 1 3; mkFrame true 0 7] Hd)
    as (_ & _ & _ & Hall).
  exact (proj2 (Hall 0%nat (generate d) pos eq_refl Hpos)).
Defined.

End SwarmOrbits.

(** * Further properties of the code *)

(** ** Points inside a sphere *)

Lemma cbrt_cube (x : R) : 0 <= x -> MathJs.cbrt x ^ 3 = x.
Proof.
  intros Hx. unfold MathJs.cbrt.
  destruct (Req_dec_T x 0) as [-> | Hne]; [simpl; ring |].
  destruct (Rlt_dec 0 x) as [Hpos | Hn]; [| lra].
  rewrite <- Rpower_pow by apply exp_pos.
  rewrite Rpower_mult.
  replace (1 / 3 * INR 3) with 1 by (simpl; lra).
  now apply Rpower_1.
Qed.

Lemma cbrt_unit (x : R) : 0 <= x < 1 -> 0 <= MathJs.cbrt x < 1.
Proof.
  intros [H0 H1]. pose proof (cbrt_cube x H0) as Hc.
  assert (Hnn : 0 <= MathJs.cbrt x).
  { unfold MathJs.cbrt. destruct (Req_dec_T x 0); [lra |].
    destruct (Rlt_dec 0 x); [| lra]. left. apply exp_pos. }
  split; [exact Hnn |].
  destruct (Rlt_dec (MathJs.cbrt x) 1) as [Hlt | Hge]; [exact Hlt |].
  assert (Hge1 : 1 <= MathJs.cbrt x) by lra.
  assert (1 <= MathJs.cbrt x ^ 3) by (simpl; nra).
  lra.
Qed.

Lemma sphere_length (radius u v w : R) :
  0 <= radius -> 0 <= w ->
  Sphere.length (Sphere.getRandomSpherePoint radius u v w)
  = MathJs.cbrt w * radius.
Proof.
  intros Hr Hw. unfold Sphere.length, Sphere.getRandomSpherePoint. cbn.
  set (r := MathJs.cbrt w * radius).
  set (phi := acos (2 * v - 1)). set (theta := 2 * PI * u).
  assert (Hr0 : 0 <= r).
  { unfold r. apply Rmult_le_pos; [| exact Hr].
    pose proof (cbrt_cube w Hw) as Hc.
    unfold MathJs.cbrt. destruct (Req_dec_T w 0); [lra |].
    destruct (Rlt_dec 0 w); [| lra]. left. apply exp_pos. }
  replace (r * sin phi * cos theta * (r * sin phi * cos theta)
           + r * sin phi * sin theta * (r * sin phi * sin theta)
           + r * cos phi * (r * cos phi))
    with (r * r * ((sin phi)² * ((sin theta)² + (cos theta)²) + (cos phi)²))
    by (unfold Rsqr; ring).
  rewrite sin2_cos2, Rmult_1_r, sin2_cos2, Rmult_1_r.
  now apply sqrt_square.
Qed.

(** X1: for a non-negative radius and draws of [0,1), the point of
    [getRandomSpherePoint] lies inside the sphere (strictly when the
    radius is positive), the cube of its distance to the centre is the
    third draw times the cube of the radius (inverse-CDF sampling of the
    volume), and its third coordinate is the distance times [2v - 1]. *)
Theorem sphere_point_inside (radius u v w : R) :
  0 <= radius ->
  MathUtils.unit_draw v -> MathUtils.unit_draw w ->
  let p := Sphere.getRandomSpherePoint radius u v w in
  Sphere.length p <= radius /\
  (0 < radius -> Sphere.length p < radius) /\
  Sphere.length p ^ 3 = w * radius ^ 3 /\
  vz p = Sphere.length p * (2 * v - 1).
Proof.
  intros Hr [Hv0 Hv1] [Hw0 Hw1] p.
  pose proof (sphere_length radius u v w Hr Hw0) as Hlen. fold p in Hlen.
  pose proof (cbrt_unit w (conj Hw0 Hw1)) as [Hc0 Hc1].
  pose proof (cbrt_cube w Hw0) as Hc.
  rewrite Hlen. split; [nra |]. split; [intros Hpos; nra |].
  split.
  - rewrite Rpow_mult_distr, Hc. reflexivity.
  - unfold p, Sphere.getRandomSpherePoint. cbn.
    rewrite cos_acos by lra. reflexivity.
Qed.

Lemma sphere_point_inside_witness :
  let p := Sphere.getRandomSpherePoint 15 (1/4) (1/2) (1/8) in
  Sphere.length p <= 15 /\ Sphere.length p ^ 3 = 1/8 * 15 ^ 3.
Proof.
  intros p.
  destruct (sphere_point_inside 15 (1/4) (1/2) (1/8)) as (H1 & _ & H3 & _);
    unfold MathUtils.unit_draw; try lra.
  split; [exact H1 | exact H3].
Defined.

(** ** Gallery coordinator *)

Section GalleryFocus.

Import PhotoFrame Gallery.

Lemma photoId_inj (i j : nat) : photoId i = photoId j -> i = j.
Proof.
  unfold photoId. intros H.
  apply (String.app_inj "photo-") in H. now apply pretty_nat_inj in H.
Qed.

Lemma photoObjects_lookup (photos : list PhotoItem) (draws : nat -> R * R * R)
    (i : nat) (d : PhotoData) :
  photoObjects photos draws !! i = Some d ->
  id d = photoId i /\ (i < length photos)%nat /\
  position d
  = Utils.position (Utils.getSpiralPoint (INR i) (INR (length photos)) 12 (55/10)).
Proof.
  unfold photoObjects. rewrite list_lookup_imap.
  destruct (photos !! i) as [item |] eqn:Hi; [| discriminate].
  cbn. intros [= <-]. apply lookup_lt_Some in Hi.
  unfold photoObject. destruct (draws i) as [[u v] w]. cbn. auto.
Qed.

(** X2: the frames of a gallery have pairwise distinct identifiers, so
    at most one of them is focused, whatever [focusedId] holds; a focus
    request for one of them focuses it and no other, and is reported to
    the parent as "something is focused"; a blur leaves none focused. *)
Theorem gallery_focus_is_exclusive
    (photos : list PhotoItem) (draws : nat -> R * R * R)
    (focusedId : option string) (i j : nat) (di dj : PhotoData) :
  photoObjects photos draws !! i = Some di ->
  photoObjects photos draws !! j = Some dj ->
  (isFocusedProp focusedId di = true -> isFocusedProp focusedId dj = true ->
   i = j) /\
  (let f := receive focusedId (OnFocus (id di)) in
   isFocusedProp f di = true /\
   (i <> j -> isFocusedProp f dj = false) /\
   somethingFocused f = true) /\
  (forall src,
     let f := receive focusedId (OnBlur src) in
     isFocusedProp f di = false /\ somethingFocused f = false).
Proof.
  intros Hi Hj.
  apply photoObjects_lookup in Hi as (Hidi & _ & _).
  apply photoObjects_lookup in Hj as (Hidj & _ & _).
  unfold isFocusedProp. split; [| split].
  - intros H1 H2. apply bool_decide_eq_true in H1, H2.
    apply photoId_inj. congruence.
  - cbn. split; [now apply bool_decide_eq_true |]. split.
    + intros Hne. apply bool_decide_eq_false. intros [= H].
      apply Hne, photoId_inj. congruence.
    + rewrite Hidi. unfold photoId. reflexivity.
  - intros src. cbn. split; [| reflexivity].
    apply bool_decide_eq_false. discriminate.
Qed.

Lemma gallery_focus_is_exclusive_witness :
  let photos := [mkPhotoItem "a" 1; mkPhotoItem "b" 2] in
  let draws := fun _ : nat => (0, 1/2, 1/2) in
  let d0 := photoObject 2 (0, 1/2, 1/2) 0 (mkPhotoItem "a" 1) in
  let d1 := photoObject 2 (0, 1/2, 1/2) 1 (mkPhotoItem "b" 2) in
  photoObjects photos draws !! 0%nat = Some d0 /\
  photoObjects photos draws !! 1%nat = Some d1 /\
  isFocusedProp (receive None (OnFocus (id d0))) d1 = false.
Proof.
  intros photos draws d0 d1.
  assert (H0 : photoObjects photos draws !! 0%nat = Some d0) by reflexivity.
  assert (H1 : photoObjects photos draws !! 1%nat = Some d1) by reflexivity.
  split; [exact H0 |]. split; [exact H1 |].
  destruct (gallery_focus_is_exclusive photos draws None 0 1 d0 d1 H0 H1)
    as (_ & (_ & Hother & _) & _).
  apply Hother. discriminate.
Defined.

(** X3: as the gallery sees it, a click on a frame that is not focused,
    while no clearing is active, makes that frame the focused one at once,
    whatever was focused before, without touching the timers; a click while
    clearing, or on the focused frame, leaves [focusedId] as it is. *)
Theorem gallery_click_moves_focus
    (ts : TreeState) (clearing : bool) (d : PhotoData)
    (sw : PhotoFrame.State * Timers) (focusedId : option string) :
  (clearing = false -> isFocusedProp focusedId d = false ->
   click ts clearing d sw focusedId = Some (id d) /\
   isFocusedProp (click ts clearing d sw focusedId) d = true /\
   fst (handleClick (propsFor ts clearing focusedId d) sw) = sw) /\
  (clearing = true \/ isFocusedProp focusedId d = true ->
   click ts clearing d sw focusedId = focusedId).
Proof.
  destruct sw as [s w]. unfold click, propsFor, handleClick. cbn.
  split.
  - intros -> Hf. rewrite Hf. cbn.
    split; [reflexivity |]. split; [| reflexivity].
    unfold isFocusedProp. now apply bool_decide_eq_true.
  - intros [-> | Hf]; [reflexivity |].
    destruct clearing; [reflexivity |]. rewrite Hf. cbn.
    destruct (clickTimeoutRef s); reflexivity.
Qed.

Lemma gallery_click_moves_focus_witness :
  let d := mkPhotoData "photo-1" (mkVector3 7 (-6) 0) (mkVector3 1 2 3) 0 in
  click FORMED false d (initial d, noTimers) (Some "photo-0") = Some "photo-1".
Proof.
  intros d.
  destruct (gallery_click_moves_focus FORMED false d (initial d, noTimers)
              (Some "photo-0")) as [Hmove _].
  destruct (Hmove eq_refl eq_refl) as (H & _ & _). exact H.
Defined.

End GalleryFocus.

Section GalleryClearing.

Import PhotoFrame Gallery.

Lemma useFrame_emits (a : bool) (p : Props) (c : Camera) (delta : R)
    (s : PhotoFrame.State) :
  snd (useFrame a p c delta s)
  = if a && isClearing p && isFocused p then [OnBlur FromClearing] else [].
Proof.
  unfold useFrame. destruct a; cbn; [| reflexivity].
  destruct (isClearing p), (isFocused p); reflexivity.
Qed.

Lemma receiveAll_blurs (out : list Emit) :
  Forall (fun e => e = OnBlur FromClearing) out ->
  forall f, receiveAll f out = match out with [] => f | _ :: _ => None end.
Proof.
  unfold receiveAll. induction 1 as [| e rest -> Hrest IH]; intros f; [reflexivity |].
  cbn. rewrite IH. destruct rest; reflexivity.
Qed.

Lemma tick_emissions (ts : TreeState) (clearing : bool) (c : Camera)
    (delta : R) (f : option string) (ms : list Mounted) :
  let out := concat (map snd (map (fun m =>
               useFrame (mAttached m) (propsFor ts clearing f (mData m))
                        c delta (mState m)) ms)) in
  Forall (fun e => e = OnBlur FromClearing) out /\
  (clearing = false -> out = []) /\
  (clearing = true ->
   (exists m, m ∈ ms /\ mAttached m = true /\ isFocusedProp f (mData m) = true) ->
   out <> []).
Proof.
  induction ms as [| m ms (IHall & IHoff & IHon)]; cbn.
  - split; [constructor |]. split; [reflexivity |].
    intros _ (m & Hm & _). inversion Hm.
  - rewrite useFrame_emits. cbn [propsFor isClearing isFocused].
    split; [| split].
    + apply Forall_app. split; [| exact IHall].
      destruct (mAttached m && clearing && isFocusedProp f (mData m));
        repeat constructor.
    + intros ->. rewrite andb_false_r. cbn. now apply IHoff.
    + intros -> (m' & Hin & Ha & Hf).
      apply elem_of_cons in Hin as [-> | Hin].
      * rewrite Ha, Hf. cbn. discriminate.
      * destruct (mAttached m && true && isFocusedProp f (mData m));
          [discriminate |].
        cbn. apply IHon; [reflexivity |]. exists m'. auto.
Qed.

(** X4: a rendered frame of the gallery keeps the frames and their data;
    while no clearing is active it leaves [focusedId] alone, and while
    clearing is active and the focused frame is mounted with its group
    attached, it leaves no frame focused. *)
Theorem gallery_tick_unfocuses_when_clearing
    (ts : TreeState) (clearing : bool) (c : Camera) (delta : R) (g : State) :
  let g' := tick ts clearing c delta g in
  map mData (frames g') = map mData (frames g) /\
  (clearing = false -> focusedId g' = focusedId g) /\
  (clearing = true ->
   (exists m, m ∈ frames g /\ mAttached m = true /\
              focusedId g = Some (id (mData m))) ->
   focusedId g' = None /\
   forall m, m ∈ frames g' -> isFocusedProp (focusedId g') (mData m) = false).
Proof.
  intros g'.
  destruct (tick_emissions ts clearing c delta (focusedId g) (frames g))
    as (Hall & Hoff & Hon).
  split; [| split].
  - unfold g', tick. cbn [frames]. generalize (frames g) as ms.
    induction ms as [| m ms IH]; cbn; [reflexivity |]. now rewrite IH.
  - intros Hc. unfold g', tick. cbn [focusedId].
    rewrite (Hoff Hc). reflexivity.
  - intros Hc (m & Hin & Ha & Hf).
    assert (Hnone : focusedId g' = None).
    { unfold g', tick. cbn [focusedId]. rewrite (receiveAll_blurs _ Hall).
      match goal with |- match ?o with _ => _ end = _ => destruct o eqn:Ho end;
        [| reflexivity].
      exfalso. apply (Hon Hc); [| reflexivity].
      exists m. split; [exact Hin |]. split; [exact Ha |].
      unfold isFocusedProp. now apply bool_decide_eq_true. }
    split; [exact Hnone |]. intros m' _. rewrite Hnone.
    unfold isFocusedProp. apply bool_decide_eq_false. discriminate.
Qed.

Lemma gallery_tick_unfocuses_when_clearing_witness :
  let d := mkPhotoData "photo-0" (mkVector3 7 (-6) 0) (mkVector3 1 2 3) 0 in
  let g := mkState (Some "photo-0") [mkMounted d true (initial d)] in
  focusedId (tick FORMED true (mkCamera 45 1 (mkVector3 0 0 0)) (1/60) g) = None.
Proof.
  intros d g.
  destruct (gallery_tick_unfocuses_when_clearing FORMED true
              (mkCamera 45 1 (mkVector3 0 0 0)) (1/60) g) as (_ & _ & Hclear).
  apply Hclear; [reflexivity |].
  exists (mkMounted d true (initial d)).
  split; [apply list_elem_of_here |]. split; reflexivity.
Defined.

End GalleryClearing.

(** ** Placement: cone, spiral, ornaments *)

Lemma pow_unit (u e : R) : 0 < e -> 0 <= u < 1 -> 0 <= MathJs.pow u e < 1.
Proof.
  intros He [H0 H1]. unfold MathJs.pow.
  destruct (Req_dec_T u 0) as [-> | Hne]; [lra |].
  assert (Hu : 0 < u) by lra.
  unfold Rpower. split; [left; apply exp_pos |].
  rewrite <- exp_0. apply exp_increasing.
  assert (Hln : ln u < 0) by (rewrite <- ln_1; now apply ln_increasing).
  nra.
Qed.

Lemma tree_point_radius (height baseRadius yRatio uTheta uNoise : R) :
  Vec.horizontalRadius
    (Utils.getTreePoint height baseRadius yRatio uTheta uNoise)
  = Rmax 0 (baseRadius * (1 - yRatio)
            + MathUtils.randFloatSpread (1/2) uNoise).
Proof.
  unfold Utils.getTreePoint. apply horizontalRadius_polar, Rmax_l.
Qed.

Lemma spiral_radius (index total height radiusBase : R) :
  0 <= radiusBase * (1 - index / total) + 3/2 ->
  Vec.horizontalRadius
    (Utils.position (Utils.getSpiralPoint index total height radiusBase))
  = radiusBase * (1 - index / total) + 3/2.
Proof.
  intros Hr. unfold Utils.getSpiralPoint. cbn [Utils.position].
  now apply horizontalRadius_polar.
Qed.

Lemma index_ratio (i N : nat) : (i < N)%nat -> 0 <= INR i / INR N < 1.
Proof.
  intros Hlt.
  assert (HN : 0 < INR N) by (apply lt_0_INR; lia).
  assert (Hi : 0 <= INR i) by apply pos_INR.
  assert (HiN : INR i < INR N) by (apply lt_INR; lia).
  split.
  - apply Rmult_le_pos; [exact Hi | left; now apply Rinv_0_lt_compat].
  - apply Rmult_lt_reg_r with (INR N); [exact HN |].
    unfold Rdiv. rewrite Rmult_assoc, Rinv_l by lra. lra.
Qed.

Lemma ornament_target (type : Ornaments.OrnamentType) (d : Ornaments.Draws) :
  let tPos := Utils.getTreePoint 14 5 (Ornaments.yBias d) (Ornaments.uTheta d)
                                 (Ornaments.uNoise d) in
  let target := Ornaments.targetData (Ornaments.generate type d) in
  vy target = vy tPos /\
  (Vec.horizontalRadius tPos = 0 -> target = tPos) /\
  (Vec.horizontalRadius tPos <> 0 ->
   Vec.horizontalRadius target
   = Vec.horizontalRadius tPos + OrnamentField.offset type).
Proof.
  intros tPos target.
  pose proof (tree_point_radius 14 5 (Ornaments.yBias d) (Ornaments.uTheta d)
                (Ornaments.uNoise d)) as Hrad. fold tPos in Hrad.
  set (finalR := Rmax 0 (5 * (1 - Ornaments.yBias d)
                         + MathUtils.randFloatSpread (1/2) (Ornaments.uNoise d))) in *.
  set (theta := Ornaments.uTheta d * PI * 2).
  assert (HfR : 0 <= finalR) by apply Rmax_l.
  assert (Htx : vx tPos = finalR * cos theta) by reflexivity.
  assert (Htz : vz tPos = finalR * sin theta) by reflexivity.
  assert (Hlen : sqrt (vx tPos * vx tPos + 0 * 0 + vz tPos * vz tPos) = finalR).
  { rewrite <- Hrad. unfold Vec.horizontalRadius. f_equal. ring. }
  assert (Hoff : (match type with
                  | Ornaments.box => 5/10
                  | Ornaments.ball => 3/10
                  | Ornaments.light => 6/10
                  end) = OrnamentField.offset type) by (destruct type; reflexivity).
  unfold target, Ornaments.generate. cbn [Ornaments.targetData].
  fold tPos. unfold Ornaments.normalize. cbn [vx vy vz].
  rewrite Hlen, Hoff.
  split; [cbn [vy]; unfold Rdiv; ring |]. split.
  - intros Hz. rewrite Hrad in Hz.
    destruct (Req_dec_T finalR 0) as [_ | Hne]; [| contradiction].
    rewrite Htx, Htz, Hz. destruct tPos as [x y z]. cbn in *.
    rewrite Htx, Htz, Hz. f_equal; field.
  - intros Hnz. rewrite Hrad in *.
    destruct (Req_dec_T finalR 0) as [He | Hne]; [contradiction |].
    cbn [vx vy vz]. rewrite Htx, Htz.
    replace (finalR * cos theta + finalR * cos theta / finalR
                                  * OrnamentField.offset type)
      with ((finalR + OrnamentField.offset type) * cos theta) by (field; exact Hne).
    replace (finalR * sin theta + finalR * sin theta / finalR
                                  * OrnamentField.offset type)
      with ((finalR + OrnamentField.offset type) * sin theta) by (field; exact Hne).
    apply horizontalRadius_polar. destruct type; cbn; lra.
Qed.

Section GalleryPlacement.

Import Gallery.

(** X5: every photo of a gallery is placed on the spiral between the
    base and the top of the tree: its height is in [-6, 6), its distance
    to the axis is [5.5 * (1 - i/N) + 1.5], between 1.5 and 7, its frame
    height is the one of its photo item, and its chaos point lies inside
    the sphere of radius 18. *)
Theorem gallery_photo_placement
    (photos : list PhotoItem) (draws : nat -> R * R * R)
    (i : nat) (item : PhotoItem) (d : PhotoFrame.PhotoData) :
  photos !! i = Some item ->
  photoObjects photos draws !! i = Some d ->
  MathUtils.unit_draw (draws i).1.2 -> MathUtils.unit_draw (draws i).2 ->
  -6 <= vy (PhotoFrame.position d) < 6 /\
  Vec.horizontalRadius (PhotoFrame.position d)
  = 55/10 * (1 - INR i / INR (length photos)) + 3/2 /\
  3/2 < Vec.horizontalRadius (PhotoFrame.position d) <= 7 /\
  PhotoFrame.frameHeight d = height item /\
  Sphere.length (PhotoFrame.chaosPos d) < 18.
Proof.
  intros Hitem Hd Hv Hw.
  pose proof (lookup_lt_Some _ _ _ Hitem) as Hlt.
  pose proof (index_ratio i (length photos) Hlt) as [Hq0 Hq1].
  unfold photoObjects in Hd. rewrite list_lookup_imap, Hitem in Hd.
  cbn in Hd. injection Hd as <-.
  unfold photoObject. destruct (draws i) as [[u v] w] eqn:Hdr. cbn in Hv, Hw.
  cbn [PhotoFrame.position PhotoFrame.frameHeight PhotoFrame.chaosPos].
  rewrite spiral_radius by nra. rewrite spiral_y.
  split; [split; nra |]. split; [reflexivity |]. split; [split; nra |].
  split; [reflexivity |].
  destruct Hw as [Hw0 Hw1].
  rewrite sphere_length by lra.
  pose proof (cbrt_unit w (conj Hw0 Hw1)) as [Hc0 Hc1]. nra.
Qed.

Lemma gallery_photo_placement_witness :
  let photos := [mkPhotoItem "a" 1; mkPhotoItem "b" 2] in
  let draws := fun _ : nat => (0, 1/2, 1/2) in
  let d := photoObject 2 (0, 1/2, 1/2) 1 (mkPhotoItem "b" 2) in
  photos !! 1%nat = Some (mkPhotoItem "b" 2) /\
  photoObjects photos draws !! 1%nat = Some d /\
  -6 <= vy (PhotoFrame.position d) < 6.
Proof.
  intros photos draws d.
  assert (Hd : photoObjects photos draws !! 1%nat = Some d) by reflexivity.
  split; [reflexivity |]. split; [exact Hd |].
  destruct (gallery_photo_placement photos draws 1 (mkPhotoItem "b" 2) d
              eq_refl Hd) as (Hy & _);
    [unfold MathUtils.unit_draw; cbn; lra .. | exact Hy].
Defined.

(** X6: the photos hang outside the tree.  At the height of a photo of a
    gallery, every point that [getTreePoint] can give for the foliage
    (height 14, base radius 5) is closer to the axis than the photo by more
    than 0.89, and every ornament target, pushed out by its offset, by more
    than 0.29. *)
Theorem gallery_photos_clear_the_tree
    (photos : list PhotoItem) (draws : nat -> R * R * R)
    (i : nat) (d : PhotoFrame.PhotoData) :
  photoObjects photos draws !! i = Some d ->
  (forall yRatio uTheta uNoise : R,
     0 <= yRatio <= 1 -> MathUtils.unit_draw uNoise ->
     let p := Utils.getTreePoint 14 5 yRatio uTheta uNoise in
     vy p = vy (PhotoFrame.position d) ->
     Vec.horizontalRadius p + 89/100
     < Vec.horizontalRadius (PhotoFrame.position d)) /\
  (forall (type : Ornaments.OrnamentType) (od : Ornaments.Draws),
     0 <= Ornaments.yBias od <= 1 -> MathUtils.unit_draw (Ornaments.uNoise od) ->
     let target := Ornaments.targetData (Ornaments.generate type od) in
     vy target = vy (PhotoFrame.position d) ->
     Vec.horizontalRadius target + 29/100
     < Vec.horizontalRadius (PhotoFrame.position d)).
Proof.
  intros Hd.
  apply photoObjects_lookup in Hd as (_ & Hlt & Hpos).
  pose proof (index_ratio i (length photos) Hlt) as [Hq0 Hq1].
  rewrite Hpos. rewrite spiral_radius by nra. rewrite spiral_y.
  assert (Hcone : forall yRatio uTheta uNoise : R,
            0 <= yRatio <= 1 -> MathUtils.unit_draw uNoise ->
            vy (Utils.getTreePoint 14 5 yRatio uTheta uNoise)
            = INR i / INR (length photos) * 12 - 12 / 2 ->
            Vec.horizontalRadius (Utils.getTreePoint 14 5 yRatio uTheta uNoise)
            + 89/100 < 55/10 * (1 - INR i / INR (length photos)) + 3/2).
  { intros yRatio uTheta uNoise Hy Hu Hsame.
    pose proof (randFloatSpread_half uNoise Hu) as Hj.
    rewrite tree_point_radius.
    unfold Utils.getTreePoint in Hsame. cbn in Hsame.
    unfold Rmax. destruct (Rle_dec _ _); nra. }
  split; [exact Hcone |].
  intros type od Hy Hu target Hsame.
  destruct (ornament_target type od) as (Hvy & Hzero & Hpush).
  fold target in Hvy, Hzero, Hpush.
  specialize (Hcone (Ornaments.yBias od) (Ornaments.uTheta od)
                    (Ornaments.uNoise od) Hy Hu).
  rewrite <- Hvy in Hcone. specialize (Hcone Hsame).
  destruct (Req_dec_T (Vec.horizontalRadius
              (Utils.getTreePoint 14 5 (Ornaments.yBias od) (Ornaments.uTheta od)
                                  (Ornaments.uNoise od))) 0) as [Hz | Hnz].
  - rewrite (Hzero Hz). lra.
  - rewrite (Hpush Hnz). destruct type; cbn; lra.
Qed.

Lemma gallery_photos_clear_the_tree_witness :
  let photos := [mkPhotoItem "a" 1] in
  let draws := fun _ : nat => (0, 1/2, 1/2) in
  let d := photoObject 1 (0, 1/2, 1/2) 0 (mkPhotoItem "a" 1) in
  photoObjects photos draws !! 0%nat = Some d /\
  Vec.horizontalRadius (Utils.getTreePoint 14 5 (1/14) 0 (1/2)) + 89/100
  < Vec.horizontalRadius (PhotoFrame.position d).
Proof.
  intros photos draws d.
  assert (Hd : photoObjects photos draws !! 0%nat = Some d) by reflexivity.
  split; [exact Hd |].
  destruct (gallery_photos_clear_the_tree photos draws 0 d Hd) as [Hcone _].
  apply (Hcone (1/14) 0 (1/2)).
  - lra.
  - unfold MathUtils.unit_draw. lra.
  - apply photoObjects_lookup in Hd as (_ & _ & ->).
    rewrite spiral_y. cbn. lra.
Defined.

End GalleryPlacement.

(** ** Generation of ornaments and foliage *)

(** X7: an ornament generated from draws of [0,1) starts at its chaos
    point, inside the sphere of radius 20; its target keeps the height of
    its cone point, within [-7, 7), and lies further from the axis than
    the cone point by exactly the offset of its type (0.5 box, 0.3 ball,
    0.6 light), at most [5.25 + offset]; only a cone point on the axis
    itself is not pushed out. *)
Theorem ornament_generation_places_outside
    (type : Ornaments.OrnamentType) (r : OrnamentField.RawDraws) :
  OrnamentField.unit_draws r ->
  let inst := OrnamentField.generate type r in
  let tPos := Utils.getTreePoint 14 5 (MathJs.pow (OrnamentField.rBias r) (18/10))
                (OrnamentField.rTheta r) (OrnamentField.rNoise r) in
  Ornaments.currentPositions inst = Ornaments.chaosData inst /\
  Sphere.length (Ornaments.chaosData inst) < 20 /\
  vy (Ornaments.targetData inst) = vy tPos /\
  -7 <= vy (Ornaments.targetData inst) < 7 /\
  (Vec.horizontalRadius tPos <> 0 ->
   Vec.horizontalRadius (Ornaments.targetData inst)
   = Vec.horizontalRadius tPos + OrnamentField.offset type) /\
  (Vec.horizontalRadius tPos = 0 -> Ornaments.targetData inst = tPos) /\
  Vec.horizontalRadius (Ornaments.targetData inst)
  <= 525/100 + OrnamentField.offset type.
Proof.
  intros (Hv & [Hw0 Hw1] & Hb & Hn & _) inst tPos.
  pose proof (pow_unit (OrnamentField.rBias r) (18/10) ltac:(lra) Hb) as [Hy0 Hy1].
  destruct (ornament_target type (OrnamentField.draws r)) as (Hvy & Hzero & Hpush).
  change (Ornaments.generate type (OrnamentField.draws r)) with inst in *.
  change (Utils.getTreePoint 14 5 (Ornaments.yBias (OrnamentField.draws r))
            (Ornaments.uTheta (OrnamentField.draws r))
            (Ornaments.uNoise (OrnamentField.draws r))) with tPos in *.
  pose proof (tree_point_radius 14 5 (MathJs.pow (OrnamentField.rBias r) (18/10))
                (OrnamentField.rTheta r) (OrnamentField.rNoise r)) as Hrad.
  fold tPos in Hrad.
  pose proof (randFloatSpread_half (OrnamentField.rNoise r) Hn) as Hj.
  assert (Hbound : 0 <= Vec.horizontalRadius tPos <= 525/100).
  { rewrite Hrad. split; [apply Rmax_l |].
    unfold Rmax. destruct (Rle_dec _ _); nra. }
  split; [reflexivity |]. split.
  { unfold inst, OrnamentField.generate, Ornaments.generate, OrnamentField.draws.
    cbn [Ornaments.chaosData Ornaments.chaosPoint].
    rewrite sphere_length by lra.
    pose proof (cbrt_unit _ (conj Hw0 Hw1)) as [Hc0 Hc1]. nra. }
  split; [exact Hvy |]. split.
  { rewrite Hvy. unfold tPos, Utils.getTreePoint. cbn. split; nra. }
  split; [exact Hpush |]. split; [exact Hzero |].
  destruct (Req_dec_T (Vec.horizontalRadius tPos) 0) as [Hz | Hnz].
  - rewrite (Hzero Hz), Hz. destruct type; cbn; lra.
  - rewrite (Hpush Hnz). lra.
Qed.

Lemma ornament_generation_places_outside_witness :
  let r := OrnamentField.mkRawDraws 0 (1/2) (1/8) (1/2) 0 (1/2) (1/2) 0 0 0 in
  Sphere.length (Ornaments.chaosData (OrnamentField.generate Ornaments.ball r))
  < 20.
Proof.
  intros r.
  destruct (ornament_generation_places_outside Ornaments.ball r) as (_ & H & _);
    [| exact H].
  unfold OrnamentField.unit_draws, MathUtils.unit_draw. cbn.
  repeat split; lra.
Defined.

(** X8: a foliage vertex generated from draws of [0,1) has its target on
    the cone: height within [-7, 7), distance to the axis at most 0.25
    away from the cone radius at its height ratio and at most 5.25; its
    chaos point lies inside the sphere of radius 15. *)
Theorem foliage_generation_bounds (d : FoliageField.Draws) :
  FoliageField.unit_draws d ->
  let v := FoliageField.generate d in
  let yRatio := MathJs.pow (FoliageField.uBias d) (8/10) in
  0 <= yRatio < 1 /\
  vy (FoliageField.targetPos v) = yRatio * 14 - 7 /\
  -7 <= vy (FoliageField.targetPos v) < 7 /\
  Rabs (Vec.horizontalRadius (FoliageField.targetPos v) - 5 * (1 - yRatio))
  <= 1/4 /\
  0 <= Vec.horizontalRadius (FoliageField.targetPos v) <= 525/100 /\
  Sphere.length (FoliageField.chaosPos v) < 15.
Proof.
  intros (Hb & Hn & Hv & [Hw0 Hw1]) v yRatio.
  pose proof (pow_unit (FoliageField.uBias d) (8/10) ltac:(lra) Hb) as [Hy0 Hy1].
  fold yRatio in Hy0, Hy1.
  pose proof (randFloatSpread_half (FoliageField.uNoise d) Hn) as Hj.
  assert (Hrad : Vec.horizontalRadius (FoliageField.targetPos v)
                 = Rmax 0 (5 * (1 - yRatio)
                           + MathUtils.randFloatSpread (1/2) (FoliageField.uNoise d)))
    by apply tree_point_radius.
  assert (Hvy : vy (FoliageField.targetPos v) = yRatio * 14 - 7).
  { unfold v, FoliageField.generate, Utils.getTreePoint,
      FoliageField.TREE_HEIGHT. cbn. fold yRatio. lra. }
  split; [split; assumption |]. split; [exact Hvy |].
  split; [rewrite Hvy; split; nra |].
  split; [| split].
  - rewrite Hrad. apply Rabs_le. unfold Rmax. destruct (Rle_dec _ _); nra.
  - rewrite Hrad. split; [apply Rmax_l |].
    unfold Rmax. destruct (Rle_dec _ _); nra.
  - unfold v, FoliageField.generate. cbn [FoliageField.chaosPos].
    rewrite sphere_length by lra.
    pose proof (cbrt_unit _ (conj Hw0 Hw1)) as [Hc0 Hc1]. nra.
Qed.

Lemma foliage_generation_bounds_witness :
  let d := FoliageField.mkDraws (1/2) 0 (1/2) 0 (1/2) (1/8) (1/2) in
  Sphere.length (FoliageField.chaosPos (FoliageField.generate d)) < 15.
Proof.
  intros d.
  destruct (foliage_generation_bounds d) as (_ & _ & _ & _ & _ & H); [| exact H].
  unfold FoliageField.unit_draws, MathUtils.unit_draw. cbn.
  repeat split; lra.
Defined.

(** X9: the vertex shader never moves a vertex vertically off the mix
    of its chaos and target position, and it moves it horizontally by
    exactly [0.15 * (1 - uProgress)]: the drift shrinks as the field forms
    and at [uProgress = 1] the vertex is exactly at its target. *)
Theorem foliage_drift_vanishes
    (s : Foliage.State) (id : nat) (chaosPos targetPos : Vector3) :
  let v := Foliage.vertexPosition s id chaosPos targetPos in
  let m := Vec.lerpVectors chaosPos targetPos (Foliage.uProgress s) in
  vy v = vy m /\
  (vx v - vx m) * (vx v - vx m) + (vz v - vz m) * (vz v - vz m)
  = (15/100 * (1 - Foliage.uProgress s)) * (15/100 * (1 - Foliage.uProgress s)) /\
  (Foliage.uProgress s = 1 -> v = targetPos) /\
  (Foliage.uProgress s = 0 ->
   vy v = vy chaosPos /\
   (vx v - vx chaosPos) * (vx v - vx chaosPos)
   + (vz v - vz chaosPos) * (vz v - vz chaosPos) = (15/100) * (15/100)).
Proof.
  intros v m. unfold v, m, Foliage.vertexPosition. cbn.
  set (ph := Foliage.uTime s * (8/10) + INR id * (1/1000)).
  set (p := Foliage.uProgress s).
  pose proof (sin2_cos2 ph) as Hsc. unfold Rsqr in Hsc.
  split; [reflexivity |]. split; [| split].
  - transitivity (15/100 * (1 - p) * (15/100 * (1 - p))
                  * (sin ph * sin ph + cos ph * cos ph));
      [ring | rewrite Hsc; ring].
  - intros ->. destruct targetPos as [tx ty tz]. cbn. f_equal; ring.
  - intros ->. split; [ring |].
    transitivity (15/100 * (15/100) * (sin ph * sin ph + cos ph * cos ph));
      [ring | rewrite Hsc; ring].
Qed.

Lemma foliage_drift_vanishes_witness :
  Foliage.vertexPosition (Foliage.mkState 1 1 3) 7
    (mkVector3 1 2 3) (mkVector3 4 5 6) = mkVector3 4 5 6.
Proof.
  destruct (foliage_drift_vanishes (Foliage.mkState 1 1 3) 7
              (mkVector3 1 2 3) (mkVector3 4 5 6)) as (_ & _ & Hformed & _).
  exact (Hformed eq_refl).
Defined.

(** ** Runs of an ornament batch *)

Section OrnamentRunsSection.

Import Ornaments OrnamentRuns.

Lemma loop_relates (Q : Instance -> Instance -> Prop) (P : Instance -> Prop)
    (type : OrnamentType) (ts : TreeState) (t delta : R) :
  (forall i inst, P inst -> Q inst (fst (stepInstance type ts t delta i inst))) ->
  forall l, Forall P l ->
  forall (k : nat) (tmp : Object3D),
    Forall2 Q l (fst (fst (loop type ts t delta k tmp l))).
Proof.
  intros Hstep l Hl. induction Hl as [| x rest Hx Hrest IH]; intros k tmp;
    [constructor |].
  cbn [loop].
  pose proof (Hstep k x Hx) as Hq.
  destruct (stepInstance type ts t delta k x) as [x' m].
  specialize (IH (S k) m).
  destruct (loop type ts t delta (S k) m rest) as [[insts ms] tmp'].
  cbn [fst] in *. now constructor.
Qed.

Lemma step_onSegment (type : OrnamentType) (ts : TreeState) (t delta : R)
    (i : nat) (inst : Instance) :
  0 <= speeds inst * delta <= 1 ->
  onSegment inst ->
  onSegment (fst (stepInstance type ts t delta i inst)).
Proof.
  intros Ha (k & Hk & Hcur). unfold onSegment, stepInstance. cbn.
  rewrite Hcur. set (a := speeds inst * delta) in *.
  destruct ts; cbn.
  - exists (k * (1 - a)). split; [split; nra |].
    unfold Vec.lerp. cbn. f_equal; ring.
  - exists (k + (1 - k) * a). split; [split; nra |].
    unfold Vec.lerp. cbn. f_equal; ring.
Qed.

Lemma useFrame_follows (f : Frame) (type : OrnamentType) (s : State) :
  0 <= fDelta f <= 1/3 ->
  Forall slow (instances s) ->
  Forall2 follows (instances s)
          (instances (useFrame (fAttached f) type (fTree f) (fTime f)
                               (fDelta f) s)).
Proof.
  intros Hd Hs. unfold useFrame. destruct (fAttached f); cbn [negb].
  - pose proof (loop_relates follows slow type (fTree f) (fTime f) (fDelta f)) as H.
    specialize (H (fun i inst Hsl =>
      match Hsl with
      | conj Hsp Hseg =>
          conj eq_refl (conj eq_refl (conj eq_refl (conj eq_refl
            (step_onSegment type (fTree f) (fTime f) (fDelta f) i inst
               ltac:(nra) Hseg))))
      end) (instances s) Hs 0%nat (tempObject s)).
    destruct (loop _ _ _ _ _ _ _) as [[insts ms] tmp]. exact H.
  - induction Hs as [| x rest [Hsp Hseg] Hrest IH]; constructor; auto.
    repeat split; auto.
Qed.

Lemma follows_slow (l l' : list Instance) :
  Forall slow l -> Forall2 follows l l' -> Forall slow l'.
Proof.
  intros Hl H. induction H as [| x y l l' (_ & _ & Hsp & _ & Hseg) Hrest IH];
    [constructor |].
  apply Forall_cons_1 in Hl as [[Hx _] Hl].
  constructor; [| now apply IH]. split; [rewrite Hsp; exact Hx | exact Hseg].
Qed.

Lemma follows_chain (l1 l2 l3 : list Instance) :
  Forall2 follows l1 l2 -> Forall2 follows l2 l3 -> Forall2 follows l1 l3.
Proof.
  intros H12. revert l3.
  induction H12 as [| x y l1 l2 Hxy H12 IH]; intros l3 H23;
    inversion H23 as [| y' z l2' l3' Hyz H23']; subst; constructor.
  - destruct Hxy as (Hc1 & Ht1 & Hp1 & Hr1 & _).
    destruct Hyz as (Hc2 & Ht2 & Hp2 & Hr2 & Hseg).
    repeat split; [congruence .. | exact Hseg].
  - now apply IH.
Qed.

Lemma run_follows (type : OrnamentType) (fs : list Frame) :
  Forall (fun f => 0 <= fDelta f <= 1/3) fs ->
  forall s, Forall slow (instances s) ->
            Forall2 follows (instances s) (instances (run type fs s)).
Proof.
  induction 1 as [| f fs Hf Hfs IH]; intros s Hs.
  - cbn. induction Hs as [| x rest [Hsp Hseg] Hrest IHl]; constructor; auto.
    repeat split; auto.
  - cbn [run fold_left].
    pose proof (useFrame_follows f type s Hf Hs) as H1.
    pose proof (follows_slow _ _ Hs H1) as Hs1.
    specialize (IH _ Hs1).
    eapply follows_chain; [exact H1 | exact IH].
Qed.

(** X10: a batch generated from speed draws of [0,1) keeps, through any
    sequence of frames whose deltas lie in [0, 1/3] and any toggling of
    the signal, the number of its instances and the generated chaos point,
    target, speed and rotation of each, and the current position of each
    instance stays on the segment between its chaos point and its
    target. *)
Theorem ornaments_stay_on_segment
    (type : OrnamentType) (ds : list Draws) (fs : list Frame) :
  Forall (fun d => MathUtils.unit_draw (uSpeed d)) ds ->
  Forall (fun f => 0 <= fDelta f <= 1/3) fs ->
  let s := run type fs (mounted type ds) in
  length (instances s) = length ds /\
  forall (i : nat) (d : Draws),
    ds !! i = Some d ->
    exists inst : Instance,
      instances s !! i = Some inst /\
      chaosData inst = chaosData (generate type d) /\
      targetData inst = targetData (generate type d) /\
      speeds inst = speeds (generate type d) /\
      initialRotations inst = initialRotations (generate type d) /\
      onSegment inst.
Proof.
  intros Hds Hfs s.
  assert (Hslow : Forall slow (instances (mounted type ds))).
  { unfold mounted. cbn [instances]. apply Forall_map.
    eapply Forall_impl; [exact Hds |].
    intros d [H0 H1]. split; [cbn; lra |].
    exists 0. split; [lra |]. unfold generate, Vec.lerp. cbn.
    destruct (chaosPoint d) as [x y z]. cbn. f_equal; ring. }
  pose proof (run_follows type fs Hfs _ Hslow) as Hrun. fold s in Hrun.
  split.
  - apply Forall2_length in Hrun. rewrite <- Hrun.
    unfold mounted. cbn. apply length_map.
  - intros i d Hd.
    assert (Hgen : instances (mounted type ds) !! i = Some (generate type d)).
    { unfold mounted. cbn [instances]. rewrite list_lookup_fmap, Hd. reflexivity. }
    destruct (Forall2_lookup_l _ _ _ _ _ Hrun Hgen) as (inst & Hinst & Hfol).
    exists inst. split; [exact Hinst |]. exact Hfol.
Qed.

Lemma ornaments_stay_on_segment_witness :
  let d := mkDraws (mkVector3 1 2 3) (1/2) 0 (1/2) (1/2) 0 0 0 in
  let fs := [mkFrame true FORMED 0 (1/60); mkFrame true CHAOS 1 (1/3)] in
  length (instances (run light fs (mounted light [d]))) = 1%nat.
Proof.
  intros d fs.
  refine (proj1 (ornaments_stay_on_segment light [d] fs _ _)).
  - repeat constructor; cbn; lra.
  - repeat constructor; cbn; lra.
Defined.

End OrnamentRunsSection.

Section OrnamentConvergence.

Import Ornaments OrnamentRuns.

Lemma useFrame_lookup (type : OrnamentType) (ts : TreeState) (t delta : R)
    (s : State) (i : nat) (inst : Instance) :
  instances s !! i = Some inst ->
  instances (useFrame true type ts t delta s) !! i
  = Some (fst (stepInstance type ts t delta i inst)).
Proof.
  intros Hi. unfold useFrame. cbn [negb].
  pose proof (loop_lookup type ts t delta (instances s) 0 (tempObject s) i inst Hi)
    as [H _].
  destruct (loop _ _ _ _ _ _ _) as [[insts ms] tmp]. exact H.
Qed.

Lemma frames_lookup (type : OrnamentType) (ts : TreeState) (delta : R)
    (s : State) (i : nat) (inst : Instance) :
  instances s !! i = Some inst ->
  forall n, exists inst_n,
    instances (frames n type ts delta s) !! i = Some inst_n /\
    chaosData inst_n = chaosData inst /\ targetData inst_n = targetData inst /\
    speeds inst_n = speeds inst.
Proof.
  intros Hi n. induction n as [| n (inst_n & Hn & Hc & Ht & Hs)].
  - exists inst. auto.
  - exists (fst (stepInstance type ts 0 delta i inst_n)).
    split; [cbn [frames]; now apply useFrame_lookup |]. cbn. auto.
Qed.

(** X11: at a constant signal and a constant positive [delta] with
    [speed * delta <= 1], every coordinate of an instance's position
    approaches the coordinate of its destination (the tree target if
    FORMED, the chaos point if CHAOS): the distance never grows, the
    destination is never passed, and after finitely many frames the
    coordinate is within [1e-3] of it. *)
Theorem ornament_position_approaches_target
    (type : OrnamentType) (ts : TreeState) (delta : R) (s : State)
    (i : nat) (inst : Instance) (proj : Vector3 -> R) :
  instances s !! i = Some inst ->
  0 < speeds inst * delta <= 1 ->
  proj = vx \/ proj = vy \/ proj = vz ->
  Damping.approaches
    (fun n => proj (currentOf i inst (frames n type ts delta s)))
    (proj (match ts with
           | FORMED => targetData inst
           | CHAOS => chaosData inst
           end)).
Proof.
  intros Hi Ha Hproj.
  apply contraction_approaches with (a := speeds inst * delta); [exact Ha |].
  intros n. unfold currentOf.
  destruct (frames_lookup type ts delta s i inst Hi n) as (inst_n & Hn & Hc & Ht & Hs).
  rewrite (nth_lookup_Some _ _ _ _ Hn).
  cbn [frames]. rewrite (nth_lookup_Some _ _ _ _ (useFrame_lookup _ _ _ _ _ _ _ Hn)).
  unfold stepInstance. cbn. rewrite Hs, Hc, Ht.
  destruct Hproj as [-> | [-> | ->]]; destruct ts; cbn; ring.
Qed.

Lemma ornament_position_approaches_target_witness :
  let inst := mkInstance (mkVector3 1 2 3) (mkVector3 0 (-7) 5) 2
                         (mkEuler 1 2 3) (mkVector3 1 2 3) in
  let s := mkState [inst] []
             (mkObject3D (mkVector3 0 0 0) (mkEuler 0 0 0) (setScalar 1)) in
  Damping.approaches
    (fun n => vy (currentOf 0 inst (frames n ball FORMED (1/60) s))) (-7).
Proof.
  intros inst s.
  apply (ornament_position_approaches_target ball FORMED (1/60) s 0 inst vy).
  - reflexivity.
  - cbn. lra.
  - auto.
Defined.

End OrnamentConvergence.

(** ** Runs of the star *)

Section StarRunsSection.

Import StarRuns.

Lemma smoothstep_unit (x : R) : 0 <= MathUtils.smoothstep x 0 1 <= 1.
Proof.
  unfold MathUtils.smoothstep.
  destruct (Rle_dec x 0); [lra |]. destruct (Rle_dec 1 x); [lra |].
  replace ((x - 0) / (1 - 0)) with x by field.
  assert (Hx : 0 < x < 1) by lra. split.
  - apply Rmult_le_pos; nra.
  - assert (H1 : 0 <= (1 - x) * (1 - x) * (1 + 2 * x))
      by (apply Rmult_le_pos; nra).
    replace ((1 - x) * (1 - x) * (1 + 2 * x))
      with (1 - x * x * (3 - 2 * x)) in H1 by ring.
    lra.
Qed.

Lemma advance_gap (ts : TreeState) (delta p : R) :
  0 <= p <= 1 -> 0 <= delta ->
  let target := Damping.target01 (TreeState_eqb ts FORMED) in
  Rabs (target - Star.advance ts delta p)
  <= Rmax 0 (Rabs (target - p) - delta / (15/10)).
Proof.
  intros Hp Hd target. unfold target, Star.advance, Damping.target01.
  destruct (TreeState_eqb ts FORMED).
  - rewrite (Rabs_pos_eq (1 - p)) by lra.
    destruct (Rlt_dec (1 / 10000) (1 - p)) as [Hfar | Hnear].
    + rewrite sign_pos by lra. unfold MathUtils.clamp.
      unfold Rmax, Rmin. repeat destruct (Rle_dec _ _);
        try (rewrite Rabs_pos_eq by lra); try lra.
    + replace (1 - 1) with 0 by ring. rewrite Rabs_R0. apply Rmax_l.
  - replace (0 - p) with (- p) by ring. rewrite Rabs_Ropp, (Rabs_pos_eq p) by lra.
    destruct (Rlt_dec (1 / 10000) p) as [Hfar | Hnear].
    + rewrite sign_neg by lra. unfold MathUtils.clamp.
      unfold Rmax, Rmin. repeat destruct (Rle_dec _ _);
        try (rewrite Rabs_left1 by lra); try (rewrite Rabs_pos_eq by lra); try lra.
    + replace (0 - 0) with 0 by ring. rewrite Rabs_R0. apply Rmax_l.
Qed.

Lemma duration_nonneg (fs : list Frame) :
  Forall (fun f => 0 <= fDelta f) fs -> 0 <= duration fs.
Proof.
  induction 1 as [| f fs Hf Hfs IH]; cbn; [lra |].
  fold (duration fs). lra.
Qed.

Lemma run_gap (ts : TreeState) (fs : list Frame) :
  Forall (fun f => 0 <= fDelta f) fs ->
  forall s, 0 <= Star.progress s <= 1 ->
    0 <= Star.progress (run ts fs s) <= 1 /\
    gap ts (run ts fs s) <= Rmax 0 (gap ts s - duration fs / (15/10)).
Proof.
  induction 1 as [| f fs Hf Hfs IH]; intros s Hs.
  - cbn. split; [exact Hs |]. unfold Rdiv. rewrite Rmult_0_l, Rminus_0_r.
    apply Rmax_r.
  - cbn [run fold_left duration fold_right].
    set (s1 := Star.useFrame true ts (fTime f) (fDelta f) s).
    assert (Hs1 : 0 <= Star.progress s1 <= 1) by apply advance_unit.
    destruct (IH s1 Hs1) as [Hb Hg]. split; [exact Hb |].
    fold (duration fs). fold (run ts fs s1).
    pose proof (advance_gap ts (fDelta f) (Star.progress s) Hs Hf) as Hstep.
    assert (Hg1 : gap ts s1 <= Rmax 0 (gap ts s - fDelta f / (15/10))) by exact Hstep.
    clear Hstep IH.
    set (g1 := gap ts s1) in *. set (g0 := gap ts s) in *.
    set (gn := gap ts (run ts fs s1)) in *.
    set (d := fDelta f / (15/10)) in *. set (D := duration fs / (15/10)) in *.
    replace ((fDelta f + duration fs) / (15/10)) with (d + D)
      by (unfold d, D; field).
    assert (Hd : 0 <= d) by (unfold d; lra).
    assert (HD : 0 <= D).
    { pose proof (duration_nonneg fs Hfs). unfold D. lra. }
    unfold Rmax in *.
    destruct (Rle_dec 0 (g1 - D)), (Rle_dec 0 (g0 - d)),
      (Rle_dec 0 (g0 - (d + D))); lra.
Qed.

(** X12: whatever the state, the signal and the delta, a frame callback
    of the star leaves its progress, the opacity of its material and the
    opacity it hands to the swarm on the next render in [0,1], the emissive
    intensity in [0,2], the scale in [1, 1.5], the height within 0.05 of
    8.2, and the yaw at [0.2 * elapsedTime]. *)
Theorem star_outputs_in_range
    (ts : TreeState) (elapsedTime delta : R) (s : Star.State) :
  let s' := Star.useFrame true ts elapsedTime delta s in
  0 <= Star.progress s' <= 1 /\
  0 <= Star.opacity s' <= 1 /\
  0 <= Star.swarmOpacity (Star.render s') <= 1 /\
  0 <= Star.emissiveIntensity s' <= 2 /\
  1 <= Star.scale s' <= 15/10 /\
  Rabs (Star.positionY s' - 82/10) <= 5/100 /\
  Star.rotationY s' = elapsedTime * (2/10).
Proof.
  intros s'. unfold s', Star.useFrame. cbn.
  set (p := MathUtils.smoothstep (Star.advance ts delta (Star.progress s)) 0 1).
  pose proof (smoothstep_unit (Star.advance ts delta (Star.progress s))) as Hp.
  fold p in Hp.
  split; [apply advance_unit |]. split; [exact Hp |]. split; [exact Hp |].
  split; [lra |]. split; [lra |]. split; [| reflexivity].
  apply Rabs_le. pose proof (SIN_bound elapsedTime). split; nra.
Qed.

(** X13: at a constant signal, from a progress in [0,1], the distance of
    the star's progress to its target shrinks by at least [delta / 1.5]
    per frame until it is 0; so frames with non-negative deltas that
    together last 1.5s or more leave the progress exactly at the target:
    fully formed (opacity 1, emissive intensity 2, visible, scale 1) if
    FORMED, fully dissipated (opacity 0, hidden, scale 1.5) if CHAOS. *)
Theorem star_completes_in_time
    (ts : TreeState) (fs : list Frame) (s : Star.State) :
  Forall (fun f => 0 <= fDelta f) fs ->
  0 <= Star.progress s <= 1 ->
  let s' := run ts fs s in
  gap ts s' <= Rmax 0 (gap ts s - duration fs / (15/10)) /\
  (15/10 <= duration fs ->
   Star.progress s' = Damping.target01 (TreeState_eqb ts FORMED) /\
   (ts = FORMED ->
    Star.opacity s' = 1 /\ Star.emissiveIntensity s' = 2 /\
    Star.visible s' = true /\ Star.scale s' = 1) /\
   (ts = CHAOS ->
    Star.opacity s' = 0 /\ Star.visible s' = false /\ Star.scale s' = 15/10)).
Proof.
  intros Hfs Hs s'.
  destruct (run_gap ts fs Hfs s Hs) as [Hb Hg]. fold s' in Hb, Hg.
  split; [exact Hg |]. intros Hlong.
  assert (Hgap0 : gap ts s <= 1).
  { unfold gap, Damping.target01. destruct (TreeState_eqb ts FORMED);
      apply Rabs_le; lra. }
  assert (Hzero : gap ts s' = 0).
  { apply Rle_antisym; [| apply Rabs_pos].
    eapply Rle_trans; [exact Hg |]. apply Rmax_lub; lra. }
  assert (Hprog : Star.progress s' = Damping.target01 (TreeState_eqb ts FORMED)).
  { unfold gap in Hzero.
    destruct (Req_dec_T (Damping.target01 (TreeState_eqb ts FORMED) - Star.progress s') 0)
      as [He | Hne]; [lra |].
    apply Rabs_no_R0 in Hne. contradiction. }
  split; [exact Hprog |].
  assert (Hne : fs <> []).
  { intros ->. cbn in Hlong. lra. }
  destruct (exists_last Hne) as (fs0 & f & ->).
  unfold s', run in *. rewrite fold_left_app in *. cbn [fold_left] in *.
  set (s0 := fold_left _ fs0 s) in *.
  unfold Star.useFrame in *. cbn [negb Star.progress Star.opacity
    Star.emissiveIntensity Star.visible Star.scale] in *.
  rewrite Hprog. unfold MathUtils.smoothstep.
  split; intros ->; cbn.
  - destruct (Rle_dec 1 0); [lra |]. destruct (Rle_dec 1 1); [| lra].
    destruct (Rlt_dec (1/100) 1); [| lra].
    repeat split; lra.
  - destruct (Rle_dec 0 0); [| lra].
    destruct (Rlt_dec (1/100) 0); [lra |].
    repeat split; lra.
Qed.

Lemma star_completes_in_time_witness :
  let fs := [mkFrame 0 1; mkFrame 1 (1/2)] in
  Star.progress (run FORMED fs Star.initial) = 1.
Proof.
  intros fs.
  destruct (star_completes_in_time FORMED fs Star.initial) as [_ Hdone].
  - repeat constructor; cbn; lra.
  - cbn. lra.
  - destruct Hdone as [H _]; [cbn; lra | exact H].
Defined.

End StarRunsSection.

(** ** Photo frame: the focused pose *)

Section FocusedPose.

Import PhotoFrame PhotoRuns.

Lemma currentHeight_pos (d : PhotoData) :
  0 <= frameHeight d -> 0 < currentHeight d.
Proof.
  intros Hh. unfold currentHeight, FRAME_WIDTH.
  destruct (Req_dec_T (frameHeight d) 0); [| lra].
  apply Rmult_lt_0_compat; [lra |]. apply Rdiv_lt_0_compat; lra.
Qed.

(** X14: for a frame height that is not negative, the scale of the
    focused pose makes the frame with its margin of 0.2 fit into 85% of the
    view at the focus distance, in height and in width, and fill one of the
    two exactly; a frame height of 0 stands for the standard height
    [1.2 * 10.8 / 8.9]. *)
Theorem active_scale_fits_view (d : PhotoData) (c : Camera) :
  0 <= frameHeight d ->
  let a := activeScale d c in
  let objW := FRAME_WIDTH + 2/10 in
  let objH := currentHeight d + 2/10 in
  a * objH <= viewHeight c * (85/100) /\
  a * objW <= viewWidth c * (85/100) /\
  (a * objH = viewHeight c * (85/100) \/ a * objW = viewWidth c * (85/100)) /\
  (frameHeight d = 0 -> currentHeight d = 12/10 * ((108/10) / (89/10))) /\
  (frameHeight d <> 0 -> currentHeight d = frameHeight d).
Proof.
  intros Hh a objW objH.
  pose proof (currentHeight_pos d Hh) as Hch.
  assert (HobjH : 0 < objH) by (unfold objH; lra).
  assert (HobjW : 0 < objW) by (unfold objW, FRAME_WIDTH; lra).
  set (sH := viewHeight c * (85/100) / objH).
  set (sW := viewWidth c * (85/100) / objW).
  assert (Ha : a = Rmin sH sW) by reflexivity.
  assert (HsH : sH * objH = viewHeight c * (85/100)) by (unfold sH; field; lra).
  assert (HsW : sW * objW = viewWidth c * (85/100)) by (unfold sW; field; lra).
  rewrite Ha, <- HsH, <- HsW.
  split; [| split; [| split; [| split]]].
  - apply Rmult_le_compat_r; [lra | apply Rmin_l].
  - apply Rmult_le_compat_r; [lra | apply Rmin_r].
  - unfold Rmin. destruct (Rle_dec sH sW); [left | right]; reflexivity.
  - intros H0. unfold currentHeight, FRAME_WIDTH.
    destruct (Req_dec_T (frameHeight d) 0); [reflexivity | contradiction].
  - intros Hn. unfold currentHeight.
    destruct (Req_dec_T (frameHeight d) 0); [contradiction | reflexivity].
Qed.

Lemma active_scale_fits_view_witness :
  let d := mkPhotoData "photo-0" (mkVector3 7 (-6) 0) (mkVector3 1 2 3) 2 in
  let c := mkCamera 45 1 (mkVector3 0 0 0) in
  activeScale d c * (currentHeight d + 2/10) <= viewHeight c * (85/100).
Proof.
  intros d c.
  destruct (active_scale_fits_view d c) as (H & _); [cbn; lra | exact H].
Defined.

(** X15: [useCoverTexture] never stretches the image.  For positive
    image and frame sizes both repeat factors are in (0,1], one of them is
    1, and the part of the image that is shown has the aspect ratio of the
    frame. *)
Theorem cover_texture_keeps_aspect (imgW imgH frameW frameH : R) :
  0 < imgW -> 0 < imgH -> 0 < frameW -> 0 < frameH ->
  let r := CoverTexture.repeat imgW imgH frameW frameH in
  0 < fst r <= 1 /\ 0 < snd r <= 1 /\
  (fst r = 1 \/ snd r = 1) /\
  (fst r * imgW) / (snd r * imgH) = frameW / frameH.
Proof.
  intros HiW HiH HfW HfH r. unfold r, CoverTexture.repeat.
  set (ia := imgW / imgH). set (fa := frameW / frameH).
  assert (Hia : 0 < ia) by (apply Rdiv_lt_0_compat; assumption).
  assert (Hfa : 0 < fa) by (apply Rdiv_lt_0_compat; assumption).
  assert (HiaW : imgW = ia * imgH) by (unfold ia; field; lra).
  destruct (Rlt_dec fa ia) as [Hlt | Hge]; cbn [fst snd].
  - assert (Hq : 0 < fa / ia < 1).
    { split; [now apply Rdiv_lt_0_compat |].
      apply Rmult_lt_reg_r with ia; [exact Hia |].
      unfold Rdiv. rewrite Rmult_assoc, Rinv_l by lra. lra. }
    split; [lra |]. split; [lra |]. split; [right; reflexivity |].
    rewrite HiaW. field. lra.
  - assert (Hq : 0 < ia / fa <= 1).
    { split; [now apply Rdiv_lt_0_compat |].
      apply Rmult_le_reg_r with fa; [exact Hfa |].
      unfold Rdiv. rewrite Rmult_assoc, Rinv_l by lra. lra. }
    split; [lra |]. split; [lra |]. split; [left; reflexivity |].
    rewrite HiaW. unfold fa. field. fold ia.
    repeat split; lra.
Qed.

Lemma cover_texture_keeps_aspect_witness :
  CoverTexture.repeat 1600 900 (12/10) (15/10) = (12/10 / (15/10) / (1600 / 900), 1) /\
  (fst (CoverTexture.repeat 1600 900 (12/10) (15/10)) * 1600)
  / (snd (CoverTexture.repeat 1600 900 (12/10) (15/10)) * 900) = 12/10 / (15/10).
Proof.
  split.
  - unfold CoverTexture.repeat. destruct (Rlt_dec _ _) as [_ | Hn]; [reflexivity |].
    exfalso. apply Hn. lra.
  - apply (cover_texture_keeps_aspect 1600 900 (12/10) (15/10)); lra.
Defined.

End FocusedPose.

(** ** Photo frame: focusing and un-focusing *)

Section FocusRuns.

Import PhotoFrame PhotoRuns.

Lemma photo_duration_nonneg (fs : list Frame) :
  Forall (fun f => 0 <= fDelta f) fs -> 0 <= duration fs.
Proof.
  induction 1 as [| f fs Hf Hfs IH]; cbn; [lra |].
  fold (duration fs). lra.
Qed.

Lemma focus_step_gap (p : Props) (c : Camera) (delta : R) (s : State) :
  0 <= progress s <= 1 -> 0 <= delta ->
  let s' := fst (useFrame true p c delta s) in
  0 <= progress s' <= 1 /\
  Rabs (focusTarget p - progress s')
  <= Rmax 0 (Rabs (focusTarget p - progress s) - delta * (15/10)).
Proof.
  intros Hp Hd s'. unfold s', useFrame, focusTarget, Damping.target01.
  cbn [negb fst progress].
  destruct (isFocused p).
  - rewrite (Rabs_pos_eq (1 - progress s)) by lra.
    unfold Rmin, Rmax. repeat destruct (Rle_dec _ _);
      (split; [lra |]); rewrite Rabs_pos_eq by lra; lra.
  - replace (0 - progress s) with (- progress s) by ring.
    rewrite Rabs_Ropp, (Rabs_pos_eq (progress s)) by lra.
    unfold Rmax. repeat destruct (Rle_dec _ _);
      (split; [lra |]);
      match goal with
      | |- Rabs (0 - ?x) <= _ =>
          replace (0 - x) with (- x) by ring; rewrite Rabs_Ropp, Rabs_pos_eq by lra
      end; lra.
Qed.

Lemma focus_run_gap (p : Props) (fs : list Frame) :
  Forall (fun f => 0 <= fDelta f) fs ->
  forall s, 0 <= progress s <= 1 ->
    0 <= progress (run p fs s) <= 1 /\
    Rabs (focusTarget p - progress (run p fs s))
    <= Rmax 0 (Rabs (focusTarget p - progress s) - duration fs * (15/10)).
Proof.
  induction 1 as [| f fs Hf Hfs IH]; intros s Hs.
  - cbn. split; [exact Hs |]. rewrite Rmult_0_l, Rminus_0_r. apply Rmax_r.
  - cbn [run fold_left duration fold_right].
    set (s1 := fst (useFrame true p (fCamera f) (fDelta f) s)).
    destruct (focus_step_gap p (fCamera f) (fDelta f) s Hs Hf) as [Hs1 Hg1].
    fold s1 in Hs1, Hg1.
    destruct (IH s1 Hs1) as [Hb Hg]. split; [exact Hb |].
    fold (duration fs). fold (run p fs s1).
    pose proof (photo_duration_nonneg fs Hfs) as HD.
    set (g1 := Rabs (focusTarget p - progress s1)) in *.
    set (g0 := Rabs (focusTarget p - progress s)) in *.
    set (gn := Rabs (focusTarget p - progress (run p fs s1))) in *.
    unfold Rmax in *.
    destruct (Rle_dec 0 (g1 - duration fs * (15/10))),
      (Rle_dec 0 (g0 - fDelta f * (15/10))),
      (Rle_dec 0 (g0 - (fDelta f + duration fs) * (15/10))); lra.
Qed.

(** X16: at constant props, from a focus progress in [0,1], frames with
    non-negative deltas that together last 2/3 s or more complete the
    transition.  A focused frame then has focus progress exactly 1 and
    stands at the camera's front point of the last frame, at the active
    scale times its visibility scale; a frame that is not focused has
    focus progress exactly 0, is not flipped, and stands at its smoothed
    resting position at its visibility scale. *)
Theorem focus_transition_completes
    (p : Props) (fs : list Frame) (last_f : Frame) (s : State) :
  Forall (fun f => 0 <= fDelta f) (fs ++ [last_f]) ->
  0 <= progress s <= 1 ->
  2/3 <= duration (fs ++ [last_f]) ->
  let s' := run p (fs ++ [last_f]) s in
  (isFocused p = true ->
   progress s' = 1 /\
   groupPosition s' = front (fCamera last_f) /\
   groupScale s' = activeScale (data p) (fCamera last_f) * visibilityScale s') /\
  (isFocused p = false ->
   progress s' = 0 /\ isFlipped s' = false /\
   groupPosition s' = currentRestingPos s' /\
   groupScale s' = visibilityScale s').
Proof.
  intros Hfs Hs Hlong s'.
  destruct (focus_run_gap p _ Hfs s Hs) as [Hb Hg]. fold s' in Hb, Hg.
  assert (Hg0 : Rabs (focusTarget p - progress s) <= 1).
  { unfold focusTarget, Damping.target01. destruct (isFocused p);
      apply Rabs_le; lra. }
  assert (Hzero : Rabs (focusTarget p - progress s') = 0).
  { apply Rle_antisym; [| apply Rabs_pos].
    eapply Rle_trans; [exact Hg |]. apply Rmax_lub; lra. }
  assert (Hprog : progress s' = focusTarget p).
  { destruct (Req_dec_T (focusTarget p - progress s') 0) as [He | Hne]; [lra |].
    apply Rabs_no_R0 in Hne. contradiction. }
  unfold s', run in *. rewrite fold_left_app in *. cbn [fold_left] in *.
  set (s0 := fold_left _ fs s) in *.
  unfold useFrame in *. cbn [negb fst progress isFlipped groupPosition
    groupScale visibilityScale currentRestingPos] in *.
  unfold focusTarget, Damping.target01 in Hprog.
  split; intros Hf; rewrite Hf in *; rewrite Hprog.
  - split; [reflexivity |]. split.
    + unfold Vec.lerpVectors.
      destruct (front (fCamera last_f)) as [x y z]. cbn. f_equal; ring.
    + unfold MathUtils.lerp. ring.
  - split; [reflexivity |]. split.
    + cbn [negb andb]. unfold MathUtils.isZero.
      destruct (Req_dec_T 0 0) as [_ | Hn]; [| contradiction].
      destruct (isFlipped s0); reflexivity.
    + split.
      * unfold Vec.lerpVectors.
        match goal with |- mkVector3 _ _ _ = ?v => destruct v as [x y z] eqn:Hv end.
        cbn. f_equal; ring.
      * unfold MathUtils.lerp. ring.
Qed.

Lemma focus_transition_completes_witness :
  let d := mkPhotoData "photo-0" (mkVector3 7 (-6) 0) (mkVector3 1 2 3) 0 in
  let p := mkProps d FORMED true false in
  let f := mkFrame (mkCamera 45 1 (mkVector3 0 1 9)) (1/3) in
  progress (run p ([f] ++ [f]) (initial d)) = 1 /\
  groupPosition (run p ([f] ++ [f]) (initial d)) = mkVector3 0 1 9.
Proof.
  intros d p f.
  destruct (focus_transition_completes p [f] f (initial d)) as [Hfoc _].
  - repeat constructor; cbn; lra.
  - cbn. lra.
  - cbn. lra.
  - destruct (Hfoc eq_refl) as (H1 & H2 & _). split; [exact H1 | exact H2].
Defined.

End FocusRuns.

(** ** Photo frame: invariants of its runs *)

Section PhotoInvariants.

Import PhotoFrame Gestures PhotoRuns PhotoEvents.

Lemma step_keeps_resting (e : Event) (sw : State * Timers) :
  match e with EvFrame _ _ _ _ => False | _ => True end ->
  currentRestingPos (fst (fst (step e sw))) = currentRestingPos (fst sw).
Proof.
  destruct sw as [s w].
  destruct e as [p | p | p | a p c delta | ms]; cbn -[elapse]; intros He;
    try contradiction.
  - destruct (isClearing p); [reflexivity |].
    destruct (isFocused p); cbn; [| reflexivity].
    destruct (clickTimeoutRef s); reflexivity.
  - destruct (clickTimeoutRef s); destruct (isFocused p); reflexivity.
  - destruct (isFocused p); reflexivity.
  - unfold elapse. destruct (map_to_list _); reflexivity.
Qed.

(** X17: as long as the frames of a mounted photo frame are for the same
    photo and have deltas in [0, 0.4], its smoothed resting position stays
    on the segment between the photo's chaos point and its spiral
    position, whatever clicks, double-clicks, signal toggles, focus
    changes and timeouts happen in between. *)
Theorem resting_position_stays_on_segment
    (d : PhotoData) (es : list Event) :
  steadyFrames d es -> restsOnSegment d (fst (after d es)).
Proof.
  intros Hes.
  assert (Hgen : forall sw, restsOnSegment d (fst sw) ->
                            restsOnSegment d (fst (fst (PhotoFrame.run es sw)))).
  { induction Hes as [| e es He Hes IH]; intros sw Hsw; [exact Hsw |].
    cbn [PhotoFrame.run]. destruct (step e sw) as [sw1 out1] eqn:Hstep.
    specialize (IH sw1). destruct (PhotoFrame.run es sw1) as [sw2 out2]. cbn [fst] in *.
    apply IH. clear IH.
    destruct e as [p | p | p | a p c delta | ms];
      try (unfold restsOnSegment in *;
           match goal with
           | H : step ?e sw = _ |- _ =>
               pose proof (step_keeps_resting e sw I) as Hk; rewrite H in Hk
           end; cbn [fst] in Hk; rewrite Hk; exact Hsw).
    destruct He as [Hdata Hdelta].
    destruct sw as [s w]. cbn in Hstep.
    unfold useFrame in Hstep. destruct a; cbn [negb] in Hstep;
      injection Hstep as <- _; cbn [fst]; [| exact Hsw].
    destruct Hsw as (k & Hk & Hcur). unfold restsOnSegment.
    cbn [currentRestingPos fst]. cbn [fst] in Hcur. rewrite Hcur.
    unfold destRestingPos. rewrite Hdata.
    set (a := delta * (25/10)).
    destruct (TreeState_eqb (treeState p) FORMED).
    - exists (k + (1 - k) * a). split; [unfold a; split; nra |].
      unfold Vec.lerp. cbn. f_equal; ring.
    - exists (k * (1 - a)). split; [unfold a; split; nra |].
      unfold Vec.lerp. cbn. f_equal; ring. }
  apply (Hgen (initial d, noTimers)).
  exists 0. split; [lra |]. cbn. unfold Vec.lerp.
  destruct (chaosPos d) as [x y z]. cbn. f_equal; ring.
Qed.

Lemma resting_position_stays_on_segment_witness :
  let d := mkPhotoData "photo-0" (mkVector3 7 (-6) 0) (mkVector3 1 2 3) 0 in
  let c := mkCamera 45 1 (mkVector3 0 0 0) in
  let es := [EvFrame true (mkProps d FORMED false false) c (1/60);
             EvClick (mkProps d FORMED false false);
             EvFrame true (mkProps d CHAOS true false) c (2/5)] in
  restsOnSegment d (fst (after d es)).
Proof.
  intros d c es.
  apply (resting_position_stays_on_segment d es).
  repeat constructor; cbn; lra.
Defined.

Lemma dueSoon_step (e : Event) (sw : State * Timers) :
  dueSoon (snd sw) -> dueSoon (snd (fst (step e sw))).
Proof.
  destruct sw as [s w]. unfold dueSoon. cbn [snd].
  destruct e as [p | p | p | a p c delta | ms]; cbn -[elapse]; intros Hw.
  - destruct (isClearing p); [exact Hw |].
    destruct (isFocused p); cbn; [| exact Hw].
    destruct (clickTimeoutRef s); cbn; [exact Hw |].
    intros h dl Hl. apply lookup_insert_Some in Hl as [[_ <-] | [_ Hl]];
      [lia | now apply (Hw h)].
  - destruct (clickTimeoutRef s) as [h0 |]; destruct (isFocused p); cbn;
      try exact Hw;
      intros h dl Hl; apply lookup_delete_Some in Hl as [_ Hl]; now apply (Hw h).
  - destruct (isFocused p); exact Hw.
  - destruct (useFrame a p c delta s). exact Hw.
  - unfold elapse. cbn. intros h dl Hl.
    apply map_lookup_filter_Some in Hl as [Hl _]. apply Hw in Hl. lia.
Qed.

(** X18: in every state a mounted frame can reach, at most one timeout
    is pending; when one is, its handle is the one in [clickTimeoutRef],
    and its deadline lies ahead, at most 250ms away. *)
Theorem at_most_one_deferred_blur (d0 : PhotoData) (es : list Event) :
  let sw := after d0 es in
  (size (pending (snd sw)) <= 1)%nat /\
  (clickTimeoutRef (fst sw) = None -> pending (snd sw) = ∅) /\
  forall h dl,
    pending (snd sw) !! h = Some dl ->
    clickTimeoutRef (fst sw) = Some h /\
    (now (snd sw) < dl <= now (snd sw) + 250)%nat.
Proof.
  intros sw. pose proof (tracked_after d0 es) as Htr. fold sw in Htr.
  assert (Hdue : dueSoon (snd sw)).
  { unfold sw, after.
    assert (H0 : dueSoon (snd (initial d0, noTimers))).
    { intros h dl Hl. cbn in Hl. rewrite lookup_empty in Hl. discriminate. }
    revert H0. generalize (initial d0, noTimers) as sw0.
    clear. induction es as [| e es IH]; intros sw0 H0; [exact H0 |].
    cbn [PhotoFrame.run]. pose proof (dueSoon_step e sw0 H0) as H1.
    destruct (step e sw0) as [sw1 out1]. cbn [fst] in H1.
    specialize (IH sw1 H1). destruct (PhotoFrame.run es sw1) as [sw2 out2].
    exact IH. }
  clearbody sw. destruct sw as [s w]. unfold tracked in Htr.
  cbn [fst snd] in *.
  destruct (clickTimeoutRef s) as [h0 |].
  - destruct Htr as (dl0 & Hw & Hnow & Hh).
    split; [rewrite Hw, map_size_singleton; lia |].
    split; [discriminate |].
    intros h dl Hl. pose proof (Hdue h dl Hl) as Hd.
    rewrite Hw in Hl. apply lookup_singleton_Some in Hl as [<- <-].
    split; [reflexivity | lia].
  - split; [rewrite Htr, map_size_empty; lia |].
    split; [intros _; exact Htr |].
    intros h dl Hl. rewrite Htr, lookup_empty in Hl. discriminate.
Qed.

Lemma at_most_one_deferred_blur_witness :
  let d := mkPhotoData "photo-0" (mkVector3 7 (-6) 0) (mkVector3 1 2 3) 0 in
  let p := mkProps d FORMED true false in
  clickTimeoutRef (fst (after d [EvClick p; EvClick p])) = Some 1%nat.
Proof.
  intros d p.
  destruct (at_most_one_deferred_blur d [EvClick p; EvClick p]) as (_ & _ & H).
  exact (proj1 (H 1%nat 250%nat eq_refl)).
Defined.

End PhotoInvariants.

Section DeferredBlurFires.

Import PhotoFrame Gestures PhotoRuns.

Lemma timerBlurs_app (h : nat) (out1 out2 : list Emit) :
  timerBlurs h (out1 ++ out2) = (timerBlurs h out1 + timerBlurs h out2)%nat.
Proof. unfold timerBlurs. now rewrite List.filter_app, length_app. Qed.

Lemma frame_no_timer_blur (h : nat) (a : bool) (p : Props) (c : Camera)
    (delta : R) (s : State) :
  timerBlurs h (snd (useFrame a p c delta s)) = 0%nat.
Proof.
  unfold useFrame. destruct a; cbn; [| reflexivity].
  destruct (isClearing p && isFocused p); reflexivity.
Qed.

Lemma quiet_idle (h : nat) (es : list Event) :
  forallb quiet es = true ->
  forall s w, pending w = ∅ -> clickTimeoutRef s = None ->
    let r := PhotoFrame.run es (s, w) in
    timerBlurs h (snd r) = 0%nat /\
    pending (snd (fst r)) = ∅ /\ clickTimeoutRef (fst (fst r)) = None.
Proof.
  induction es as [| e es IH]; intros Hq s w Hw Href; [cbn; auto |].
  cbn [forallb] in Hq. apply andb_prop in Hq as [He Hq].
  specialize (IH Hq).
  destruct e as [p | p | p | a p c delta | ms]; try discriminate He.
  - cbn [PhotoFrame.run step fst snd].
    pose proof (frame_no_timer_blur h a p c delta s) as Hb.
    pose proof (useFrame_keeps_ref a p c delta s) as Hk.
    destruct (useFrame a p c delta s) as [s1 out1]. cbn [fst snd] in *.
    specialize (IH s1 w Hw ltac:(congruence)).
    destruct (PhotoFrame.run es (s1, w)) as [sw2 out2]. cbn [fst snd] in *.
    rewrite timerBlurs_app, Hb. exact IH.
  - cbn [PhotoFrame.run step]. rewrite (elapse_idle ms s w Hw).
    specialize (IH s (mkTimers (now w + ms) ∅ (nextHandle w)) eq_refl Href).
    destruct (PhotoFrame.run es _) as [sw2 out2]. cbn [fst snd] in *. exact IH.
Qed.

Lemma quiet_pending (h dl : nat) (es : list Event) :
  forallb quiet es = true ->
  forall s w,
    pending w = {[ h := dl ]} -> clickTimeoutRef s = Some h ->
    (now w < dl)%nat ->
    let r := PhotoFrame.run es (s, w) in
    ((now w + elapsed es < dl)%nat ->
     timerBlurs h (snd r) = 0%nat /\
     pending (snd (fst r)) = {[ h := dl ]} /\
     clickTimeoutRef (fst (fst r)) = Some h) /\
    ((dl <= now w + elapsed es)%nat ->
     timerBlurs h (snd r) = 1%nat /\
     pending (snd (fst r)) = ∅ /\ clickTimeoutRef (fst (fst r)) = None).
Proof.
  induction es as [| e es IH]; intros Hq s w Hw Href Hnow.
  - cbn. split; [auto |]. intros Hle. lia.
  - cbn [forallb] in Hq. apply andb_prop in Hq as [He Hq].
    specialize (IH Hq).
    destruct e as [p | p | p | a p c delta | ms]; try discriminate He.
    + cbn [PhotoFrame.run step fst snd elapsed fold_right].
      fold (elapsed es).
      pose proof (frame_no_timer_blur h a p c delta s) as Hb.
      pose proof (useFrame_keeps_ref a p c delta s) as Hk.
      destruct (useFrame a p c delta s) as [s1 out1]. cbn [fst snd] in *.
      specialize (IH s1 w Hw ltac:(congruence) Hnow).
      destruct (PhotoFrame.run es (s1, w)) as [sw2 out2]. cbn [fst snd] in *.
      rewrite timerBlurs_app, Hb. exact IH.
    + cbn [PhotoFrame.run step elapsed fold_right]. fold (elapsed es).
      destruct (le_lt_dec dl (now w + ms)) as [Hdue | Hnot].
      * rewrite (elapse_due ms h dl s w Hw Hdue).
        pose proof (quiet_idle h es Hq (setClickTimeoutRef None s)
                      (mkTimers (now w + ms) ∅ (nextHandle w)) eq_refl eq_refl)
          as Hidle.
        destruct (PhotoFrame.run es _) as [sw2 out2]. cbn [fst snd] in *.
        destruct Hidle as (Hb & Hp & Hr).
        split; [intros Hlt; lia |]. intros _.
        rewrite timerBlurs_app, Hb. unfold timerBlurs. cbn.
        rewrite Nat.eqb_refl. cbn. auto.
      * rewrite (elapse_before ms h dl s w Hw Hnot).
        specialize (IH s (mkTimers (now w + ms) {[ h := dl ]} (nextHandle w))
                       eq_refl Href Hnot).
        destruct (PhotoFrame.run es _) as [sw2 out2]. cbn [fst snd now] in *.
        destruct IH as [IH1 IH2]. split; intros Hcmp.
        -- apply IH1. lia.
        -- apply IH2. lia.
Qed.

(** X19: a deferred blur that is pending in a state a mounted frame can
    reach fires exactly once if only frames and time follow: in a run of
    frame callbacks and waits, the timeout emits no blur and stays pending
    as long as the waits add up to less than the time to its deadline, and
    it has emitted exactly one blur, left the table and cleared
    [clickTimeoutRef] once they reach it. *)
Theorem deferred_blur_fires_exactly_once
    (d0 : PhotoData) (es es' : list Event) (h dl : nat) :
  let sw := after d0 es in
  pending (snd sw) !! h = Some dl ->
  forallb quiet es' = true ->
  let r := PhotoFrame.run es' sw in
  ((now (snd sw) + elapsed es' < dl)%nat ->
   timerBlurs h (snd r) = 0%nat /\
   pending (snd (fst r)) !! h = Some dl /\
   clickTimeoutRef (fst (fst r)) = Some h) /\
  ((dl <= now (snd sw) + elapsed es')%nat ->
   timerBlurs h (snd r) = 1%nat /\
   pending (snd (fst r)) = ∅ /\ clickTimeoutRef (fst (fst r)) = None).
Proof.
  intros sw Hpend Hq.
  pose proof (tracked_after d0 es) as Htr. fold sw in Htr.
  clearbody sw. destruct sw as [s w]. unfold tracked in Htr.
  cbn [fst snd] in *.
  destruct (clickTimeoutRef s) as [h0 |] eqn:Href;
    [| rewrite Htr, lookup_empty in Hpend; discriminate].
  destruct Htr as (dl0 & Hw & Hnow & _).
  rewrite Hw in Hpend. apply lookup_singleton_Some in Hpend as [<- <-].
  destruct (quiet_pending h0 dl0 es' Hq s w Hw Href Hnow) as [H1 H2].
  split; [| exact H2].
  intros Hlt. destruct (H1 Hlt) as (Hb & Hp & Hr).
  split; [exact Hb |]. split; [| exact Hr].
  rewrite Hp. apply lookup_singleton_eq.
Qed.

Lemma deferred_blur_fires_exactly_once_witness :
  let d := mkPhotoData "photo-0" (mkVector3 7 (-6) 0) (mkVector3 1 2 3) 0 in
  let p := mkProps d FORMED true false in
  let c := mkCamera 45 1 (mkVector3 0 0 0) in
  let es' := [EvElapse 100; EvFrame true p c (1/60); EvElapse 200;
              EvFrame true p c (1/60); EvElapse 500] in
  timerBlurs 1 (snd (PhotoFrame.run es' (after d [EvClick p]))) = 1%nat.
Proof.
  intros d p c es'.
  destruct (deferred_blur_fires_exactly_once d [EvClick p] es' 1 250 eq_refl eq_refl)
    as [_ Hfire].
  apply Hfire. cbn. lia.
Defined.

End DeferredBlurFires.

(** ** Text of the back photo *)

Section BackPhotoText.

Import BackPhoto BackPhotoInv.

Lemma widthOf_nonneg (c : nat) : (0 <= widthOf c)%Q.
Proof.
  unfold widthOf, spaceWidth, FONT_SIZE.
  destruct (isWide c); [discriminate |].
  destruct (c =? space)%nat; discriminate.
Qed.

Lemma lineWidth_cons (c : nat) (l : list nat) :
  lineWidth (c :: l) = (widthOf c + lineWidth l)%Q.
Proof. reflexivity. Qed.

Lemma lineWidth_nonneg (l : list nat) : (0 <= lineWidth l)%Q.
Proof.
  induction l as [| c l IH]; [discriminate |].
  rewrite lineWidth_cons. pose proof (widthOf_nonneg c). Lqa.lra.
Qed.

Lemma lineWidth_app (l1 l2 : list nat) :
  (lineWidth (l1 ++ l2) == lineWidth l1 + lineWidth l2)%Q.
Proof.
  induction l1 as [| c l1 IH].
  - change (lineWidth []) with 0%Q. cbn [app]. Lqa.lra.
  - cbn [app]. rewrite !lineWidth_cons. Lqa.lra.
Qed.

Lemma overflows_false (a : Q) :
  overflows a = false <-> (a <= MAX_LINE_WIDTH)%Q.
Proof.
  unfold overflows. rewrite negb_false_iff. apply Qle_bool_iff.
Qed.

Lemma isEmpty_true (l : list nat) : isEmpty l = true <-> l = [].
Proof. destruct l; cbn; split; congruence. Qed.

Lemma isWord_fits (l : list nat) : isWord l -> fits l.
Proof. intros H. now right. Qed.

Ltac accounted_split :=
  unfold accounted;
  cbn [lines currentLine currentWidth wordBuffer wordWidth];
  split; [| split; [| split; [| split]]].

Lemma empty_width : (0 == lineWidth [])%Q.
Proof. reflexivity. Qed.

Lemma empty_word : isWord [].
Proof. constructor. Qed.

Lemma pushed_good (ls : list (list nat)) (cl : list nat) :
  Forall good ls -> fits cl -> isEmpty cl = false -> Forall good (ls ++ [cl]).
Proof.
  intros Hl Hfit Hc. apply Forall_app. split; [exact Hl |].
  constructor; [| constructor]. split; [| exact Hfit].
  intros Hn. rewrite Hn in Hc. discriminate.
Qed.

Lemma flushWord_accounted (st : Wrap) :
  accounted st ->
  accounted (flushWord st) /\ wordBuffer (flushWord st) = [] /\
  content (flushWord st) = content st.
Proof.
  intros (Hl & Hcw & Hfit & Hww & Hword). unfold flushWord.
  destruct (isEmpty (wordBuffer st)) eqn:He.
  - apply isEmpty_true in He.
    split; [| split; [exact He | reflexivity]].
    unfold accounted. auto.
  - destruct (overflows (currentWidth st + wordWidth st)) eqn:Hov.
    + destruct (isEmpty (currentLine st)) eqn:Hc; cbn [negb].
      * apply isEmpty_true in Hc.
        split; [| split; [reflexivity |]].
        -- accounted_split.
           ++ exact Hl.
           ++ exact Hww.
           ++ now apply isWord_fits.
           ++ exact empty_width.
           ++ exact empty_word.
        -- unfold content. cbn. rewrite Hc. now rewrite app_nil_r.
      * split; [| split; [reflexivity |]].
        -- accounted_split.
           ++ now apply pushed_good.
           ++ exact Hww.
           ++ now apply isWord_fits.
           ++ exact empty_width.
           ++ exact empty_word.
        -- unfold content. cbn. rewrite concat_app. cbn.
           rewrite !app_nil_r. now rewrite <- app_assoc.
    + apply overflows_false in Hov.
      split; [| split; [reflexivity |]].
      * accounted_split.
        -- exact Hl.
        -- rewrite lineWidth_app. Lqa.lra.
        -- left. rewrite lineWidth_app. Lqa.lra.
        -- exact empty_width.
        -- exact empty_word.
      * unfold content. cbn. now rewrite app_nil_r.
Qed.

Lemma lineWidth_snoc (l : list nat) (c : nat) :
  (lineWidth (l ++ [c]) == lineWidth l + widthOf c)%Q.
Proof.
  rewrite lineWidth_app, lineWidth_cons. change (lineWidth []) with 0%Q.
  Lqa.lra.
Qed.

Lemma stepChar_accounted (st : Wrap) (c : nat) :
  accounted st ->
  accounted (stepChar st c) /\
  List.filter notSpace (content (stepChar st c))
  = List.filter notSpace (content st ++ [c]).
Proof.
  intros Hst.
  destruct (flushWord_accounted st Hst) as ((Hl & Hcw & Hfit & Hww & Hword) & Hwb & Hcont).
  unfold stepChar.
  destruct (isWide c) eqn:Hwide.
  - assert (HwO : widthOf c = charWidth c).
    { unfold widthOf, charWidth. now rewrite Hwide. }
    destruct (overflows (currentWidth (flushWord st) + charWidth c)) eqn:Hov.
    + split.
      * accounted_split.
        -- destruct (isEmpty (currentLine (flushWord st))) eqn:Hc; cbn [negb];
             [exact Hl | now apply pushed_good].
        -- rewrite lineWidth_cons, HwO. change (lineWidth []) with 0%Q. Lqa.lra.
        -- left. rewrite lineWidth_cons, HwO. unfold charWidth. rewrite Hwide.
           discriminate.
        -- exact Hww.
        -- exact Hword.
      * rewrite <- Hcont. unfold content. cbn. rewrite Hwb, !app_nil_r.
        destruct (isEmpty (currentLine (flushWord st))) eqn:Hc; cbn [negb].
        -- apply isEmpty_true in Hc. rewrite Hc. now rewrite app_nil_r.
        -- rewrite concat_app. cbn. now rewrite app_nil_r, <- app_assoc.
    + apply overflows_false in Hov. split.
      * accounted_split.
        -- exact Hl.
        -- rewrite lineWidth_snoc, HwO. Lqa.lra.
        -- left. rewrite lineWidth_snoc, HwO. Lqa.lra.
        -- exact Hww.
        -- exact Hword.
      * rewrite <- Hcont. unfold content. cbn. rewrite Hwb, !app_nil_r.
        now rewrite app_assoc.
  - destruct (c =? space)%nat eqn:Hsp.
    + assert (HwO : widthOf c = spaceWidth).
      { unfold widthOf. now rewrite Hwide, Hsp. }
      destruct (Qle_bool (currentWidth (flushWord st) + spaceWidth) MAX_LINE_WIDTH)
        eqn:Hle.
      * apply Qle_bool_iff in Hle. split.
        -- accounted_split.
           ++ exact Hl.
           ++ rewrite lineWidth_snoc, HwO. Lqa.lra.
           ++ left. rewrite lineWidth_snoc, HwO. Lqa.lra.
           ++ exact Hww.
           ++ exact Hword.
        -- rewrite <- Hcont. unfold content. cbn. rewrite Hwb, !app_nil_r.
           now rewrite app_assoc.
      * split; [unfold accounted; auto |].
        rewrite Hcont, List.filter_app. cbn [List.filter]. unfold notSpace at 3.
        rewrite Hsp. cbn. now rewrite app_nil_r.
    + destruct Hst as (Hl0 & Hcw0 & Hfit0 & Hww0 & Hword0).
      assert (HwO : widthOf c = charWidth c).
      { unfold widthOf, charWidth. now rewrite Hwide, Hsp. }
      split.
      * accounted_split.
        -- exact Hl0.
        -- exact Hcw0.
        -- exact Hfit0.
        -- rewrite lineWidth_snoc, HwO. Lqa.lra.
        -- apply Forall_app. split; [exact Hword0 |].
           constructor; [| constructor]. split; [exact Hwide |].
           intros ->. discriminate.
      * unfold content. cbn. now rewrite !app_assoc.
Qed.

Lemma loop_accounted (p : list nat) :
  forall st, accounted st ->
    accounted (fold_left stepChar p st) /\
    List.filter notSpace (content (fold_left stepChar p st))
    = List.filter notSpace (content st ++ p).
Proof.
  induction p as [| c p IH]; intros st Hst.
  - cbn. now rewrite app_nil_r.
  - cbn [fold_left]. destruct (stepChar_accounted st c Hst) as [H1 Hc1].
    destruct (IH _ H1) as [H2 Hc2]. split; [exact H2 |].
    rewrite Hc2, List.filter_app, Hc1, <- List.filter_app, <- app_assoc.
    reflexivity.
Qed.

Lemma wrapParagraph_good (ls : list (list nat)) (p : list nat) :
  Forall good ls ->
  Forall good (wrapParagraph ls p) /\
  List.filter notSpace (concat (wrapParagraph ls p))
  = List.filter notSpace (concat ls ++ p).
Proof.
  intros Hls.
  assert (H0 : accounted (mkWrap ls [] 0 [] 0)).
  { accounted_split.
    - exact Hls.
    - exact empty_width.
    - left. discriminate.
    - exact empty_width.
    - exact empty_word. }
  destruct (loop_accounted p _ H0) as [H1 Hc1].
  destruct (flushWord_accounted _ H1) as ((Hl & Hcw & Hfit & Hww & Hword) & Hwb & Hcont).
  unfold wrapParagraph.
  set (st := flushWord (fold_left stepChar p (mkWrap ls [] 0 [] 0))) in *.
  assert (Hcontent : List.filter notSpace (content st)
                     = List.filter notSpace (concat ls ++ p)).
  { rewrite Hcont, Hc1. unfold content. cbn. now rewrite app_nil_r. }
  unfold content in Hcontent. rewrite Hwb, app_nil_r in Hcontent.
  destruct (isEmpty (currentLine st)) eqn:Hc; cbn [negb].
  - apply isEmpty_true in Hc. rewrite Hc, app_nil_r in Hcontent.
    split; [exact Hl | exact Hcontent].
  - split.
    + apply Forall_app. split; [exact Hl |].
      constructor; [| constructor]. split; [| exact Hfit].
      intros Hn. rewrite Hn in Hc. discriminate.
    + rewrite concat_app. cbn. rewrite app_nil_r. exact Hcontent.
Qed.

Lemma split_concat (text : list nat) :
  concat (split text)
  = List.filter (fun c => negb (c =? newline)%nat) text.
Proof.
  induction text as [| c rest IH]; [reflexivity |].
  cbn [split List.filter]. destruct (c =? newline)%nat; cbn [negb].
  - cbn. exact IH.
  - destruct (split rest) as [| p ps]; cbn in *; now rewrite <- IH.
Qed.

Lemma wrap_fold (ps : list (list nat)) :
  forall ls, Forall good ls ->
    Forall good (fold_left wrapParagraph ps ls) /\
    List.filter notSpace (concat (fold_left wrapParagraph ps ls))
    = List.filter notSpace (concat ls ++ concat ps).
Proof.
  induction ps as [| p ps IH]; intros ls Hls.
  - cbn. now rewrite app_nil_r.
  - cbn [fold_left]. destruct (wrapParagraph_good ls p Hls) as [H1 Hc1].
    destruct (IH _ H1) as [H2 Hc2]. split; [exact H2 |].
    rewrite Hc2, List.filter_app, Hc1, <- List.filter_app. cbn.
    now rewrite <- app_assoc.
Qed.

(** X20: the lines that [createBackPhotoUri] lays out are never empty;
    each is at most 864 wide (64 per wide character, 35.2 per other
    character, 19.2 per space) unless it is a single run of narrow
    characters without a space; and together they hold the characters of
    the text (of the default text when the text is empty) in order, except
    line breaks and spaces. *)
Theorem back_text_lines_fit (text : list nat) :
  let rawText := if isEmpty text then defaultText else text in
  Forall (fun line =>
            line <> [] /\
            ((lineWidth line <= 864)%Q \/ isWord line))
         (wrapText text) /\
  List.filter notSpace (concat (wrapText text))
  = List.filter notSpace
      (List.filter (fun c => negb (c =? newline)%nat) rawText).
Proof.
  intros rawText. unfold wrapText. fold rawText.
  destruct (wrap_fold (split rawText) [] ltac:(constructor)) as [Hgood Hc].
  split.
  - eapply Forall_impl; [exact Hgood |]. intros line [Hne Hfit].
    split; [exact Hne |]. exact Hfit.
  - rewrite Hc. cbn. now rewrite split_concat.
Qed.

End BackPhotoText.

Section BackPhotoShort.

Import BackPhoto BackPhotoInv BackPhotoOneLine.

Lemma flushWord_unbroken (ls : list (list nat)) (q : list nat) (st : Wrap) :
  unbroken ls q st -> (lineWidth q <= MAX_LINE_WIDTH)%Q ->
  unbroken ls q (flushWord st) /\
  currentLine (flushWord st) = q /\ wordBuffer (flushWord st) = [].
Proof.
  intros (Hl & Hq & Hcw & Hww) Hfit. unfold flushWord.
  destruct (isEmpty (wordBuffer st)) eqn:He.
  - apply isEmpty_true in He. rewrite He, app_nil_r in Hq.
    split; [| split; [exact Hq | exact He]].
    rewrite He in Hww. unfold unbroken. rewrite He, app_nil_r. auto.
  - assert (Hno : overflows (currentWidth st + wordWidth st) = false).
    { apply overflows_false. rewrite <- Hq, lineWidth_app in Hfit. Lqa.lra. }
    rewrite Hno. cbn.
    split; [| split; [exact Hq | reflexivity]].
    unfold unbroken. cbn. rewrite app_nil_r.
    split; [exact Hl |]. split; [exact Hq |].
    split; [rewrite lineWidth_app; Lqa.lra | reflexivity].
Qed.

Lemma stepChar_unbroken (ls : list (list nat)) (q : list nat) (st : Wrap)
    (c : nat) :
  unbroken ls q st -> (lineWidth (q ++ [c]) <= MAX_LINE_WIDTH)%Q ->
  unbroken ls (q ++ [c]) (stepChar st c).
Proof.
  intros Hst Hfit.
  assert (Hq : (lineWidth q <= MAX_LINE_WIDTH)%Q).
  { rewrite lineWidth_snoc in Hfit. pose proof (widthOf_nonneg c). Lqa.lra. }
  rewrite lineWidth_snoc in Hfit.
  destruct (flushWord_unbroken ls q st Hst Hq) as ((Hl & _ & Hcw & Hww) & Hcl & Hwb).
  unfold stepChar.
  destruct (isWide c) eqn:Hwide.
  - assert (HwO : widthOf c = charWidth c).
    { unfold widthOf, charWidth. now rewrite Hwide. }
    assert (Hno : overflows (currentWidth (flushWord st) + charWidth c) = false).
    { apply overflows_false. rewrite Hcl in Hcw. rewrite <- HwO. Lqa.lra. }
    rewrite Hno. rewrite Hwb in Hww. unfold unbroken. cbn.
    rewrite Hwb, app_nil_r, Hcl.
    split; [exact Hl |]. split; [reflexivity |].
    split; [| exact Hww].
    rewrite lineWidth_snoc, HwO. rewrite Hcl in Hcw. Lqa.lra.
  - destruct (c =? space)%nat eqn:Hsp.
    + assert (HwO : widthOf c = spaceWidth).
      { unfold widthOf. now rewrite Hwide, Hsp. }
      assert (Hyes : Qle_bool (currentWidth (flushWord st) + spaceWidth)
                              MAX_LINE_WIDTH = true).
      { apply Qle_bool_iff. rewrite Hcl in Hcw. rewrite <- HwO. Lqa.lra. }
      rewrite Hyes. rewrite Hwb in Hww. unfold unbroken. cbn.
      rewrite Hwb, app_nil_r, Hcl.
      split; [exact Hl |]. split; [reflexivity |].
      split; [| exact Hww].
      rewrite lineWidth_snoc, HwO. rewrite Hcl in Hcw. Lqa.lra.
    + destruct Hst as (Hl0 & Hq0 & Hcw0 & Hww0).
      assert (HwO : widthOf c = charWidth c).
      { unfold widthOf, charWidth. now rewrite Hwide, Hsp. }
      unfold unbroken. cbn.
      split; [exact Hl0 |]. split; [now rewrite app_assoc, Hq0 |].
      split; [exact Hcw0 |].
      rewrite lineWidth_snoc, HwO. Lqa.lra.
Qed.

Lemma loop_unbroken (ls : list (list nat)) (rest : list nat) :
  forall q st,
    unbroken ls q st -> (lineWidth (q ++ rest) <= MAX_LINE_WIDTH)%Q ->
    unbroken ls (q ++ rest) (fold_left stepChar rest st).
Proof.
  induction rest as [| c rest IH]; intros q st Hst Hfit.
  - cbn. now rewrite app_nil_r.
  - cbn [fold_left].
    replace (q ++ c :: rest) with ((q ++ [c]) ++ rest) in *
      by now rewrite <- app_assoc.
    apply IH; [| exact Hfit].
    apply stepChar_unbroken; [exact Hst |].
    rewrite lineWidth_app in Hfit. pose proof (lineWidth_nonneg rest). Lqa.lra.
Qed.

Lemma split_no_newline (text : list nat) :
  Forall (fun c => c <> newline) text -> split text = [text].
Proof.
  induction 1 as [| c rest Hc Hrest IH]; [reflexivity |].
  cbn [split]. apply Nat.eqb_neq in Hc. now rewrite Hc, IH.
Qed.



End BackPhotoShort.

Section BackPhotoEscape.

Import BackPhoto BackPhotoInv.

Lemma replaceAll_flat_map (c : nat) (by_ : list nat) (f : nat -> list nat)
    (l : list nat) :
  replaceAll c by_ (flat_map f l)
  = flat_map (fun x => replaceAll c by_ (f x)) l.
Proof.
  unfold replaceAll. induction l as [| x l IH]; [reflexivity |].
  cbn [flat_map]. now rewrite List.flat_map_app, IH.
Qed.

Lemma escapeChar_chain (x : nat) :
  replaceAll 62 (codes "&gt;")
    (replaceAll 60 (codes "&lt;")
       (if (x =? 38)%nat then codes "&amp;" else [x]))
  = escapeChar x.
Proof.
  unfold escapeChar.
  destruct (x =? 38)%nat eqn:H38; [reflexivity |].
  unfold replaceAll. cbn [flat_map].
  destruct (x =? 60)%nat eqn:H60; [reflexivity |].
  cbn [flat_map app]. destruct (x =? 62)%nat eqn:H62; reflexivity.
Qed.

Lemma escapeLine_pass (line : list nat) :
  escapeLine line = flat_map escapeChar line.
Proof.
  unfold escapeLine. unfold replaceAll at 3.
  rewrite !replaceAll_flat_map.
  induction line as [| x l IH]; [reflexivity |].
  cbn [flat_map]. now rewrite escapeChar_chain, IH.
Qed.

Lemma escapeChar_cases (x : nat) :
  (x = 38%nat /\ escapeChar x = [38; 97; 109; 112; 59]%nat) \/
  (x = 60%nat /\ escapeChar x = [38; 108; 116; 59]%nat) \/
  (x = 62%nat /\ escapeChar x = [38; 103; 116; 59]%nat) \/
  (x <> 38%nat /\ x <> 60%nat /\ x <> 62%nat /\ escapeChar x = [x]).
Proof.
  unfold escapeChar.
  destruct (Nat.eqb_spec x 38) as [-> | H38]; [left; split; reflexivity |].
  destruct (Nat.eqb_spec x 60) as [-> | H60]; [right; left; split; reflexivity |].
  destruct (Nat.eqb_spec x 62) as [-> | H62];
    [right; right; left; split; reflexivity |].
  right; right; right. auto.
Qed.

Lemma escape_inj (l1 : list nat) :
  forall l2, flat_map escapeChar l1 = flat_map escapeChar l2 -> l1 = l2.
Proof.
  induction l1 as [| x l1 IH]; intros [| y l2] H; cbn [flat_map] in H.
  - reflexivity.
  - destruct (escapeChar_cases y) as [[_ E] | [[_ E] | [[_ E] | (_ & _ & _ & E)]]];
      rewrite E in H; discriminate H.
  - destruct (escapeChar_cases x) as [[_ E] | [[_ E] | [[_ E] | (_ & _ & _ & E)]]];
      rewrite E in H; discriminate H.
  - destruct (escapeChar_cases x) as [[Hx E] | [[Hx E] | [[Hx E] | (Hx1 & Hx2 & Hx3 & E)]]];
      destruct (escapeChar_cases y) as [[Hy E'] | [[Hy E'] | [[Hy E'] | (Hy1 & Hy2 & Hy3 & E')]]];
      rewrite E, E' in H; cbn [app] in H;
      try discriminate H;
      try (injection H as H; subst; f_equal; now apply IH);
      try (injection H as Hh H; subst; try contradiction; try congruence).
Qed.

(** X22: the three replacements that make [safeLine] amount to one pass
    that escapes [&], [<] and [>]; the escaped line contains neither [<]
    nor [>], a line without these three characters is left as it is, and
    two different lines never have the same escaped form. *)
Theorem escaped_line_is_safe (line : list nat) :
  escapeLine line = flat_map escapeChar line /\
  Forall (fun c => c <> 60%nat /\ c <> 62%nat) (escapeLine line) /\
  (Forall (fun c => c <> 38%nat /\ c <> 60%nat /\ c <> 62%nat) line ->
   escapeLine line = line) /\
  (forall other, escapeLine line = escapeLine other -> line = other).
Proof.
  split; [apply escapeLine_pass |]. split; [| split].
  - rewrite escapeLine_pass. induction line as [| x l IH]; [constructor |].
    cbn [flat_map]. apply Forall_app. split; [| exact IH].
    destruct (escapeChar_cases x) as [[_ E] | [[_ E] | [[_ E] | (H1 & H2 & H3 & E)]]];
      rewrite E; repeat (constructor; [split; congruence |]); constructor.
  - intros Hplain. rewrite escapeLine_pass.
    induction Hplain as [| x l (H1 & H2 & H3) Hl IH]; [reflexivity |].
    cbn [flat_map]. rewrite IH. unfold escapeChar.
    apply Nat.eqb_neq in H1, H2, H3. now rewrite H1, H2, H3.
  - intros other H. rewrite !escapeLine_pass in H. now apply escape_inj.
Qed.

Lemma escaped_line_is_safe_witness :
  escapeLine (codes "a b") = codes "a b".
Proof.
  destruct (escaped_line_is_safe (codes "a b")) as (_ & _ & Hplain & _).
  apply Hplain. vm_compute. repeat constructor; discriminate.
Defined.

End BackPhotoEscape.

(** ** Photo frame: resting orientation *)

Section RestingOrientation.

Import PhotoFrame Gallery.

(** X23: when the tree is formed, the destination of the resting
    orientation of every photo of a gallery is a unit quaternion that
    turns about the vertical axis only, so the frame hangs upright; and
    the turn carries the front of the frame, its z axis, to the
    horizontal direction that points from the tree's axis to the photo
    (a quaternion [(0, y, 0, w)] carries the z axis to
    [(2yw, 0, w^2 - y^2)]): the picture faces away from the tree.  The
    photo is off the axis, so the direction is defined. *)
Theorem formed_frames_face_outward
    (photos : list PhotoItem) (draws : nat -> R * R * R)
    (i : nat) (p : Props) :
  photoObjects photos draws !! i = Some (data p) ->
  treeState p = FORMED ->
  let q := RestingRot.destRestingRot p in
  let pos := position (data p) in
  let r := Vec.horizontalRadius pos in
  3/2 < r /\
  Quat.lengthSq q = 1 /\ qx q = 0 /\ qz q = 0 /\
  2 * qy q * qw q = vx pos / r /\
  qw q * qw q - qy q * qy q = vz pos / r.
Proof.
  intros Hd Hts q pos r.
  assert (Hr : 3/2 < r).
  { apply photoObjects_lookup in Hd as (_ & Hlt & Hpos).
    pose proof (index_ratio i (length photos) Hlt) as [Hq0 Hq1].
    unfold r, pos. rewrite Hpos, spiral_radius by nra. nra. }
  split; [exact Hr |].
  unfold q, RestingRot.destRestingRot. rewrite Hts. cbn [TreeState_eqb].
  cbv zeta. fold pos. unfold RestingRot.lookAt.
  destruct (lookAt_level pos) as (a & c & Hac & Hdir & ->).
  fold r in Hdir. destruct (Hdir ltac:(lra)) as [Ea Ec].
  destruct (yaw_quaternion a c Hac) as (Hunit & Hx & Hz & Hsin & Hcos).
  cbv zeta in Hunit, Hx, Hz, Hsin, Hcos.
  set (q1 := Mat4.setFromRotationMatrix _) in *.
  destruct (rotateY_PI_yaw q1 Hx Hz) as (Hx' & Hz' & Hy' & Hw').
  cbv zeta in Hx', Hz', Hy', Hw'.
  split; [now apply rotateY_unit |].
  split; [exact Hx' |]. split; [exact Hz' |].
  rewrite Hy', Hw'. split.
  - transitivity (- (2 * qy q1 * qw q1)); [ring |].
    rewrite Hsin, Ea. field. lra.
  - transitivity (- (qw q1 * qw q1 - qy q1 * qy q1)); [ring |].
    rewrite Hcos, Ec. field. lra.
Qed.

Lemma formed_frames_face_outward_witness :
  let photos := [mkPhotoItem "a" 1] in
  let draws := fun _ : nat => (0, 1/2, 1/2) in
  let d := photoObject 1 (0, 1/2, 1/2) 0 (mkPhotoItem "a" 1) in
  let p := mkProps d FORMED false false in
  photoObjects photos draws !! 0%nat = Some (data p) /\
  treeState p = FORMED /\
  qx (RestingRot.destRestingRot p) = 0 /\
  qz (RestingRot.destRestingRot p) = 0.
Proof.
  intros photos draws d p.
  assert (Hd : photoObjects photos draws !! 0%nat = Some (data p))
    by reflexivity.
  split; [exact Hd |]. split; [reflexivity |].
  destruct (formed_frames_face_outward photos draws 0 p Hd eq_refl)
    as (_ & _ & Hx & Hz & _).
  split; [exact Hx | exact Hz].
Defined.

End RestingOrientation.

(** ** The application: uploads *)

Section Uploads.

Import Gallery.

Lemma pushFiles_closed (item : App.Processed -> PhotoItem)
    (files : list App.File) (acc : list PhotoItem) :
  App.pushFiles item files acc
  = acc ++ map (fun f => item (App.processImage f))
               (take (App.accepted acc files) files).
Proof.
  unfold App.accepted. revert acc.
  induction files as [| f rest IH]; intros acc.
  - cbn. rewrite Nat.min_0_r. cbn. now rewrite app_nil_r.
  - cbn [App.pushFiles].
    destruct (App.MAX_PHOTOS <=? length acc)%nat eqn:Hfull.
    + apply Nat.leb_le in Hfull.
      replace (App.MAX_PHOTOS - length acc)%nat with 0%nat by lia.
      cbn. now rewrite app_nil_r.
    + apply Nat.leb_gt in Hfull. rewrite IH.
      rewrite length_app. cbn [length].
      assert (E : Nat.min (App.MAX_PHOTOS - length acc) (S (length rest))
                  = S (Nat.min (App.MAX_PHOTOS - (length acc + 1)) (length rest)))
        by lia.
      rewrite E. cbn [take map]. rewrite <- app_assoc. reflexivity.
Qed.

(** The size that [processImage] computes for a decoded image. *)
Lemma processImage_size (f : App.File) :
  0 < App.imgWidth f -> 0 < App.imgHeight f ->
  let r := App.processImage f in
  0 < App.pWidth r <= App.imgWidth f /\
  0 < App.pHeight r <= App.imgHeight f /\
  App.pHeight r / App.pWidth r = App.imgHeight f / App.imgWidth f /\
  Rmax (App.pWidth r) (App.pHeight r)
  = Rmin 1024 (Rmax (App.imgWidth f) (App.imgHeight f)).
Proof.
  intros Hw Hh. unfold App.processImage. cbv zeta.
  set (w := App.imgWidth f) in *. set (h := App.imgHeight f) in *.
  destruct (Rlt_dec h w) as [Hhw | Hhw].
  - destruct (Rlt_dec 1024 w) as [Hbig | Hsmall]; cbn [App.pWidth App.pHeight].
    + assert (Hs : 0 < 1024 / w < 1).
      { split; [apply Rdiv_lt_0_compat; lra |].
        apply Rmult_lt_reg_r with w; [lra |].
        unfold Rdiv. rewrite Rmult_assoc, Rinv_l by lra. lra. }
      assert (Hhs : h * (1024 / w) < 1024).
      { apply Rmult_lt_reg_r with w; [lra |].
        replace (h * (1024 / w) * w) with (h * 1024) by (field; lra). nra. }
      split; [lra |]. split; [split; nra |]. split; [field; lra |].
      rewrite (Rmax_left 1024) by lra. rewrite (Rmax_left w h) by lra.
      now rewrite Rmin_left by lra.
    + split; [lra |]. split; [lra |]. split; [reflexivity |].
      rewrite (Rmax_left w h) by lra. now rewrite Rmin_right by lra.
  - destruct (Rlt_dec 1024 h) as [Hbig | Hsmall]; cbn [App.pWidth App.pHeight].
    + assert (Hs : 0 < 1024 / h < 1).
      { split; [apply Rdiv_lt_0_compat; lra |].
        apply Rmult_lt_reg_r with h; [lra |].
        unfold Rdiv. rewrite Rmult_assoc, Rinv_l by lra. lra. }
      assert (Hws : w * (1024 / h) <= 1024).
      { apply Rmult_le_reg_r with h; [lra |].
        replace (w * (1024 / h) * h) with (w * 1024) by (field; lra). nra. }
      split; [split; nra |]. split; [lra |]. split; [field; lra |].
      rewrite (Rmax_right _ 1024) by lra. rewrite (Rmax_right w h) by lra.
      now rewrite Rmin_left by lra.
    + split; [lra |]. split; [lra |]. split; [reflexivity |].
      rewrite (Rmax_right w h) by lra. now rewrite Rmin_right by lra.
Qed.

Lemma photoObjects_item (photos : list PhotoItem) (draws : nat -> R * R * R)
    (i : nat) (d : PhotoFrame.PhotoData) :
  photoObjects photos draws !! i = Some d ->
  exists item, photos !! i = Some item /\
               PhotoFrame.frameHeight d = height item.
Proof.
  unfold photoObjects. rewrite list_lookup_imap.
  destruct (photos !! i) as [item |] eqn:Hi; [| discriminate].
  cbn. intros [= <-]. exists item. split; [reflexivity |].
  unfold photoObject. destruct (draws i) as [[u v] w]. reflexivity.
Qed.

Lemma photoObjects_some (photos : list PhotoItem) (draws : nat -> R * R * R)
    (i : nat) :
  (i < length photos)%nat ->
  exists d, photoObjects photos draws !! i = Some d.
Proof.
  intros Hlt. unfold photoObjects. rewrite list_lookup_imap.
  destruct (lookup_lt_is_Some_2 photos i Hlt) as [item ->]. cbn. eauto.
Qed.


(** X25: for an image of positive size, [processImage] keeps the
    proportions, never enlarges, and brings the longer side down to 1024
    when it is longer than that: the longer side of the result is the
    smaller of 1024 and the longer side of the image.  An image whose
    sides are at most 1024 is left at its size. *)
Theorem processed_image_fits (f : App.File) :
  0 < App.imgWidth f -> 0 < App.imgHeight f ->
  let r := App.processImage f in
  App.pUrl r = App.resolvedUrl f /\
  0 < App.pWidth r <= App.imgWidth f /\
  0 < App.pHeight r <= App.imgHeight f /\
  App.pHeight r / App.pWidth r = App.imgHeight f / App.imgWidth f /\
  Rmax (App.pWidth r) (App.pHeight r)
  = Rmin 1024 (Rmax (App.imgWidth f) (App.imgHeight f)) /\
  (App.imgWidth f <= 1024 -> App.imgHeight f <= 1024 ->
   App.pWidth r = App.imgWidth f /\ App.pHeight r = App.imgHeight f).
Proof.
  intros Hw Hh r.
  destruct (processImage_size f Hw Hh) as (H1 & H2 & H3 & H4).
  split.
  { unfold r, App.processImage. cbv zeta.
    destruct (Rlt_dec _ _); destruct (Rlt_dec _ _); reflexivity. }
  split; [exact H1 |]. split; [exact H2 |]. split; [exact H3 |].
  split; [exact H4 |].
  intros Hsw Hsh. unfold r, App.processImage. cbv zeta.
  destruct (Rlt_dec _ _); destruct (Rlt_dec _ _); cbn; try lra; split; lra.
Qed.

Lemma processed_image_fits_witness :
  0 < App.imgWidth (App.mkFile "blob:a" 4096 2048) /\
  0 < App.imgHeight (App.mkFile "blob:a" 4096 2048) /\
  App.pHeight (App.processImage (App.mkFile "blob:a" 4096 2048))
  / App.pWidth (App.processImage (App.mkFile "blob:a" 4096 2048))
  = 2048 / 4096.
Proof.
  assert (Hw : 0 < App.imgWidth (App.mkFile "blob:a" 4096 2048)) by (cbn; lra).
  assert (Hh : 0 < App.imgHeight (App.mkFile "blob:a" 4096 2048)) by (cbn; lra).
  split; [exact Hw |]. split; [exact Hh |].
  destruct (processed_image_fits (App.mkFile "blob:a" 4096 2048) Hw Hh)
    as (_ & _ & _ & Hratio & _).
  exact Hratio.
Defined.

(** X26: an upload keeps every photo that was in the gallery at its
    index, with its identifier and its frame height, but moves it: the
    spiral is laid out anew over the larger number of photos, so the
    photo is not higher and not closer to the axis than before, and
    every photo but the first is strictly lower and further out when the
    upload has taken a file. *)
Theorem upload_moves_earlier_photos
    (upload : list PhotoItem -> list App.File -> list PhotoItem)
    (photos : list PhotoItem) (files : list App.File)
    (draws draws' : nat -> R * R * R) (i : nat) (d : PhotoFrame.PhotoData) :
  upload = App.handlePhotoUpload \/ upload = App.handleFreeRatioUpload ->
  photoObjects photos draws !! i = Some d ->
  exists d',
    photoObjects (upload photos files) draws' !! i = Some d' /\
    PhotoFrame.id d' = PhotoFrame.id d /\
    PhotoFrame.frameHeight d' = PhotoFrame.frameHeight d /\
    vy (PhotoFrame.position d') <= vy (PhotoFrame.position d) /\
    Vec.horizontalRadius (PhotoFrame.position d)
    <= Vec.horizontalRadius (PhotoFrame.position d') /\
    ((0 < i)%nat -> (0 < App.accepted photos files)%nat ->
     vy (PhotoFrame.position d') < vy (PhotoFrame.position d) /\
     Vec.horizontalRadius (PhotoFrame.position d)
     < Vec.horizontalRadius (PhotoFrame.position d')).
Proof.
  intros Hup Hd.
  assert (Hform : exists added,
            upload photos files = photos ++ added /\
            length added = App.accepted photos files).
  { destruct Hup as [-> | ->];
      [unfold App.handlePhotoUpload | unfold App.handleFreeRatioUpload];
      rewrite pushFiles_closed; eexists; (split; [reflexivity |]);
      rewrite length_map, length_take; unfold App.accepted; lia. }
  destruct Hform as (added & Hform & Hadded).
  set (n := App.accepted photos files) in *.
  destruct (photoObjects_item _ _ _ _ Hd) as (item & Hitem & Hheight).
  apply photoObjects_lookup in Hd as (Hid & Hlt & Hpos).
  assert (Hlt' : (i < length (upload photos files))%nat)
    by (rewrite Hform, length_app; lia).
  destruct (photoObjects_some (upload photos files) draws' i Hlt') as [d' Hd'].
  exists d'. split; [exact Hd' |].
  destruct (photoObjects_item _ _ _ _ Hd') as (item' & Hitem' & Hheight').
  apply photoObjects_lookup in Hd' as (Hid' & _ & Hpos').
  assert (item' = item).
  { rewrite Hform, lookup_app_l in Hitem' by exact Hlt. congruence. }
  subst item'.
  split; [congruence |]. split; [congruence |].
  rewrite Hpos, Hpos', !spiral_y.
  assert (HN : 0 < INR (length photos)) by (apply lt_0_INR; lia).
  assert (HN' : INR (length (upload photos files))
                = INR (length photos) + INR n).
  { rewrite Hform, length_app, plus_INR, Hadded. reflexivity. }
  assert (Hn0 : 0 <= INR n) by apply pos_INR.
  assert (Hi0 : 0 <= INR i) by apply pos_INR.
  assert (HiN : INR i < INR (length photos)) by (apply lt_INR; exact Hlt).
  rewrite HN'.
  set (N := INR (length photos)) in *. set (x := INR i) in *.
  set (m := INR n) in *.
  assert (Hq : x / (N + m) <= x / N).
  { apply Rmult_le_reg_r with (N * (N + m)); [nra |].
    replace (x / (N + m) * (N * (N + m))) with (x * N) by (field; lra).
    replace (x / N * (N * (N + m))) with (x * (N + m)) by (field; lra).
    nra. }
  assert (Hq0 : 0 <= x / (N + m)).
  { apply Rmult_le_pos; [exact Hi0 | left; apply Rinv_0_lt_compat; lra]. }
  assert (Hq1 : x / N < 1).
  { apply Rmult_lt_reg_r with N; [exact HN |].
    unfold Rdiv. rewrite Rmult_assoc, Rinv_l by lra. lra. }
  rewrite !spiral_radius by nra.
  split; [nra |]. split; [nra |].
  intros Hipos Hnpos.
  assert (Hx : 0 < x) by (apply lt_0_INR; exact Hipos).
  assert (Hm : 0 < m) by (apply lt_0_INR; exact Hnpos).
  assert (Hqs : x / (N + m) < x / N).
  { apply Rmult_lt_reg_r with (N * (N + m)); [nra |].
    replace (x / (N + m) * (N * (N + m))) with (x * N) by (field; lra).
    replace (x / N * (N * (N + m))) with (x * (N + m)) by (field; lra).
    nra. }
  split; nra.
Qed.

Lemma upload_moves_earlier_photos_witness :
  let photos := [mkPhotoItem "a" 1; mkPhotoItem "b" 2] in
  let files := [App.mkFile "blob:c" 4096 2048] in
  let draws := fun _ : nat => (0, 1/2, 1/2) in
  let d := photoObject 2 (0, 1/2, 1/2) 1 (mkPhotoItem "b" 2) in
  photoObjects photos draws !! 1%nat = Some d /\
  exists d',
    photoObjects (App.handleFreeRatioUpload photos files) draws !! 1%nat
    = Some d' /\
    vy (PhotoFrame.position d') < vy (PhotoFrame.position d).
Proof.
  intros photos files draws d.
  assert (Hd : photoObjects photos draws !! 1%nat = Some d) by reflexivity.
  split; [exact Hd |].
  destruct (upload_moves_earlier_photos App.handleFreeRatioUpload photos files
              draws draws 1 d (or_intror eq_refl) Hd)
    as (d' & Hd' & _ & _ & _ & _ & Hstrict).
  exists d'. split; [exact Hd' |].
  apply Hstrict; [lia | cbn; lia].
Defined.

End Uploads.

(** ** The application: the long press *)

Section LongPressRuns.

Import LongPress.

Lemma press_elapse_idle (ms : nat) (s : State) (w : PhotoFrame.Timers) :
  PhotoFrame.pending w = ∅ ->
  elapse ms (s, w)
  = (s, PhotoFrame.mkTimers (PhotoFrame.now w + ms) ∅ (PhotoFrame.nextHandle w)).
Proof.
  intros Hw. unfold elapse. rewrite Hw, !map_filter_empty, map_to_list_empty.
  reflexivity.
Qed.

Lemma press_elapse_before (ms h d : nat) (s : State) (w : PhotoFrame.Timers) :
  PhotoFrame.pending w = {[ h := d ]} -> (PhotoFrame.now w + ms < d)%nat ->
  elapse ms (s, w)
  = (s, PhotoFrame.mkTimers (PhotoFrame.now w + ms) {[ h := d ]}
                            (PhotoFrame.nextHandle w)).
Proof.
  intros Hw Hlt. unfold elapse. rewrite Hw, !map_filter_singleton. simpl.
  repeat case_decide; try lia.
  rewrite map_to_list_empty. reflexivity.
Qed.

Lemma press_elapse_due (ms h d : nat) (s : State) (w : PhotoFrame.Timers) :
  PhotoFrame.pending w = {[ h := d ]} -> (d <= PhotoFrame.now w + ms)%nat ->
  elapse ms (s, w)
  = (timeoutCallback s,
     PhotoFrame.mkTimers (PhotoFrame.now w + ms) ∅ (PhotoFrame.nextHandle w)).
Proof.
  intros Hw Hle. unfold elapse. rewrite Hw, !map_filter_singleton. simpl.
  repeat case_decide; try lia.
  rewrite map_to_list_singleton. reflexivity.
Qed.

Lemma run_cons (e : Event) (es : list Event) (sw : State * PhotoFrame.Timers) :
  run (e :: es) sw = run es (step e sw).
Proof. reflexivity. Qed.

(** A held press stays a held press, and the clock advances by the
    time waited. *)
Lemma pressed_run (x y : R) (h dl : nat) (ts : TreeState)
    (es : list Event) (sw : State * PhotoFrame.Timers) :
  pressed x y h dl ts sw -> Forall (held x y) es ->
  pressed x y h dl ts (run es sw) /\
  PhotoFrame.now (snd (run es sw))
  = (PhotoFrame.now (snd sw) + waited es)%nat.
Proof.
  intros Hp Hes. revert sw Hp.
  induction Hes as [| e es He _ IH]; intros sw Hp.
  - cbn. split; [exact Hp | lia].
  - rewrite run_cons.
    assert (Hstep : pressed x y h dl ts (step e sw) /\
              PhotoFrame.now (snd (step e sw))
              = (PhotoFrame.now (snd sw)
                 + match e with Wait ms => ms | _ => 0 end)%nat).
    { destruct sw as [s w].
      destruct Hp as (Hpos & Hmv & Htm & Hh & Hcase). cbn [fst snd] in *.
      destruct e as [x' y' | x' y' | | ms]; cbn [held] in He;
        try contradiction.
      - (* a move within reach *)
        cbn [step]. unfold handleMove. rewrite Hpos.
        destruct (Rlt_dec 10 _) as [Hfar | _]; [lra |].
        split; [| cbn; lia]. unfold pressed. cbn [fst snd]. auto.
      - (* time passes *)
        cbn [step].
        destruct Hcase as [(Hpend & Hnow & Hts) | (Hpend & Hnow & Hts)].
        + destruct (Nat.lt_ge_cases (PhotoFrame.now w + ms) dl) as [Hb | Hd].
          * rewrite (press_elapse_before ms h dl s w Hpend Hb).
            split; [| reflexivity]. unfold pressed.
            cbn [fst snd PhotoFrame.pending PhotoFrame.now].
            refine (conj Hpos (conj Hmv (conj Htm (conj Hh _)))).
            left. auto.
          * rewrite (press_elapse_due ms h dl s w Hpend Hd).
            split; [| reflexivity]. unfold pressed, timeoutCallback.
            rewrite Hmv.
            cbn [fst snd startPos hasMoved pressTimer treeState
                 PhotoFrame.pending PhotoFrame.now].
            refine (conj Hpos (conj eq_refl (conj Htm (conj Hh _)))).
            right. rewrite Hts. auto.
        + rewrite (press_elapse_idle ms s w Hpend).
          split; [| reflexivity]. unfold pressed.
          cbn [fst snd PhotoFrame.pending PhotoFrame.now].
          refine (conj Hpos (conj Hmv (conj Htm (conj Hh _)))).
          right. split; [reflexivity |]. split; [lia | exact Hts]. }
    destruct Hstep as [Hp' Hnow'].
    destruct (IH _ Hp') as [Hp'' Hnow''].
    split; [exact Hp'' |]. rewrite Hnow'', Hnow'.
    unfold waited. destruct e; cbn [fold_right]; lia.
Qed.

(** Without a pending timeout and without a new press, the tree keeps
    its state. *)
Lemma released_run (es : list Event) (sw : State * PhotoFrame.Timers) :
  PhotoFrame.pending (snd sw) = ∅ ->
  Forall (fun e => ~ isStart e) es ->
  PhotoFrame.pending (snd (run es sw)) = ∅ /\
  treeState (fst (run es sw)) = treeState (fst sw).
Proof.
  intros Hp Hes. revert sw Hp.
  induction Hes as [| e es He _ IH]; intros sw Hp; [cbn; auto |].
  rewrite run_cons.
  assert (Hstep : PhotoFrame.pending (snd (step e sw)) = ∅ /\
                  treeState (fst (step e sw)) = treeState (fst sw)).
  { destruct sw as [s w]. cbn [fst snd] in *.
    destruct e as [x' y' | x' y' | | ms]; cbn [isStart] in He;
      [now destruct He | | |].
    - cbn [step]. unfold handleMove.
      destruct (startPos s) as [[x y] |]; [| auto].
      destruct (Rlt_dec 10 _); [| auto].
      unfold clearPressTimer. cbn [pressTimer].
      destruct (pressTimer s) as [h |]; [| auto].
      destruct (h =? 0)%nat; [auto |]. cbn [fst snd].
      unfold PhotoFrame.clearTimeout. cbn. rewrite Hp, delete_empty. auto.
    - cbn [step]. unfold handleEnd, clearPressTimer. cbn [pressTimer].
      destruct (pressTimer s) as [h |]; [| auto].
      destruct (h =? 0)%nat; [auto |]. cbn [fst snd].
      unfold PhotoFrame.clearTimeout. cbn. rewrite Hp, delete_empty. auto.
    - cbn [step]. rewrite (press_elapse_idle ms s w Hp). auto. }
  destruct Hstep as [Hp' Hts'].
  destruct (IH _ Hp') as [Hp'' Hts'']. split; [exact Hp'' | congruence].
Qed.

(** X27: a press that starts while no timeout is pending toggles the
    tree exactly when it is held for 1.8 seconds.  While the pointer
    stays within 10 of the point where the press began, the tree is
    toggled once the time waited reaches 1800 ms, and whatever follows
    short of a new press leaves it toggled; if the press ends before
    that, by a release or by a move of more than 10, the tree keeps its
    state, however long one waits afterwards. *)
Theorem long_press_toggles_once
    (x y : R) (es : list Event) (sw : State * PhotoFrame.Timers) :
  idle sw -> Forall (held x y) es ->
  let sw1 := run (Start x y :: es) sw in
  ((1800 <= waited es)%nat ->
   forall rest, Forall (fun e => ~ isStart e) rest ->
     treeState (fst (run rest sw1)) = toggleTree (treeState (fst sw))) /\
  ((waited es < 1800)%nat ->
   treeState (fst sw1) = treeState (fst sw) /\
   forall stop rest, ends x y stop -> Forall (fun e => ~ isStart e) rest ->
     treeState (fst (run (stop :: rest) sw1)) = treeState (fst sw)).
Proof.
  intros [Hidle Hnext] Hes sw1.
  destruct sw as [s w]. cbn [fst snd] in *.
  set (h := PhotoFrame.nextHandle w).
  set (dl := (PhotoFrame.now w + 1800)%nat).
  assert (Hp0 : pressed x y h dl (treeState s) (step (Start x y) (s, w))).
  { cbn [step]. unfold handleStart, PhotoFrame.setTimeout, pressed.
    cbn [fst snd startPos hasMoved pressTimer treeState
         PhotoFrame.pending PhotoFrame.now].
    rewrite Hidle, insert_empty. fold h dl.
    split; [reflexivity |]. split; [reflexivity |]. split; [reflexivity |].
    split; [exact Hnext |].
    left. split; [reflexivity |]. split; [unfold dl; lia | reflexivity]. }
  assert (Hnow0 : PhotoFrame.now (snd (step (Start x y) (s, w)))
                  = PhotoFrame.now w) by reflexivity.
  destruct (pressed_run x y h dl (treeState s) es _ Hp0 Hes) as [Hp1 Hnow1].
  rewrite Hnow0 in Hnow1.
  assert (E1 : sw1 = run es (step (Start x y) (s, w))) by reflexivity.
  rewrite <- E1 in Hp1, Hnow1. clearbody sw1.
  destruct sw1 as [s1 w1].
  destruct Hp1 as (Hpos & Hmv & Htm & Hh & Hcase). cbn [fst snd] in *.
  split.
  - intros Hlong rest Hrest.
    destruct Hcase as [(_ & Hlt & _) | (Hpend & _ & Hts)];
      [unfold dl in Hlt; lia |].
    destruct (released_run rest (s1, w1) Hpend Hrest) as [_ Hkeep].
    cbn [fst] in Hkeep. congruence.
  - intros Hshort.
    destruct Hcase as [(Hpend & _ & Hts) | (_ & Hge & _)];
      [| unfold dl in Hge; lia].
    split; [exact Hts |].
    intros stop rest Hstop Hrest. rewrite run_cons.
    assert (Hstep : PhotoFrame.pending (snd (step stop (s1, w1))) = ∅ /\
                    treeState (fst (step stop (s1, w1))) = treeState s1).
    { assert (Hh0 : (h =? 0)%nat = false) by (apply Nat.eqb_neq; lia).
      destruct stop as [x' y' | x' y' | | ms]; cbn [ends] in Hstop;
        try contradiction.
      - cbn [step]. unfold handleMove. rewrite Hpos.
        destruct (Rlt_dec 10 _) as [_ | Hnear]; [| lra].
        unfold clearPressTimer. cbn [pressTimer]. rewrite Htm, Hh0.
        cbn [fst snd]. unfold PhotoFrame.clearTimeout. cbn.
        rewrite Hpend, delete_singleton.
        case_decide; [auto | congruence].
      - cbn [step]. unfold handleEnd, clearPressTimer. cbn [pressTimer].
        rewrite Htm, Hh0. cbn [fst snd]. unfold PhotoFrame.clearTimeout. cbn.
        rewrite Hpend, delete_singleton.
        case_decide; [auto | congruence]. }
    destruct Hstep as [Hpend' Hts'].
    destruct (released_run rest _ Hpend' Hrest) as [_ Hkeep]. congruence.
Qed.

Lemma long_press_toggles_once_witness :
  let sw := (initial, PhotoFrame.noTimers) in
  let es := [Wait 1000; Move 3 4; Wait 800] in
  idle sw /\ Forall (held 0 0) es /\
  treeState (fst (run (Start 0 0 :: es) sw)) = FORMED.
Proof.
  intros sw es.
  assert (Hidle : idle sw) by (split; [reflexivity | cbn; lia]).
  assert (Hes : Forall (held 0 0) es).
  { repeat apply Forall_cons_2; try exact I; [| apply Forall_nil_2].
    cbn [held].
    replace ((3 - 0) ^ 2 + (4 - 0) ^ 2) with (5 * 5) by ring.
    rewrite sqrt_square; lra. }
  split; [exact Hidle |]. split; [exact Hes |].
  destruct (long_press_toggles_once 0 0 es sw Hidle Hes) as [Hlong _].
  exact (Hlong ltac:(cbn; lia) [] (Forall_nil_2 _)).
Defined.

Lemma press_elapse_none (ms : nat) (s : State) (w : PhotoFrame.Timers) :
  (forall i d, PhotoFrame.pending w !! i = Some d ->
               (PhotoFrame.now w + ms < d)%nat) ->
  elapse ms (s, w)
  = (s, PhotoFrame.mkTimers (PhotoFrame.now w + ms) (PhotoFrame.pending w)
                            (PhotoFrame.nextHandle w)).
Proof.
  intros Hall. unfold elapse.
  assert (E1 : filter (fun kv : nat * nat => (kv.2 <= PhotoFrame.now w + ms)%nat)
                      (PhotoFrame.pending w) = ∅).
  { apply map_empty. intros i. apply map_lookup_filter_None. right.
    intros d Hd. cbn. specialize (Hall i d Hd). lia. }
  assert (E2 : filter (fun kv : nat * nat => (PhotoFrame.now w + ms < kv.2)%nat)
                      (PhotoFrame.pending w) = PhotoFrame.pending w).
  { apply map_filter_id. intros i d Hd. cbn. exact (Hall i d Hd). }
  rewrite E1, E2, map_to_list_empty. reflexivity.
Qed.

(** X28: [handleStart] does not cancel a timeout that is pending.  When
    a second press begins before the first is released (a second
    finger, say), the release cancels the timeout of the second press
    only: the timeout of the first stays armed and toggles the tree 1.8
    seconds after the first press began, although the release came
    before any timeout was due. *)
Theorem second_press_keeps_first_timeout
    (x y x' y' : R) (a b c : nat) (sw : State * PhotoFrame.Timers) :
  idle sw -> (a + b < 1800)%nat -> (1800 <= a + b + c)%nat ->
  let released :=
    run [Start x y; Wait a; Start x' y'; Wait b; End_] sw in
  treeState (fst released) = treeState (fst sw) /\
  startPos (fst released) = None /\
  pressTimer (fst released) = None /\
  PhotoFrame.pending (snd released)
  = {[ PhotoFrame.nextHandle (snd sw) := (PhotoFrame.now (snd sw) + 1800)%nat ]} /\
  treeState (fst (run [Wait c] released)) = toggleTree (treeState (fst sw)).
Proof.
  intros [Hidle Hnext] Hab Habc released.
  destruct sw as [s w]. cbn [fst snd] in *.
  set (h := PhotoFrame.nextHandle w) in *.
  set (t0 := PhotoFrame.now w) in *.
  assert (E : released
            = (mkState (treeState s) None None false,
               PhotoFrame.mkTimers (t0 + a + b) {[ h := (t0 + 1800)%nat ]}
                                   (S (S h)))).
  { unfold released, run. cbn [fold_left step].
    unfold handleStart at 2, PhotoFrame.setTimeout.
    cbn [PhotoFrame.now PhotoFrame.pending PhotoFrame.nextHandle].
    rewrite Hidle, insert_empty. fold h t0.
    rewrite press_elapse_before with (h := h) (d := (t0 + 1800)%nat);
      [| reflexivity | cbn; lia].
    cbn [PhotoFrame.now PhotoFrame.nextHandle].
    unfold handleStart, PhotoFrame.setTimeout.
    cbn [PhotoFrame.now PhotoFrame.pending PhotoFrame.nextHandle treeState].
    rewrite press_elapse_none.
    2:{ cbn [PhotoFrame.now PhotoFrame.pending]. intros i d Hd.
        apply lookup_insert_Some in Hd as [[_ <-] | [_ Hd]]; [lia |].
        apply lookup_singleton_Some in Hd as [_ <-]. lia. }
    cbn [PhotoFrame.now PhotoFrame.pending PhotoFrame.nextHandle].
    unfold handleEnd, clearPressTimer.
    cbn [pressTimer treeState hasMoved startPos]. cbn [Nat.eqb].
    unfold PhotoFrame.clearTimeout.
    cbn [PhotoFrame.now PhotoFrame.pending PhotoFrame.nextHandle].
    rewrite delete_insert. case_decide; [| congruence].
    first [rewrite delete_id by (apply lookup_singleton_ne; lia)
          | rewrite delete_notin by (apply lookup_singleton_ne; lia)].
    reflexivity. }
  rewrite E. cbn [fst snd treeState startPos pressTimer PhotoFrame.pending].
  split; [reflexivity |]. split; [reflexivity |]. split; [reflexivity |].
  split; [reflexivity |].
  unfold run. cbn [fold_left step].
  rewrite press_elapse_due with (h := h) (d := (t0 + 1800)%nat);
    [| reflexivity | cbn; lia].
  reflexivity.
Qed.

Lemma second_press_keeps_first_timeout_witness :
  let sw := (initial, PhotoFrame.noTimers) in
  idle sw /\ (500 + 300 < 1800)%nat /\ (1800 <= 500 + 300 + 1000)%nat /\
  treeState
    (fst (run [Wait 1000]
              (run [Start 0 0; Wait 500; Start 50 50; Wait 300; End_] sw)))
  = FORMED.
Proof.
  intros sw.
  assert (Hidle : idle sw) by (split; [reflexivity | cbn; lia]).
  assert (H1 : (500 + 300 < 1800)%nat) by lia.
  assert (H2 : (1800 <= 500 + 300 + 1000)%nat) by lia.
  split; [exact Hidle |]. split; [exact H1 |]. split; [exact H2 |].
  destruct (second_press_keeps_first_timeout 0 0 50 50 500 300 1000 sw
              Hidle H1 H2) as (_ & _ & _ & _ & Htoggle).
  exact Htoggle.
Defined.

End LongPressRuns.

(** ** The application: clearing the photos *)

Section ClearingFade.

Import PhotoFrame PhotoRuns.

Lemma exp_mult_nat (n : nat) (x : R) : exp (INR n * x) = exp x ^ n.
Proof.
  induction n as [| n IH].
  - simpl. rewrite Rmult_0_l. apply exp_0.
  - rewrite S_INR, Rmult_plus_distr_r, Rmult_1_l, exp_plus, IH. simpl. ring.
Qed.

Lemma exp_12_5 : 10 < exp (12/5).
Proof.
  replace (12/5) with (INR 48 * (1/20)) by (simpl; lra).
  rewrite exp_mult_nat.
  apply Rlt_le_trans with ((21/20) ^ 48); [simpl; lra |].
  apply pow_incr. split; [lra |].
  pose proof (exp_ineq1_le (1/20)). lra.
Qed.

Lemma clearing_frame_scale (p : Props) (c : Camera) (delta : R) (s : State) :
  isClearing p = true ->
  visibilityScale (fst (useFrame true p c delta s))
  = (1 - 3 * delta) * visibilityScale s.
Proof.
  intros Hc. unfold useFrame. cbn [negb]. rewrite Hc.
  cbn [fst visibilityScale]. unfold MathUtils.lerp. ring.
Qed.

Lemma clearing_run_scale (p : Props) (fs : list Frame) (s : State) :
  isClearing p = true ->
  Forall (fun f => 0 <= fDelta f <= 1/3) fs ->
  0 <= visibilityScale s ->
  0 <= visibilityScale (run p fs s)
    <= exp (- 3 * duration fs) * visibilityScale s /\
  (Forall (fun f => fDelta f < 1/3) fs -> 0 < visibilityScale s ->
   0 < visibilityScale (run p fs s)).
Proof.
  intros Hc Hfs. revert s.
  induction Hfs as [| f fs Hf _ IH]; intros s Hs.
  - cbn. replace (- 3 * 0) with 0 by ring. rewrite exp_0. split; [lra | auto].
  - cbn [run fold_left duration fold_right].
    set (s1 := fst (useFrame true p (fCamera f) (fDelta f) s)).
    assert (E1 : visibilityScale s1 = (1 - 3 * fDelta f) * visibilityScale s)
      by now apply clearing_frame_scale.
    assert (Hs1 : 0 <= visibilityScale s1) by (rewrite E1; nra).
    destruct (IH s1 Hs1) as [[Hlo Hhi] Hpos].
    change (fold_left (fun st f0 => fst (useFrame true p (fCamera f0) (fDelta f0) st)) fs s1)
      with (run p fs s1).
    change (fold_right (fun f0 acc => fDelta f0 + acc) 0 fs) with (duration fs).
    split.
    + split; [exact Hlo |].
      replace (- 3 * (fDelta f + duration fs))
        with (- 3 * duration fs + - (3 * fDelta f)) by ring.
      rewrite exp_plus.
      pose proof (exp_ineq1_le (- (3 * fDelta f))) as He.
      pose proof (exp_pos (- 3 * duration fs)) as Hp.
      apply Rle_trans with (exp (- 3 * duration fs) * visibilityScale s1);
        [exact Hhi |].
      rewrite E1, Rmult_assoc.
      apply Rmult_le_compat_l; [lra |].
      apply Rmult_le_compat_r; [exact Hs | lra].
    + intros Hall Hs0. apply Forall_cons in Hall as [Hf1 Hall].
      apply Hpos; [exact Hall |]. rewrite E1. nra.
Qed.



End ClearingFade.
